(** * nwidget: property bindings for Qt widgets

    A shallow embedding of [include/nwidget/metaobject.h] (the property
    accessor [MetaProperty]) and [include/nwidget/binding.h] (the expression
    tree [BindingExpr] and the wiring done by [bindTo]), together with the
    part of Qt's object model the two headers drive: parent/child ownership
    of [QSignalMapper] objects, signal/slot connections, deferred deletion
    and the posted-event queue.

    Conventions.
    - C++ templates are instantiated over one universe of run-time values
      ([value]); what the compiler rejects (a missing getter, operands of the
      wrong type, an invalid slot) shows up as the fault [IllTyped].
    - [Q_ASSERT] is the debug-build assertion: it aborts ([AssertFailed]).
    - Undefined behaviour of the native operators and of raw pointers is a
      fault of its own ([Undefined], [NullDeref], [Dangling]).
    - [int] is the 32-bit signed integer of the platforms Qt runs on; the
      rules of the native operators are those of C++17.
    - Everything runs in one thread.  A signal emission is one call of
      [emit_notify]; what a setter of the toolkit emits in turn is a further
      emission, delivered by the same function. *)

From stdpp Require Import gmap strings list.
From Stdlib Require Import ZArith.

Open Scope string_scope.
Open Scope list_scope.

(** ** Objects, values and faults *)

(** Identity of an application [QObject] (what a [C*] points to). *)
Abbreviation ObjId := nat (only parsing).
(** Identity of a [QSignalMapper] created by [bindTo]. *)
Abbreviation MapperId := nat (only parsing).

(** Static types of the value universe. *)
Inductive ty :=
  | TInt | TBool | TStr | TPtr
  | TMem (t : ty)       (* pointer to a data member of type t *)
  | TMemFn (ret : ty).  (* pointer to a member function returning ret *)

Global Instance ty_eq_dec : EqDecision ty.
Proof. solve_decision. Defined.

Inductive value :=
  | VInt (z : Z)
  | VBool (b : bool)
  | VStr (s : string)
  | VPtr (p : option ObjId)            (* [None] is [nullptr] *)
  | VMem (field : string) (t : ty)
  | VMemFn (fn : string) (ret : ty).

Definition type_of (v : value) : ty :=
  match v with
  | VInt _ => TInt
  | VBool _ => TBool
  | VStr _ => TStr
  | VPtr _ => TPtr
  | VMem _ t => TMem t
  | VMemFn _ r => TMemFn r
  end.

Inductive Fault :=
  | AssertFailed   (* Q_ASSERT(false) *)
  | Undefined      (* native operator outside its domain: x / 0, overflow *)
  | NullDeref      (* use of a null object pointer without an assertion *)
  | Dangling       (* use of a destroyed object *)
  | IllTyped.      (* rejected at compile time *)

(** ** metaobject.h: the property accessor *)

(** [MetaProperty<C, I, T, G, S, N, R>] and its one data member [C* o].
    [void] for [G], [S], [N] or [R] is [false] / [None]. *)
Record MetaProperty := {
  mp_o : option ObjId;          (* C* o *)
  mp_class : string;            (* C *)
  mp_name : string;             (* Info::name() *)
  mp_type : ty;                 (* T *)
  isReadable : bool;            (* G is not void *)
  isWritable : bool;            (* S is not void *)
  mp_notify : option string;    (* N: the signal [&C::signal], if any *)
  isResettable : bool           (* R is not void *)
}.

Definition hasNotifySignal (p : MetaProperty) : bool :=
  match mp_notify p with Some _ => true | None => false end.

Definition object (p : MetaProperty) : option ObjId := mp_o p.

(** [Info::bindingName()] of N_PROPERTY. *)
Definition bindingName (p : MetaProperty) : string :=
  "nwidget_binding_on_" +:+ mp_name p.

(** ** binding.h: actions and expression trees *)

(** The functors of binding.h over the value universe.  [ActionConstructor],
    [ActionCall], the three casts, [ActionAddressOf] and [ActionContentOf]
    take C++ types, function objects or raw memory and have no counterpart
    in [value]; they are not part of this development. *)
Inductive Action :=
  | ActionEmpty
  | ActionCond
  | ActionMember | ActionInvoke
  | ActionAdd | ActionSub | ActionMul | ActionDiv
  | ActionEQ | ActionNE | ActionLT | ActionLE | ActionGT | ActionGE
  | ActionAnd | ActionOr
  | ActionBitAnd | ActionBitOR | ActionBitXOR | ActionBitLShift | ActionBitRShift
  | ActionPlus | ActionMinus | ActionNot | ActionBitNot.

(** An operand of [BindingExpr<Action, Args...>]: any value [T], a
    [MetaProperty], or a nested [BindingExpr]. *)
#[warnings="-register-all"]
Inductive arg :=
  | ALit (v : value)
  | AProp (p : MetaProperty)
  | AExpr (a : Action) (args : list arg).

Record BindingExpr := makeBindingExpr { action : Action; args : list arg }.

(** ** The toolkit state *)

(** Type of the connection made for the re-evaluation callback. *)
Inductive ConnectionType := AutoConnection | DirectConnection | QueuedConnection.

(** The [Func] template parameter of the private [bindTo], by the
    [if constexpr] tests of the [call] lambda: a [MetaProperty], a pointer to
    member function, or any other callable, the latter two with what
    [std::is_invocable_v] answers without and with the result type. *)
Inductive Func :=
  | FProperty (p : MetaProperty)
  | FMemFn (slot : string) (invocable0 invocable1 : bool)
  | FCallable (f : string) (invocable0 invocable1 : bool).

Inductive Connection :=
  (* connect(obj, &QObject::destroyed, binding, &QObject::deleteLater) *)
  | ConnDestroyed (obj : ObjId) (binding : MapperId)
  (* connect(obj, MetaProp::notify(), binding, &QSignalMapper::map) *)
  | ConnNotify (obj : ObjId) (sig : string) (binding : MapperId)
  (* connect(binding, &QSignalMapper::mappedInt, binding, [call, expr]{..}, type) *)
  | ConnMapped (binding : MapperId) (rece : option ObjId) (func : Func)
               (expr : BindingExpr) (type : ConnectionType).

Inductive PostedEvent :=
  | DeferredDelete (binding : MapperId)
  | MetaCall (binding : MapperId) (rece : option ObjId) (func : Func)
             (expr : BindingExpr).

(** What the application can observe: calls of getters, setters, member
    functions and slots. *)
Inductive Event :=
  | EvGet (o : ObjId) (name : string)
  | EvSet (o : ObjId) (name : string) (v : value)
  | EvMethod (o : ObjId) (fn : string) (actuals : list value)
  | EvSlot (rece : option ObjId) (slot : string) (actual : option value).

Record QSignalMapper := {
  parent : option ObjId;
  objectName : string;
  intHash : gmap ObjId Z;       (* setMapping(sender, id) *)
  wasDeleted : bool
}.

Record World := {
  attrs : gmap (ObjId * string) value;
  methods : string -> ObjId -> list value -> value;
  dead : gset ObjId;
  mappers : list QSignalMapper;
  conns : list Connection;
  posted : list PostedEvent;
  log : list Event
}.

(** ** A state and fault monad *)

Inductive Res (A : Type) :=
  | Ok (a : A) (w : World)
  | Err (f : Fault).
Arguments Ok {A} a w.
Arguments Err {A} f.

Definition M (A : Type) : Type := World -> Res A.

Definition ret {A} (a : A) : M A := fun w => Ok a w.
Definition fail {A} (f : Fault) : M A := fun _ => Err f.
Definition bindM {A B} (m : M A) (k : A -> M B) : M B :=
  fun w => match m w with Ok a w' => k a w' | Err f => Err f end.

Declare Scope m_scope.
Delimit Scope m_scope with M.
Notation "x ← y ; z" := (bindM y (fun x => z))
  (at level 20, y at level 100, z at level 200, only parsing) : m_scope.
Notation "x ;; z" := (bindM x (fun _ => z))
  (at level 100, z at level 200, only parsing, right associativity) : m_scope.
Open Scope m_scope.


Definition get_world : M World := fun w => Ok w w.

(** Field updates of [World]. *)
Definition with_attrs (f : gmap (ObjId * string) value -> gmap (ObjId * string) value)
    (w : World) : World :=
  {| attrs := f (attrs w); methods := methods w; dead := dead w;
     mappers := mappers w; conns := conns w; posted := posted w; log := log w |}.
Definition with_dead (f : gset ObjId -> gset ObjId) (w : World) : World :=
  {| attrs := attrs w; methods := methods w; dead := f (dead w);
     mappers := mappers w; conns := conns w; posted := posted w; log := log w |}.
Definition with_mappers (f : list QSignalMapper -> list QSignalMapper) (w : World) : World :=
  {| attrs := attrs w; methods := methods w; dead := dead w;
     mappers := f (mappers w); conns := conns w; posted := posted w; log := log w |}.
Definition with_conns (f : list Connection -> list Connection) (w : World) : World :=
  {| attrs := attrs w; methods := methods w; dead := dead w;
     mappers := mappers w; conns := f (conns w); posted := posted w; log := log w |}.
Definition with_posted (f : list PostedEvent -> list PostedEvent) (w : World) : World :=
  {| attrs := attrs w; methods := methods w; dead := dead w;
     mappers := mappers w; conns := conns w; posted := f (posted w); log := log w |}.
Definition with_log (f : list Event -> list Event) (w : World) : World :=
  {| attrs := attrs w; methods := methods w; dead := dead w;
     mappers := mappers w; conns := conns w; posted := posted w; log := f (log w) |}.

Definition modify (f : World -> World) : M unit := fun w => Ok tt (f w).

(** The world after the events [evs]. *)
Definition logged (evs : list Event) (w : World) : World :=
  with_log (fun l => l ++ evs) w.

Definition record (e : Event) : M unit := modify (logged [e]).

(** Use of an object pointer: null and destroyed objects are faults. *)
Definition deref (p : option ObjId) : M ObjId :=
  fun w =>
    match p with
    | None => Err NullDeref
    | Some o => if bool_decide (o ∈ dead w) then Err Dangling else Ok o w
    end.

(** ** metaobject.h: construction, get and set *)

(** [explicit MetaProperty(C* obj) : o(obj) { Q_ASSERT(o); }] with the
    descriptor bundle of the accessor's type taken from [descr]. *)
Definition MetaProperty_ctor (descr : MetaProperty) (obj : option ObjId) : M MetaProperty :=
  match obj with
  | None => fail AssertFailed
  | Some _ =>
      ret {| mp_o := obj; mp_class := mp_class descr; mp_name := mp_name descr;
             mp_type := mp_type descr;
             isReadable := isReadable descr; isWritable := isWritable descr;
             mp_notify := mp_notify descr; isResettable := isResettable descr |}
  end.

(** [T get() const { return read(o); }]: the getter of the toolkit reads the
    attribute of the object. *)
Definition get (p : MetaProperty) : M value :=
  if negb (isReadable p) then fail IllTyped
  else
    o ← deref (mp_o p);
    w ← get_world;
    match attrs w !! (o, mp_name p) with
    | None => fail IllTyped
    | Some v => record (EvGet o (mp_name p));; ret v
    end.

(** [void set(const T& val) const { write(o, val); }]: the setter of the
    toolkit stores the attribute. *)
Definition set (p : MetaProperty) (val : value) : M unit :=
  if negb (isWritable p) then fail IllTyped
  else
    o ← deref (mp_o p);
    modify (with_attrs (fun m => <[(o, mp_name p) := val]> m));;
    record (EvSet o (mp_name p) val).

(** ** binding.h: the action functors *)

Definition lift {A} (o : option A) : M A :=
  match o with Some a => ret a | None => fail IllTyped end.

(** Integral promotion and contextual conversion to [bool]. *)
Definition as_int (v : value) : option Z :=
  match v with
  | VInt z => Some z
  | VBool b => Some (if b then 1 else 0)%Z
  | _ => None
  end.

Definition as_bool (v : value) : option bool :=
  match v with
  | VBool b => Some b
  | VInt z => Some (negb (z =? 0)%Z)
  | VPtr p => Some (match p with Some _ => true | None => false end)
  | _ => None
  end.

(** The range of [int], and the largest [unsigned int]. *)
Definition INT_MIN : Z := (-2147483648)%Z.
Definition INT_MAX : Z := 2147483647%Z.
Definition UINT_MAX : Z := 4294967295%Z.

Definition representable (z : Z) : bool := (INT_MIN <=? z)%Z && (z <=? INT_MAX)%Z.

(** The result of a signed operation: undefined when it is not in the range
    of [int]. *)
Definition checked (z : Z) : M value :=
  if representable z then ret (VInt z) else fail Undefined.

(** [l + r], [l - r], [l * r] on [int]. *)
Definition int_op (f : Z -> Z -> Z) (l r : value) : M value :=
  x ← lift (as_int l); y ← lift (as_int r); checked (f x y).

(** [l & r], [l | r], [l ^ r]: defined on all of [int]. *)
Definition bit_op (f : Z -> Z -> Z) (l r : value) : M value :=
  x ← lift (as_int l); y ← lift (as_int r); ret (VInt (f x y)).

Definition cmp_op (f : Z -> Z -> bool) (l r : value) : M value :=
  x ← lift (as_int l); y ← lift (as_int r); ret (VBool (f x y)).

Definition bool_op (f : bool -> bool -> bool) (l r : value) : M value :=
  x ← lift (as_bool l); y ← lift (as_bool r); ret (VBool (f x y)).

Definition equal_values (l r : value) : option bool :=
  match l, r with
  | VStr a, VStr b => Some (bool_decide (a = b))
  | VPtr a, VPtr b => Some (bool_decide (a = b))
  | _, _ =>
      match as_int l, as_int r with
      | Some x, Some y => Some (x =? y)%Z
      | _, _ => None
      end
  end.

(** [l / r]: the quotient truncates; a zero divisor is undefined, and so is
    a quotient that is not representable ([INT_MIN / -1]). *)
Definition div_op (l r : value) : M value :=
  x ← lift (as_int l); y ← lift (as_int r);
  if (y =? 0)%Z then fail Undefined else checked (Z.quot x y).

(** The value of an [unsigned int] converted to [int]. *)
Definition to_int (z : Z) : Z :=
  ((z + 2147483648) mod 4294967296 - 2147483648)%Z.

(** [l << r]: undefined for a count that is negative or not less than the
    width, for a negative left operand, and when [l * 2^r] is not
    representable in [unsigned int]; otherwise that value converted to
    [int]. *)
Definition shl_op (l r : value) : M value :=
  x ← lift (as_int l); y ← lift (as_int r);
  if (y <? 0)%Z || (32 <=? y)%Z || (x <? 0)%Z || (UINT_MAX <? x * 2 ^ y)%Z
  then fail Undefined
  else ret (VInt (to_int (x * 2 ^ y))).

(** [l >> r]: undefined for a count that is negative or not less than the
    width; the shift of a negative value is arithmetic. *)
Definition shr_op (l r : value) : M value :=
  x ← lift (as_int l); y ← lift (as_int r);
  if (y <? 0)%Z || (32 <=? y)%Z then fail Undefined
  else ret (VInt (Z.shiftr x y)).

(** [ActionMember], pointer branch: [Q_ASSERT(obj); return obj->*mem;]. *)
Definition member_op (obj : option ObjId) (mem : string) : M value :=
  match obj with
  | None => fail AssertFailed
  | Some _ =>
      o ← deref obj;
      w ← get_world;
      lift (attrs w !! (o, mem))
  end.

(** [ActionInvoke], pointer branch:
    [Q_ASSERT(obj); return (obj->*fn)(std::forward<Args>(args)...);]. *)
Definition invoke_op (obj : option ObjId) (fn : string) (actuals : list value) : M value :=
  match obj with
  | None => fail AssertFailed
  | Some _ =>
      o ← deref obj;
      w ← get_world;
      record (EvMethod o fn actuals);;
      ret (methods w fn o actuals)
  end.

(** [Action{}(operands...)].  The branches of [a ? b : c] have one type, or
    are converted to their common type, which is [int] for [bool] and
    [int]. *)
Definition apply_action (a : Action) (vs : list value) : M value :=
  match a, vs with
  | ActionEmpty, [v] => ret v
  | ActionCond, [a; b; c] =>
      p ← lift (as_bool a);
      if decide (type_of b = type_of c) then ret (if p then b else c)
      else x ← lift (as_int b); y ← lift (as_int c); ret (VInt (if p then x else y))
  | ActionMember, [VPtr obj; VMem mem _] => member_op obj mem
  | ActionInvoke, VPtr obj :: VMemFn fn _ :: actuals => invoke_op obj fn actuals
  | ActionAdd, [l; r] => int_op Z.add l r
  | ActionSub, [l; r] => int_op Z.sub l r
  | ActionMul, [l; r] => int_op Z.mul l r
  | ActionDiv, [l; r] => div_op l r
  | ActionEQ, [l; r] => b ← lift (equal_values l r); ret (VBool b)
  | ActionNE, [l; r] => b ← lift (equal_values l r); ret (VBool (negb b))
  | ActionLT, [l; r] => cmp_op Z.ltb l r
  | ActionLE, [l; r] => cmp_op Z.leb l r
  | ActionGT, [l; r] => cmp_op Z.gtb l r
  | ActionGE, [l; r] => cmp_op Z.geb l r
  | ActionAnd, [l; r] => bool_op andb l r
  | ActionOr, [l; r] => bool_op orb l r
  | ActionBitAnd, [l; r] => bit_op Z.land l r
  | ActionBitOR, [l; r] => bit_op Z.lor l r
  | ActionBitXOR, [l; r] => bit_op Z.lxor l r
  | ActionBitLShift, [l; r] => shl_op l r
  | ActionBitRShift, [l; r] => shr_op l r
  | ActionPlus, [v] => x ← lift (as_int v); ret (VInt x)
  | ActionMinus, [v] => x ← lift (as_int v); checked (- x)%Z
  | ActionNot, [v] => b ← lift (as_bool v); ret (VBool (negb b))
  | ActionBitNot, [v] => x ← lift (as_int v); ret (VInt (Z.lnot x))
  | _, _ => fail IllTyped
  end.

(** ** binding.h: evaluation *)

(** Modelled from the spec: [impl::utils::for_each] of utils.h, which is not
    among the sources.  It applies the function to every element of the
    tuple, left to right, and returns the tuple of the results. *)
Fixpoint for_each {A B} (f : A -> M B) (l : list A) : M (list B) :=
  match l with
  | [] => ret []
  | x :: r => y ← f x; ys ← for_each f r; ret (y :: ys)
  end.

(** The three overloads of [impl::binding::eval], with
    [BindingExpr::eval] inlined for a nested expression. *)
Fixpoint eval_arg (a : arg) : M value :=
  match a with
  | ALit v => ret v
  | AProp p => get p
  | AExpr act l => vs ← for_each eval_arg l; apply_action act vs
  end.

(** [BindingExpr::eval]: [std::apply(Action{}, for_each(eval, args))]. *)
Definition eval (e : BindingExpr) : M value :=
  vs ← for_each eval_arg (args e); apply_action (action e) vs.

(** [is_observable]: [false] for a plain [T], [hasNotifySignal] for a
    [MetaProperty], the fold [(... || is_observable_v<Args>)] for a
    [BindingExpr]. *)
Fixpoint is_observable (a : arg) : bool :=
  match a with
  | ALit _ => false
  | AProp p => hasNotifySignal p
  | AExpr _ l => existsb is_observable l
  end.

(** [BindingExpr::isObservable]. *)
Definition isObservable (e : BindingExpr) : bool := existsb is_observable (args e).

(** ** The part of Qt the headers drive *)

(** The receivers connected to [sig] of [o], to [destroyed] of [o], and the
    functors connected to [mappedInt] of a mapper, in connection order. *)
Definition notify_receiver (o : ObjId) (sig : string) (c : Connection) : option MapperId :=
  match c with
  | ConnNotify o' s' b => if decide (o' = o /\ s' = sig) then Some b else None
  | _ => None
  end.

Definition destroyed_receiver (o : ObjId) (c : Connection) : option MapperId :=
  match c with
  | ConnDestroyed o' b => if decide (o' = o) then Some b else None
  | _ => None
  end.

Definition mapped_functor (b : MapperId) (c : Connection)
    : option (option ObjId * Func * BindingExpr * ConnectionType) :=
  match c with
  | ConnMapped b' rece func expr type =>
      if decide (b' = b) then Some (rece, func, expr, type) else None
  | _ => None
  end.

Definition subscribers (w : World) (o : ObjId) (sig : string) : list MapperId :=
  omap (notify_receiver o sig) (conns w).

Definition watchers (w : World) (o : ObjId) : list MapperId :=
  omap (destroyed_receiver o) (conns w).

Definition functors (w : World) (b : MapperId)
    : list (option ObjId * Func * BindingExpr * ConnectionType) :=
  omap (mapped_functor b) (conns w).

(** [receiver->findChild<QSignalMapper*>(name, Qt::FindDirectChildrenOnly)]:
    the first child of that name.  A child scheduled for deletion is still a
    child. *)
Definition is_child (r : ObjId) (name : string) (m : QSignalMapper) : Prop :=
  parent m = Some r /\ objectName m = name /\ wasDeleted m = false.

Global Instance is_child_dec r name m : Decision (is_child r name m).
Proof. unfold is_child. apply _. Defined.

Definition child_named (w : World) (r : ObjId) (name : string) : option MapperId :=
  fst <$> list_find (is_child r name) (mappers w).

Definition findChild (receiver : ObjId) (name : string) : M (option MapperId) :=
  r ← deref (Some receiver);
  w ← get_world;
  ret (child_named w r name).

(** [new QSignalMapper(parent)]. *)
Definition add_mapper (par : option ObjId) : World -> World :=
  with_mappers (fun l =>
    l ++ [{| parent := par; objectName := ""; intHash := ∅; wasDeleted := false |}]).

Definition new_QSignalMapper (par : option ObjId) : M MapperId :=
  match par with Some _ => (_ ← deref par; ret tt) | None => ret tt end;;
  w ← get_world;
  modify (add_mapper par);;
  ret (length (mappers w)).

Definition rename_mapper (b : MapperId) (name : string) : World -> World :=
  with_mappers (alter (fun m =>
    {| parent := parent m; objectName := name; intHash := intHash m;
       wasDeleted := wasDeleted m |}) b).

Definition setObjectName (b : MapperId) (name : string) : M unit :=
  modify (rename_mapper b name).

(** [binding->setMapping(sender, id)]. *)
Definition map_sender (b : MapperId) (sender : ObjId) (id : Z) : World -> World :=
  with_mappers (alter (fun m =>
    {| parent := parent m; objectName := objectName m;
       intHash := <[sender := id]> (intHash m); wasDeleted := wasDeleted m |}) b).

Definition setMapping (b : MapperId) (sender : ObjId) (id : Z) : M unit :=
  modify (map_sender b sender id).

(** [binding->disconnect()]: [QObject::disconnect] without arguments removes
    every connection of the signals OF the object, that is, those whose
    sender it is. *)
Definition sent_by (b : MapperId) (c : Connection) : bool :=
  match c with
  | ConnMapped b' _ _ _ _ => bool_decide (b' = b)
  | _ => false
  end.

Definition drop_sent_by (b : MapperId) : World -> World :=
  with_conns (filter (fun c => sent_by b c = false)).

Definition disconnect (b : MapperId) : M unit := modify (drop_sent_by b).

(** [QObject::connect(.., Qt::UniqueConnection)]: no second connection of
    the same signal to the same slot. *)
Definition add_destroyed (obj : ObjId) (binding : MapperId) (w : World) : World :=
  if bool_decide (binding ∈ watchers w obj) then w
  else with_conns (fun l => l ++ [ConnDestroyed obj binding]) w.

Definition connect_destroyed (obj : ObjId) (binding : MapperId) : M unit :=
  modify (add_destroyed obj binding).

Definition add_notify (obj : ObjId) (sig : string) (binding : MapperId) (w : World) : World :=
  if bool_decide (binding ∈ subscribers w obj sig) then w
  else with_conns (fun l => l ++ [ConnNotify obj sig binding]) w.

Definition connect_notify (obj : ObjId) (sig : string) (binding : MapperId) : M unit :=
  modify (add_notify obj sig binding).

(** [QObject::connect(binding, &QSignalMapper::mappedInt, binding, functor, type)]. *)
Definition add_mapped (binding : MapperId) (rece : option ObjId) (func : Func)
    (expr : BindingExpr) (type : ConnectionType) : World -> World :=
  with_conns (fun l => l ++ [ConnMapped binding rece func expr type]).

Definition connect_mapped (binding : MapperId) (rece : option ObjId) (func : Func)
    (expr : BindingExpr) (type : ConnectionType) : M unit :=
  modify (add_mapped binding rece func expr type).

(** [binding->deleteLater()]: posts one deferred-delete event; a second
    request for the same object is merged with the first. *)
Definition delete_pending (w : World) (b : MapperId) : bool :=
  existsb (fun e => match e with
                    | DeferredDelete b' => bool_decide (b' = b)
                    | MetaCall _ _ _ _ => false
                    end) (posted w).

Definition post_delete (b : MapperId) (w : World) : World :=
  if delete_pending w b then w
  else with_posted (fun l => l ++ [DeferredDelete b]) w.

Definition deleteLater (b : MapperId) : M unit := modify (post_delete b).

(** ** binding.h: wiring *)

(** [bind1].  The [if constexpr (!MetaProp::hasNotifySignal) return;] has
    no [else]: the statements after it are instantiated for every accessor,
    and [MetaProp::notify()] among them does not compile for an accessor
    without notify signal.  A null [obj] makes the two [connect] calls and
    [setMapping] report a warning and do nothing. *)
Definition bind1 (binding : MapperId) (prop : MetaProperty) : M unit :=
  match mp_notify prop with
  | None => fail IllTyped
  | Some sig =>
      match object prop with
      | None => ret tt
      | Some _ =>
          obj ← deref (object prop);
          connect_destroyed obj binding;;
          connect_notify obj sig binding;;
          setMapping binding obj 0
      end
  end.

(** [bind], with [bind0] inlined for a nested expression. *)
Fixpoint bind (binding : MapperId) (v : arg) : M unit :=
  match v with
  | AExpr _ l => _ ← for_each (bind binding) l; ret tt
  | AProp p => bind1 binding p
  | ALit _ => ret tt
  end.

Definition bind0 (binding : MapperId) (expr : BindingExpr) : M unit :=
  _ ← for_each (bind binding) (args expr); ret tt.

(** The [call] lambda of [bindTo]. *)
Definition invoke_slot (rece : option ObjId) (slot : string) (actual : option value) : M unit :=
  _ ← deref rece; record (EvSlot rece slot actual).

Definition call (rece : option ObjId) (func : Func) (expr : BindingExpr) : M unit :=
  match func with
  | FProperty p => v ← eval expr; set p v
  | FMemFn slot invocable0 invocable1 =>
      if invocable0 then invoke_slot rece slot None
      else if invocable1 then (v ← eval expr; invoke_slot rece slot (Some v))
      else ret tt
  | FCallable f invocable0 invocable1 =>
      if invocable0 then record (EvSlot None f None)
      else if invocable1 then (v ← eval expr; record (EvSlot None f (Some v)))
      else ret tt
  end.

(** The [static_assert] of [bindTo]: "Invalid slot". *)
Definition valid_slot (func : Func) : bool :=
  match func with
  | FProperty _ => true
  | FMemFn _ i0 i1 => i0 || i1
  | FCallable _ i0 i1 => i0 || i1
  end.

(** Whether [impl::binding::bind] can be instantiated for an operand: for
    an accessor [bind1] must compile, for an expression [bind] of every
    operand. *)
Fixpoint bind_instantiates (v : arg) : bool :=
  match v with
  | AExpr _ l => forallb bind_instantiates l
  | AProp p => hasNotifySignal p
  | ALit _ => true
  end.

(** The private [bindTo(receiver, func, type, name)].  Its body names
    [impl::binding::bind(binding, *this)] whatever path is taken at run
    time: an expression for which [bind] cannot be instantiated is rejected
    like an invalid slot. *)
Definition bindTo_impl (receiver : option ObjId) (func : Func) (type : ConnectionType)
    (name : string) (this : BindingExpr) : M unit :=
  if negb (valid_slot func) then fail IllTyped
  else if negb (forallb bind_instantiates (args this)) then fail IllTyped
  else
    found ← match receiver with
            | Some r => findChild r name
            | None => ret None
            end;
    let wire (binding : MapperId) : M unit :=
      bind0 binding this;;
      connect_mapped binding receiver func this type;;
      call receiver func this in
    match found with
    | Some binding =>
        if isObservable this then disconnect binding;; wire binding
        else call receiver func this;; deleteLater binding
    | None =>
        binding ← new_QSignalMapper receiver;
        setObjectName binding name;;
        wire binding
    end.

(** ** binding.h: which [bindTo] a call selects

    [BindingExpr] declares four function templates of the name [bindTo],
    three public ones and the private one that does the work.  A call is
    resolved among the four; access is checked afterwards, on the one
    selected.  The model keeps of the types what the four declarations tell
    apart. *)

(** The type of an argument of a call. *)
Inductive ArgKind :=
  | AnAccessor        (* a MetaProperty<...> *)
  | ANullptr          (* the literal nullptr, of type std::nullptr_t *)
  | APointer          (* a pointer T* *)
  | ACallable         (* a lambda, a function object, a pointer to member *)
  | AConnectionType   (* a Qt::ConnectionType *)
  | AQString.         (* a QString *)

(** The type of a parameter of a declaration. *)
Inductive ParamKind :=
  | PAccessor         (* MetaProperty<T...> *)
  | PFunc             (* Func, a template parameter taken by value *)
  | PClassPtr         (* Class*, Class a template parameter *)
  | PConnectionType   (* Qt::ConnectionType *)
  | PQString.         (* const QString& *)

Global Instance ParamKind_eq_dec : EqDecision ParamKind.
Proof. solve_decision. Defined.

(** A declaration: its parameters, how many of them have no default
    argument, and its access. *)
Record Overload := {
  ov_params : list ParamKind;
  ov_required : nat;
  ov_private : bool
}.

Global Instance Overload_eq_dec : EqDecision Overload.
Proof. solve_decision. Defined.

(** [bindTo(MetaProperty<T...> prop, Qt::ConnectionType type = Qt::AutoConnection)] *)
Definition bindTo_of_accessor : Overload :=
  {| ov_params := [PAccessor; PConnectionType]; ov_required := 1; ov_private := false |}.

(** [bindTo(Func func)] *)
Definition bindTo_of_callable : Overload :=
  {| ov_params := [PFunc]; ov_required := 1; ov_private := false |}.

(** [bindTo(Class* receiver, Func func, Qt::ConnectionType type = Qt::AutoConnection)] *)
Definition bindTo_of_receiver : Overload :=
  {| ov_params := [PClassPtr; PFunc; PConnectionType]; ov_required := 2;
     ov_private := false |}.

(** [bindTo(Class* receiver, Func func, Qt::ConnectionType type = Qt::AutoConnection,
            const QString& name = {})], private *)
Definition bindTo_private : Overload :=
  {| ov_params := [PClassPtr; PFunc; PConnectionType; PQString]; ov_required := 2;
     ov_private := true |}.

Definition bindTo_overloads : list Overload :=
  [bindTo_of_accessor; bindTo_of_callable; bindTo_of_receiver; bindTo_private].

(** Template argument deduction for one parameter: [Func] deduces from any
    argument, [MetaProperty<T...>] from an accessor, [Class*] from a
    pointer and not from [nullptr]; the two other parameters take their own
    type. *)
Definition accepts (p : ParamKind) (a : ArgKind) : bool :=
  match p, a with
  | PFunc, _ => true
  | PAccessor, AnAccessor => true
  | PClassPtr, APointer => true
  | PConnectionType, AConnectionType => true
  | PQString, AQString => true
  | _, _ => false
  end.

Fixpoint accepts_all (ps : list ParamKind) (actuals : list ArgKind) : bool :=
  match actuals, ps with
  | [], _ => true
  | a :: actuals', p :: ps' => accepts p a && accepts_all ps' actuals'
  | _ :: _, [] => false
  end.

(** A declaration is viable for a call when the arguments reach the
    parameters without default and every argument is accepted. *)
Definition viable (o : Overload) (actuals : list ArgKind) : bool :=
  (ov_required o <=? length actuals)%nat && accepts_all (ov_params o) actuals.

(** Every accepted argument is an exact match, so that the viable templates
    are ranked by partial ordering alone, over the parameters that have an
    argument: a parameter is at least as specialized as another one when
    the other one deduces from it. *)
Definition param_at_least_as_specialized (p q : ParamKind) : bool :=
  match q with
  | PFunc => true
  | _ => bool_decide (p = q)
  end.

Fixpoint params_at_least_as_specialized (n : nat) (ps qs : list ParamKind) : bool :=
  match n, ps, qs with
  | O, _, _ => true
  | S n', p :: ps', q :: qs' =>
      param_at_least_as_specialized p q && params_at_least_as_specialized n' ps' qs'
  | S _, _, _ => false
  end.

Definition more_specialized (n : nat) (o1 o2 : Overload) : bool :=
  params_at_least_as_specialized n (ov_params o1) (ov_params o2)
  && negb (params_at_least_as_specialized n (ov_params o2) (ov_params o1)).

Inductive Resolution :=
  | NoMatch
  | Ambiguous
  | Selected (o : Overload).

(** The declaration selected: the viable one that is more specialized than
    every other viable one. *)
Definition resolve (actuals : list ArgKind) : Resolution :=
  let candidates := List.filter (fun o => viable o actuals) bindTo_overloads in
  let best (o : Overload) : bool :=
    forallb (fun o' => bool_decide (o' = o) || more_specialized (length actuals) o o')
            candidates in
  match candidates with
  | [] => NoMatch
  | _ => match List.filter best candidates with
         | [o] => Selected o
         | _ => Ambiguous
         end
  end.

(** The getter of the accessor [p] can be called in the state [w]: the
    accessor has one, its object is alive and holds a value for it. *)
Definition gettable (w : World) (p : MetaProperty) : Prop :=
  isReadable p = true /\
  exists o x, mp_o p = Some o /\ (o ∉ dead w) /\ attrs w !! (o, mp_name p) = Some x.

(** The kind of a target as an argument. *)
Definition func_kind (func : Func) : ArgKind :=
  match func with
  | FProperty _ => AnAccessor
  | FMemFn _ _ _ | FCallable _ _ _ => ACallable
  end.

(** [bindTo(MetaProperty<T...> prop, Qt::ConnectionType type)]: the call in
    its body has four arguments and selects the private [bindTo]. *)
Definition bindTo (prop : MetaProperty) (type : ConnectionType) (this : BindingExpr) : M unit :=
  bindTo_impl (object prop) (FProperty prop) type (bindingName prop) this.

(** [bindTo(Func func)]; [pretty] stands for the [__PRETTY_FUNCTION__] (or
    [__FUNCSIG__]) of the instantiation.  Its body is the call
    [bindTo(nullptr, func, Qt::DirectConnection, bindingName)]. *)
Definition bindTo_func (func : Func) (pretty : string) (this : BindingExpr) : M unit :=
  match resolve [ANullptr; func_kind func; AConnectionType; AQString] with
  | Selected _ =>
      bindTo_impl None func DirectConnection ("nwidget_binding_to_func::" +:+ pretty) this
  | NoMatch | Ambiguous => fail IllTyped
  end.

(** A call [expr.bindTo(receiver, func, type)] from outside the class.  The
    body of [bindTo(Class* receiver, Func func, Qt::ConnectionType type)]
    hands on [Qt::DirectConnection], whatever [type]. *)
Definition bindTo_slot (receiver : option ObjId) (func : Func) (type : ConnectionType)
    (pretty : string) (this : BindingExpr) : M unit :=
  match resolve [APointer; func_kind func; AConnectionType] with
  | Selected o =>
      if decide (o = bindTo_of_receiver)
      then bindTo_impl receiver func DirectConnection
             ("nwidget_binding_to_func::" +:+ pretty) this
      else fail IllTyped
  | NoMatch | Ambiguous => fail IllTyped
  end.

(** ** Signals at run time *)

(** One connection of [mappedInt]: a queued connection posts the call, any
    other type runs the functor [[call, expr = *this]() { call(expr); }] at
    once (sender and receiver live in the one thread). *)
Definition deliver_mapped (b : MapperId)
    (f : option ObjId * Func * BindingExpr * ConnectionType) : M unit :=
  let '(rece, func, expr, type) := f in
  match type with
  | QueuedConnection => modify (with_posted (fun l => l ++ [MetaCall b rece func expr]))
  | AutoConnection | DirectConnection => call rece func expr
  end.

Definition emit_mappedInt (b : MapperId) : M unit :=
  w ← get_world;
  _ ← for_each (deliver_mapped b) (functors w b);
  ret tt.

(** The slot [QSignalMapper::map()]: [mappedInt(id)] is emitted when
    [sender()] has a mapping. *)
Definition QSignalMapper_map (b : MapperId) (sender : ObjId) : M unit :=
  w ← get_world;
  match mappers w !! b with
  | Some m =>
      if wasDeleted m then ret tt
      else match intHash m !! sender with
           | Some _ => emit_mappedInt b
           | None => ret tt
           end
  | None => ret tt
  end.

(** The object [obj] emits its signal [sig]: the connected slots run in
    connection order. *)
Definition emit_notify (obj : ObjId) (sig : string) : M unit :=
  _ ← deref (Some obj);
  w ← get_world;
  _ ← for_each (fun b => QSignalMapper_map b obj) (subscribers w obj sig);
  ret tt.

(** ** Destruction *)

Definition involves (b : MapperId) (c : Connection) : bool :=
  match c with
  | ConnDestroyed _ b' => bool_decide (b' = b)
  | ConnNotify _ _ b' => bool_decide (b' = b)
  | ConnMapped b' _ _ _ _ => bool_decide (b' = b)
  end.

Definition posted_to (b : MapperId) (e : PostedEvent) : bool :=
  match e with
  | DeferredDelete b' => bool_decide (b' = b)
  | MetaCall b' _ _ _ => bool_decide (b' = b)
  end.

(** [delete binding]: the object is gone, with its connections (as sender
    and as receiver) and the events posted to it. *)
Definition destroy_mapper (b : MapperId) (w : World) : World :=
  with_mappers (alter (fun m =>
      {| parent := parent m; objectName := objectName m; intHash := intHash m;
         wasDeleted := true |}) b)
    (with_conns (filter (fun c => involves b c = false))
      (with_posted (filter (fun e => posted_to b e = false)) w)).

Definition sent_by_object (o : ObjId) (c : Connection) : bool :=
  match c with
  | ConnDestroyed o' _ => bool_decide (o' = o)
  | ConnNotify o' _ _ => bool_decide (o' = o)
  | ConnMapped _ _ _ _ _ => false
  end.

(** The mappers that are children of [o]. *)
Definition children (w : World) (o : ObjId) : list MapperId :=
  omap (fun '(i, m) =>
          if decide (parent m = Some o /\ wasDeleted m = false) then Some i else None)
       (imap (fun i m => (i, m)) (mappers w)).

(** The application deletes the object [o].  The destructor emits
    [destroyed], every mapper forgets its mapping for the sender, the
    connections of the object go away, and its children are deleted. *)
Definition unmap_sender (o : ObjId) (m : QSignalMapper) : QSignalMapper :=
  {| parent := parent m; objectName := objectName m;
     intHash := delete o (intHash m); wasDeleted := wasDeleted m |}.

Definition drop_object_wiring (o : ObjId) (w : World) : World :=
  with_conns (filter (fun c => sent_by_object o c = false))
    (with_mappers (fmap (unmap_sender o)) w).

Definition delete_children (o : ObjId) (w : World) : World :=
  foldr destroy_mapper w (children w o).

Definition destroy_object (o : ObjId) : M unit :=
  _ ← deref (Some o);
  w ← get_world;
  _ ← for_each deleteLater (watchers w o);
  modify (drop_object_wiring o);;
  modify (delete_children o);;
  modify (with_dead (fun d => {[o]} ∪ d)).

(** ** The event loop *)

Definition deliver_posted (e : PostedEvent) : M unit :=
  match e with
  | DeferredDelete b => modify (destroy_mapper b)
  | MetaCall b rece func expr =>
      w ← get_world;
      match mappers w !! b with
      | Some m => if wasDeleted m then ret tt else call rece func expr
      | None => ret tt
      end
  end.

(** One round of the event loop: the events posted so far are delivered in
    order. *)
Definition processEvents : M unit :=
  w ← get_world;
  modify (with_posted (fun _ => []));;
  _ ← for_each deliver_posted (posted w);
  ret tt.

(** ** metaobject.h: the operators of the accessor *)

(** [MetaProperty& operator=(const Type& val) { set(val); return *this; }] *)
Definition operator_assign_value (this : MetaProperty) (val : value) : M unit :=
  set this val.

(** [void operator=(MetaProperty<Ts...> prop) const
       { makeBindingExpr(prop).bindTo( *this ); }] *)
Definition operator_assign_property (this prop : MetaProperty) : M unit :=
  bindTo this AutoConnection (makeBindingExpr ActionEmpty [AProp prop]).

(** [void operator=(const BindingExpr<Ts...>& expr) const { expr.bindTo( *this ); }] *)
Definition operator_assign_expr (this : MetaProperty) (expr : BindingExpr) : M unit :=
  bindTo this AutoConnection expr.

(** [void bindTo(MetaProperty<Ts...> prop) const
       { makeBindingExpr( *this ).bindTo(prop); }] *)
Definition MetaProperty_bindTo (this prop : MetaProperty) : M unit :=
  bindTo prop AutoConnection (makeBindingExpr ActionEmpty [AProp this]).

(** [++v] and [--v] on a variable [v] of type [T]: defined for [int], with
    overflow undefined. *)
Definition incr (v : value) : M value :=
  match v with VInt z => checked (z + 1)%Z | _ => fail IllTyped end.
Definition decr (v : value) : M value :=
  match v with VInt z => checked (z - 1)%Z | _ => fail IllTyped end.

(** [++get()] and [--get()]: the operand is the prvalue that [get()]
    returns.  The built-in operators need an lvalue, and none of the types
    of this development is a class with an [operator++] or [operator--]
    that could be called on a temporary: the expression is rejected for
    every one of them. *)
Definition incr_prvalue (t : value) : M value := fail IllTyped.
Definition decr_prvalue (t : value) : M value := fail IllTyped.

(** [auto operator++() { T v = get(); set(++v); return v; }] *)
Definition operator_pre_incr (this : MetaProperty) : M value :=
  v ← get this; v' ← incr v; set this v';; ret v'.

(** [auto operator++(int) { const T v = get(); set(++get()); return v; }]
    The operand of [++] is the temporary returned by a second [get()]. *)
Definition operator_post_incr (this : MetaProperty) : M value :=
  v ← get this; t ← get this; t' ← incr_prvalue t; set this t';; ret v.

(** [auto operator--() { T v = get(); set(--v); return v; }] *)
Definition operator_pre_decr (this : MetaProperty) : M value :=
  v ← get this; v' ← decr v; set this v';; ret v'.

(** [auto operator--(int) { const T v = get(); set(--get()); return v; }] *)
Definition operator_post_decr (this : MetaProperty) : M value :=
  v ← get this; t ← get this; t' ← decr_prvalue t; set this t';; ret v.

(** [x % y]: a zero divisor is undefined, and so is the remainder when the
    quotient is not representable. *)
Definition rem_op (l r : value) : M value :=
  x ← lift (as_int l); y ← lift (as_int r);
  if (y =? 0)%Z || negb (representable (Z.quot x y)) then fail Undefined
  else ret (VInt (Z.rem x y)).

(** The compound assignments, [void operator@=(const T& v) { set(get() @ v); }]. *)
Inductive CompoundOp :=
  | AddAssign | SubAssign | MulAssign | DivAssign | RemAssign
  | XorAssign | AndAssign | OrAssign | ShlAssign | ShrAssign.

Definition native (op : CompoundOp) : value -> value -> M value :=
  match op with
  | AddAssign => int_op Z.add
  | SubAssign => int_op Z.sub
  | MulAssign => int_op Z.mul
  | DivAssign => div_op
  | RemAssign => rem_op
  | XorAssign => bit_op Z.lxor
  | AndAssign => bit_op Z.land
  | OrAssign => bit_op Z.lor
  | ShlAssign => shl_op
  | ShrAssign => shr_op
  end.

Definition operator_compound (op : CompoundOp) (this : MetaProperty) (v : value) : M unit :=
  x ← get this; r ← native op x v; set this r.

(** ** Overload resolution of [lhs = rhs] on an accessor

    Besides the three [operator=] written in the class, [MetaProperty] has
    the copy and move assignment operators the language declares implicitly:
    the class declares none itself ([operator=(const Type&)] takes the value
    type, and a member template is never a copy assignment operator).  For a
    right-hand side of the very type of the left-hand side they are exact
    matches that are no templates and take a non-const object: they win over
    the [const] member template of line 137.  The accessors returned by one
    [N_PROPERTY] method for different objects have one and the same type. *)

Inductive Rhs :=
  | RhsValue (v : value)
  | RhsProperty (q : MetaProperty)
  | RhsExpr (e : BindingExpr).

Inductive AssignOverload :=
  | ImplicitAssign     (* MetaProperty& operator=(MetaProperty&&), implicit *)
  | AssignValue        (* MetaProperty& operator=(const Type&) *)
  | AssignProperty     (* void operator=(MetaProperty<Ts...>) const *)
  | AssignExpr.        (* void operator=(const BindingExpr<Ts...>&) const *)

(** Two accessors are of the same specialization of [MetaProperty] when they
    agree on all template arguments, that is, on all but the pointer [o]. *)
Definition same_accessor_type (p q : MetaProperty) : bool :=
  bool_decide (mp_class p = mp_class q /\ mp_name p = mp_name q /\
               mp_type p = mp_type q /\ isReadable p = isReadable q /\
               isWritable p = isWritable q /\ mp_notify p = mp_notify q /\
               isResettable p = isResettable q).

(** The operator selected for a non-const left operand, as [obj.prop()]
    returns it.  For accessors of two different types the member template is
    taken (as g++ does; where the value types convert, [operator=(const
    Type&)] through [operator T()] competes with it). *)
Definition assignment_overload (this : MetaProperty) (rhs : Rhs) : AssignOverload :=
  match rhs with
  | RhsValue _ => AssignValue
  | RhsExpr _ => AssignExpr
  | RhsProperty q => if same_accessor_type this q then ImplicitAssign else AssignProperty
  end.

(** [this = rhs].  The implicit assignment overwrites the member [o] of the
    left operand, a temporary: nothing else happens. *)
Definition operator_assign (this : MetaProperty) (rhs : Rhs) : M unit :=
  match rhs with
  | RhsValue v => operator_assign_value this v
  | RhsExpr e => operator_assign_expr this e
  | RhsProperty q =>
      match assignment_overload this rhs with
      | ImplicitAssign => ret tt
      | _ => operator_assign_property this q
      end
  end.

(** ** Leaves of an expression *)

Fixpoint leaves (a : arg) : list MetaProperty :=
  match a with
  | ALit _ => []
  | AProp p => [p]
  | AExpr _ l => flat_map leaves l
  end.

Definition leaf_props (e : BindingExpr) : list MetaProperty := flat_map leaves (args e).

(** The getter call made for a leaf, and the getter calls of a log. *)
Definition getter_call (p : MetaProperty) : list Event :=
  match mp_o p with Some o => [EvGet o (mp_name p)] | None => [] end.

Definition is_get (e : Event) : bool :=
  match e with EvGet _ _ => true | _ => false end.

Definition getter_calls (evs : list Event) : list Event := filter is_get evs.

(** ** Well-typed expressions

    What the C++ type checker accepts, over the value universe: the operand
    types fit the action, an accessor is readable and bound to an object
    whose attribute holds a value of the property type.  The base of
    [ActionMember] and [ActionInvoke] is a pointer held in the expression. *)

Definition numeric (t : ty) : bool :=
  match t with TInt | TBool => true | _ => false end.

Definition boolish (t : ty) : bool :=
  match t with TInt | TBool | TPtr => true | _ => false end.

Definition comparable (l r : ty) : bool :=
  match l, r with
  | TStr, TStr | TPtr, TPtr => true
  | _, _ => numeric l && numeric r
  end.

Definition action_type (a : Action) (ts : list ty) : option ty :=
  match a, ts with
  | ActionEmpty, [t] => Some t
  | ActionCond, [c; x; y] =>
      if boolish c then
        if bool_decide (x = y) then Some x
        else if numeric x && numeric y then Some TInt else None
      else None
  | (ActionAdd | ActionSub | ActionMul | ActionDiv | ActionBitAnd | ActionBitOR
     | ActionBitXOR | ActionBitLShift | ActionBitRShift), [l; r] =>
      if numeric l && numeric r then Some TInt else None
  | (ActionLT | ActionLE | ActionGT | ActionGE), [l; r] =>
      if numeric l && numeric r then Some TBool else None
  | (ActionEQ | ActionNE), [l; r] =>
      if comparable l r then Some TBool else None
  | (ActionAnd | ActionOr), [l; r] =>
      if boolish l && boolish r then Some TBool else None
  | (ActionPlus | ActionMinus | ActionBitNot), [v] =>
      if numeric v then Some TInt else None
  | ActionNot, [v] => if boolish v then Some TBool else None
  | _, _ => None
  end.

(** [P] holds of the elements of two lists of one length, pairwise. *)
Fixpoint pairwise {A B} (P : A -> B -> Prop) (l : list A) (ts : list B) : Prop :=
  match l, ts with
  | [], [] => True
  | x :: l', t' :: ts' => P x t' /\ pairwise P l' ts'
  | _, _ => False
  end.

Section Typing.
Variable store : gmap (ObjId * string) value.
Variable mth : string -> ObjId -> list value -> value.

Fixpoint well_typed (a : arg) (t : ty) : Prop :=
  match a with
  | ALit v => type_of v = t
  | AProp p =>
      isReadable p = true /\ mp_type p = t /\
      exists o v, mp_o p = Some o /\ store !! (o, mp_name p) = Some v /\ type_of v = t
  | AExpr ActionMember l =>
      match l with
      | [ALit (VPtr obj); ALit (VMem mem t')] =>
          t' = t /\
          forall o, obj = Some o -> exists v, store !! (o, mem) = Some v /\ type_of v = t
      | _ => False
      end
  | AExpr ActionInvoke l =>
      match l with
      | ALit (VPtr obj) :: ALit (VMemFn fn ret) :: actuals =>
          ret = t /\ (exists ts, pairwise well_typed actuals ts) /\
          forall o acts, type_of (mth fn o acts) = ret
      | _ => False
      end
  | AExpr act l => exists ts, pairwise well_typed l ts /\ action_type act ts = Some t
  end.

Definition well_typed_expr (e : BindingExpr) (t : ty) : Prop :=
  well_typed (AExpr (action e) (args e)) t.
End Typing.



(** ** A small application, for the examples

    Three sliders with an observable [value], a label with a [text], and an
    object with a [level] that has no notify signal. *)

Definition slider (o : ObjId) : MetaProperty :=
  {| mp_o := Some o; mp_class := "QSlider"; mp_name := "value"; mp_type := TInt;
     isReadable := true; isWritable := true; mp_notify := Some "valueChanged";
     isResettable := false |}.

Definition label_text (o : ObjId) : MetaProperty :=
  {| mp_o := Some o; mp_class := "QLabel"; mp_name := "text"; mp_type := TStr;
     isReadable := true; isWritable := true; mp_notify := None;
     isResettable := false |}.

Definition gauge_level (o : ObjId) : MetaProperty :=
  {| mp_o := Some o; mp_class := "Gauge"; mp_name := "level"; mp_type := TInt;
     isReadable := true; isWritable := true; mp_notify := None;
     isResettable := false |}.

(** Sliders 1, 2 and 3 at 2, 3 and 0; label 4; gauge 5 at 7. *)
Definition app : World :=
  {| attrs := {[ (1%nat, "value") := VInt 2; (2%nat, "value") := VInt 3;
                 (3%nat, "value") := VInt 0; (4%nat, "text") := VStr "";
                 (5%nat, "level") := VInt 7 ]};
     methods := fun _ _ _ => VInt 0;
     dead := ∅; mappers := []; conns := []; posted := []; log := [] |}.

(** [slider1.value() + slider2.value()] and friends. *)
Definition sum12 : BindingExpr :=
  makeBindingExpr ActionAdd [AProp (slider 1); AProp (slider 2)].
Definition diff12 : BindingExpr :=
  makeBindingExpr ActionSub [AProp (slider 1); AProp (slider 2)].
Definition level5 : BindingExpr :=
  makeBindingExpr ActionEmpty [AProp (gauge_level 5)].
(** An expression of literals: [makeBindingExpr(7)]. *)
Definition seven : BindingExpr :=
  makeBindingExpr ActionEmpty [ALit (VInt 7)].

(** What the examples look at: the state of a run, or nothing after a fault. *)
Definition outcome {A} (r : Res A) : option World :=
  match r with Ok _ w => Some w | Err _ => None end.

(** ** Notions used in the proofs *)

(** A computation that only appends to the log, and no getter call. *)
Definition quiet {A} (m : M A) : Prop :=
  forall w a w', m w = Ok a w' -> exists evs, w' = logged evs w /\ getter_calls evs = [].

(** A result of type [t] that only appended to the log, or one of the two
    faults left to a well-typed expression, and these only when not [strict]. *)
Definition sound (t : ty) (w : World) (strict : bool) (r : Res value) : Prop :=
  match r with
  | Ok v w' => type_of v = t /\ exists evs, w' = logged evs w
  | Err Undefined | Err AssertFailed => strict = false
  | Err _ => False
  end.

(** The state with the mappers, connections and posted events replaced. *)
Definition rewire (ms : list QSignalMapper) (cs : list Connection)
    (ps : list PostedEvent) (w : World) : World :=
  {| attrs := attrs w; methods := methods w; dead := dead w;
     mappers := ms; conns := cs; posted := ps; log := log w |}.

Definition lift_res {A} (f : World -> World) (r : Res A) : Res A :=
  match r with Ok a w => Ok a (f w) | Err e => Err e end.

(** A computation that neither looks at nor touches mappers, connections
    and posted events. *)
Definition oblivious {A} (m : M A) : Prop :=
  forall ms cs ps w, m (rewire ms cs ps w) = lift_res (rewire ms cs ps) (m w).

(** The state [w2] has the attributes and methods of [w], and every object
    that is gone in [w] is gone in [w2]. *)
Definition later_state (w w2 : World) : Prop :=
  attrs w2 = attrs w /\ methods w2 = methods w /\ dead w ⊆ dead w2.

(** A computation that only appends to the log and that, in a later state,
    does the same or runs into an object that is gone. *)
Definition mortal {A} (m : M A) : Prop :=
  forall w a w', m w = Ok a w' ->
    exists evs, w' = logged evs w /\
      forall w2, later_state w w2 ->
        m w2 = Err Dangling \/ m w2 = Ok a (logged evs w2).

(** The effect of [bind1] and of [bind] on the state. *)
Definition wire1 (b : MapperId) (o : ObjId) (sig : string) (w : World) : World :=
  map_sender b o 0 (add_notify o sig b (add_destroyed o b w)).

Definition wire_prop (b : MapperId) (w : World) (p : MetaProperty) : World :=
  match mp_notify p, mp_o p with
  | Some sig, Some o => wire1 b o sig w
  | _, _ => w
  end.

Definition wire_leaves (b : MapperId) (ps : list MetaProperty) (w : World) : World :=
  foldl (wire_prop b) w ps.

(** The observable leaves are bound to objects that are alive. *)
Definition leaf_alive (w : World) (p : MetaProperty) : bool :=
  match mp_notify p, mp_o p with
  | Some _, Some o => bool_decide (o ∉ dead w)
  | _, _ => true
  end.

Definition leaves_alive (w : World) (ps : list MetaProperty) : bool :=
  forallb (leaf_alive w) ps.

Definition bind_all (b : MapperId) (ps : list MetaProperty) : M unit :=
  fun w => if leaves_alive w ps then Ok tt (wire_leaves b ps w) else Err Dangling.

(** The state in which [bindTo] runs [call] after wiring the mapper [b]. *)
Definition wired (receiver : option ObjId) (func : Func) (type : ConnectionType)
    (e : BindingExpr) (b : MapperId) (w : World) : World :=
  add_mapped b receiver func e type (wire_leaves b (leaf_props e) w).

Definition existing_fan_in (w : World) (receiver : option ObjId) (name : string)
    : option MapperId :=
  match receiver with
  | Some r => child_named w r name
  | None => None
  end.

Definition receiver_gone (w : World) (receiver : option ObjId) : bool :=
  match receiver with
  | Some r => bool_decide (r ∈ dead w)
  | None => false
  end.


(** Two states with the same objects, attribute values and log. *)
Definition same_objects (w w1 : World) : Prop :=
  attrs w1 = attrs w /\ methods w1 = methods w /\ dead w1 = dead w /\ log w1 = log w.

(** ** Invariants of the wiring *)

Definition conn_binding (c : Connection) : MapperId :=
  match c with
  | ConnDestroyed _ b => b
  | ConnNotify _ _ b => b
  | ConnMapped b _ _ _ _ => b
  end.

(** Every connection is with a mapper that exists; no signal is connected
    twice to the [map] slot of one mapper; the children of one receiver have
    different names; a mapper has at most one functor on [mappedInt]. *)
Record World_ok (w : World) : Prop := {
  ok_range : forall c, c ∈ conns w -> (conn_binding c < length (mappers w))%nat;
  ok_unique : forall o sig, NoDup (subscribers w o sig);
  ok_names : forall r n b1 b2 m1 m2,
    mappers w !! b1 = Some m1 -> mappers w !! b2 = Some m2 ->
    is_child r n m1 -> is_child r n m2 -> b1 = b2;
  ok_functor : forall b, (length (functors w b) <= 1)%nat
}.

(** A mapper after some wiring: same parent, name and life, and at least
    the mappings it had. *)
Definition extends (m m' : QSignalMapper) : Prop :=
  parent m' = parent m /\ objectName m' = objectName m /\
  wasDeleted m' = wasDeleted m /\
  forall o : ObjId, is_Some (intHash m !! o) -> is_Some (intHash m' !! o).

(** The application after [slider3.value() = slider1.value() + slider2.value()]. *)
Definition bound_app : World :=
  match operator_assign_expr (slider 3) sum12 app with
  | Ok _ w => w
  | Err _ => app
  end.


(** The mapper [new QSignalMapper(receiver)] named by [setObjectName]. *)
Definition fresh_mapper (receiver : option ObjId) (name : string) : QSignalMapper :=
  {| parent := receiver; objectName := name; intHash := ∅; wasDeleted := false |}.

(** [slider3.value()] bound to the sum and then to the difference. *)
Definition rebound_app : World :=
  match operator_assign_expr (slider 3) diff12 bound_app with
  | Ok _ w => w
  | Err _ => app
  end.

(** [slider3.value()] bound to the sum and then to slider 2 alone. *)
Definition only2 : BindingExpr := makeBindingExpr ActionEmpty [AProp (slider 2)].

Definition narrowed_app : World :=
  match operator_assign_expr (slider 3) only2 bound_app with
  | Ok _ w => w
  | Err _ => app
  end.

(** The mapper [b] has been deleted: it is marked so and no connection is
    left with it. *)
Definition deleted (w : World) (b : MapperId) : Prop :=
  (exists m, mappers w !! b = Some m /\ wasDeleted m = true) /\
  forall c, c ∈ conns w -> conn_binding c <> b.

(** A deferred-delete event for [b] is among the events. *)
Definition delete_among (evs : list PostedEvent) (b : MapperId) : bool :=
  existsb (fun e => match e with
                    | DeferredDelete b' => bool_decide (b' = b)
                    | MetaCall _ _ _ _ => false
                    end) evs.


(** ** metaobject.h: the object wrapper and its property methods *)

(** [MetaObject<Class>] and its one data member [Class* o]. *)
Record MetaObject := { mo_class : string; mo_o : option ObjId }.

(** [MetaObject() { Q_ASSERT(false); }] *)
Definition MetaObject_default (cls : string) : M MetaObject := fail AssertFailed.

(** [MetaObject(Class* obj) : o(obj) { Q_ASSERT(o); }]; with a super class
    the member is the one of [Super(obj)], which makes the same assertion. *)
Definition MetaObject_ctor (cls : string) (obj : option ObjId) : M MetaObject :=
  match obj with
  | None => fail AssertFailed
  | Some _ => ret {| mo_class := cls; mo_o := obj |}
  end.

(** [MetaObject<>::from(obj)]: [return MetaObject<Class>(obj);]. *)
Definition from (cls : string) (obj : option ObjId) : M MetaObject :=
  MetaObject_ctor cls obj.

(** [Class* object() const] of N_OBJECT. *)
Definition MetaObject_object (this : MetaObject) : option ObjId := mo_o this.

(** The method [NAME()] that N_PROPERTY declares:
    [return MetaProperty<Class, Info, Type, Getter, Setter, Notify, Reset>
              {static_cast<Class*>(this->o)};]
    with the template arguments held by [descr]. *)
Definition N_PROPERTY (descr : MetaProperty) (this : MetaObject) : M MetaProperty :=
  MetaProperty_ctor descr (mo_o this).

(** ** binding.h: the helpers [member] and [invoke] *)

(** [member(Mem(Class::* mem))]: [makeBindingExpr<ActionMember>(mem)], an
    expression whose one operand is the pointer to member. *)
Definition member (mem : string) (t : ty) : BindingExpr :=
  makeBindingExpr ActionMember [ALit (VMem mem t)].

(** [invoke(fn, args...)]: [makeBindingExpr<ActionInvoke>(fn, args...)], an
    expression whose first operand is the pointer to member function. *)
Definition invoke (fn : string) (ret : ty) (actuals : list arg) : BindingExpr :=
  makeBindingExpr ActionInvoke (ALit (VMemFn fn ret) :: actuals).

(** ** Runs of an application *)

(** What an application does with the two headers and with its objects, one
    step at a time: a call of the private [bindTo] (which every public
    [bindTo] and the binding assignments come down to), a write of a
    property, the emission of a notify signal, the deletion of an object,
    and one round of the event loop. *)
Inductive Step :=
  | DoBind (receiver : option ObjId) (func : Func) (type : ConnectionType)
           (name : string) (expr : BindingExpr)
  | DoSet (p : MetaProperty) (val : value)
  | DoEmit (obj : ObjId) (sig : string)
  | DoDelete (obj : ObjId)
  | DoProcessEvents.

Definition step (s : Step) : M unit :=
  match s with
  | DoBind receiver func type name expr => bindTo_impl receiver func type name expr
  | DoSet p val => set p val
  | DoEmit obj sig => emit_notify obj sig
  | DoDelete obj => destroy_object obj
  | DoProcessEvents => processEvents
  end.

Fixpoint run (l : list Step) : M unit :=
  match l with
  | [] => ret tt
  | s :: r => step s;; run r
  end.

(** [slider3.value()] bound to the sum, then to a constant: the mapper of
    the slot is scheduled for deletion. *)
Definition pending_app : World :=
  match bindTo (slider 3) AutoConnection seven bound_app with
  | Ok _ w => w
  | Err _ => app
  end.

(** ... and then to the sum again, before the event loop has run. *)
Definition rebound_pending_app : World :=
  match bindTo (slider 3) AutoConnection sum12 pending_app with
  | Ok _ w => w
  | Err _ => app
  end.

(** The gauge made to follow slider 1: [slider1.value().bindTo(gauge.level())]. *)
Definition following_app : World :=
  match MetaProperty_bindTo (slider 1) (gauge_level 5) app with
  | Ok _ w => w
  | Err _ => app
  end.

(** The mapper [b] is wired to the signal [sig] of the object [o]: it
    watches the destruction of [o], is subscribed to the signal, and maps
    the sender [o] to 0. *)
Definition settled (b : MapperId) (o : ObjId) (sig : string) (w : World) : Prop :=
  b ∈ watchers w o /\ b ∈ subscribers w o sig /\
  forall m, mappers w !! b = Some m -> intHash m !! o = Some 0%Z.

(** Slider 3 bound to the sum, and the gauge bound to the difference. *)
Definition two_slots_app : World :=
  match bindTo (gauge_level 5) AutoConnection diff12 bound_app with
  | Ok _ w => w
  | Err _ => app
  end.


(** * Properties *)

(** ** The monad *)

Lemma bindM_Ok {A B} (m : M A) (k : A -> M B) w b w' :
  bindM m k w = Ok b w' <-> exists a w1, m w = Ok a w1 /\ k a w1 = Ok b w'.
Proof.
  unfold bindM. split.
  - destruct (m w) as [a w1|f]; [eauto | discriminate].
  - intros (a & w1 & -> & H). exact H.
Qed.

Lemma bindM_Err {A B} (m : M A) (k : A -> M B) w f :
  m w = Err f -> bindM m k w = Err f.
Proof. unfold bindM. intros ->. reflexivity. Qed.

Lemma bindM_step {A B} (m : M A) (k : A -> M B) w a w1 :
  m w = Ok a w1 -> bindM m k w = k a w1.
Proof. unfold bindM. intros ->. reflexivity. Qed.

Lemma for_each_cons {A B} (f : A -> M B) x r w :
  for_each f (x :: r) w =
  match f x w with
  | Ok y w1 =>
      match for_each f r w1 with
      | Ok ys w2 => Ok (y :: ys) w2
      | Err e => Err e
      end
  | Err e => Err e
  end.
Proof. reflexivity. Qed.


(** Induction on operands, through the operand lists. *)
Lemma arg_ind' (P : arg -> Prop) :
  (forall v, P (ALit v)) ->
  (forall p, P (AProp p)) ->
  (forall act l, Forall P l -> P (AExpr act l)) ->
  forall a, P a.
Proof.
  intros Hl Hp He. fix IH 1. intros [v|p|act l].
  - apply Hl.
  - apply Hp.
  - apply He. induction l as [|x r IHr]; constructor; [apply IH | exact IHr].
Qed.

(** ** The log *)

Lemma logged_nil w : logged [] w = w.
Proof. destruct w. unfold logged, with_log. simpl. by rewrite app_nil_r. Qed.

Lemma logged_app a b w : logged b (logged a w) = logged (a ++ b) w.
Proof. unfold logged, with_log. simpl. by rewrite app_assoc. Qed.

Lemma with_attrs_logged f evs w :
  with_attrs f (logged evs w) = logged evs (with_attrs f w).
Proof. reflexivity. Qed.

Lemma getter_calls_app a b : getter_calls (a ++ b) = getter_calls a ++ getter_calls b.
Proof. unfold getter_calls. apply filter_app. Qed.

Lemma quiet_ret {A} (a : A) : quiet (ret a).
Proof. intros w x w' [= <- <-]. exists []. by rewrite logged_nil. Qed.

Lemma quiet_fail {A} f : quiet (@fail A f).
Proof. intros w x w' [=]. Qed.

Lemma quiet_lift {A} (o : option A) : quiet (lift o).
Proof. destruct o; [apply quiet_ret | apply quiet_fail]. Qed.

Lemma quiet_bind {A B} (m : M A) (k : A -> M B) :
  quiet m -> (forall a, quiet (k a)) -> quiet (bindM m k).
Proof.
  intros Hm Hk w b w' (a & w1 & H1 & H2)%bindM_Ok.
  destruct (Hm _ _ _ H1) as (e1 & -> & G1).
  destruct (Hk _ _ _ _ H2) as (e2 & -> & G2).
  exists (e1 ++ e2). rewrite logged_app, getter_calls_app, G1, G2. done.
Qed.

Lemma quiet_if {A} (c : bool) (m1 m2 : M A) : quiet m1 -> quiet m2 -> quiet (if c then m1 else m2).
Proof. by destruct c. Qed.

Lemma quiet_deref p : quiet (deref p).
Proof.
  intros w a w' H. unfold deref in H. destruct p; [|discriminate].
  case_bool_decide; [discriminate|]. injection H as <- <-.
  exists []. by rewrite logged_nil.
Qed.

Lemma quiet_get_world : quiet get_world.
Proof. intros w a w' [= <- <-]. exists []. by rewrite logged_nil. Qed.

Lemma quiet_record e : is_get e = false -> quiet (record e).
Proof.
  intros He w a w' [= _ <-]. exists [e]. split; [done|].
  unfold getter_calls. rewrite filter_cons_False by (rewrite He; intros []). done.
Qed.

Ltac quiet_step :=
  first [ apply quiet_ret | apply quiet_fail | apply quiet_lift | apply quiet_deref
        | apply quiet_get_world
        | apply quiet_bind; [|intros ?]
        | apply quiet_if
        | apply quiet_record; reflexivity ].

Lemma quiet_checked z : quiet (checked z).
Proof. unfold checked. repeat quiet_step. Qed.
Lemma quiet_int_op f l r : quiet (int_op f l r).
Proof. unfold int_op. repeat first [apply quiet_checked | quiet_step]. Qed.
Lemma quiet_bit_op f l r : quiet (bit_op f l r).
Proof. unfold bit_op. repeat quiet_step. Qed.
Lemma quiet_cmp_op f l r : quiet (cmp_op f l r).
Proof. unfold cmp_op. repeat quiet_step. Qed.
Lemma quiet_bool_op f l r : quiet (bool_op f l r).
Proof. unfold bool_op. repeat quiet_step. Qed.
Lemma quiet_div_op l r : quiet (div_op l r).
Proof. unfold div_op. repeat first [apply quiet_checked | quiet_step]. Qed.
Lemma quiet_rem_op l r : quiet (rem_op l r).
Proof. unfold rem_op. repeat quiet_step. Qed.
Lemma quiet_shl_op l r : quiet (shl_op l r).
Proof. unfold shl_op. repeat quiet_step. Qed.
Lemma quiet_shr_op l r : quiet (shr_op l r).
Proof. unfold shr_op. repeat quiet_step. Qed.
Lemma quiet_member_op o f : quiet (member_op o f).
Proof. unfold member_op. destruct o; repeat quiet_step. Qed.
Lemma quiet_invoke_op o f l : quiet (invoke_op o f l).
Proof. unfold invoke_op. destruct o; repeat quiet_step. Qed.

Lemma quiet_apply_action act vs : quiet (apply_action act vs).
Proof.
  unfold apply_action.
  repeat case_match;
    first [ apply quiet_int_op | apply quiet_bit_op | apply quiet_cmp_op
          | apply quiet_bool_op | apply quiet_div_op | apply quiet_shl_op
          | apply quiet_shr_op | apply quiet_member_op | apply quiet_invoke_op
          | repeat first [apply quiet_checked | quiet_step] ].
Qed.

(** ** Getter and setter *)

Lemma deref_Ok p w o w' :
  deref p w = Ok o w' <-> p = Some o /\ (o ∉ dead w) /\ w' = w.
Proof.
  unfold deref. destruct p as [i|]; [|split; [discriminate | intros (Hc & _); discriminate]].
  case_bool_decide; split.
  - discriminate.
  - intros ([= ->] & Hn & _). contradiction.
  - intros [= -> ->]. done.
  - intros ([= ->] & _ & ->). done.
Qed.

Lemma get_Ok p w v w' :
  get p w = Ok v w' <->
  exists o, isReadable p = true /\ mp_o p = Some o /\ (o ∉ dead w) /\
            attrs w !! (o, mp_name p) = Some v /\
            w' = logged [EvGet o (mp_name p)] w.
Proof.
  unfold get. destruct (isReadable p); simpl.
  2: { split; [discriminate | intros (o & Hc & _); discriminate]. }
  split.
  - intros (o & w1 & (Ho & Hd & ->)%deref_Ok & H)%bindM_Ok.
    unfold bindM, get_world in H.
    destruct (attrs w !! (o, mp_name p)) as [x|] eqn:E; [|discriminate].
    injection H as <- <-. exists o. done.
  - intros (o & _ & Ho & Hd & Ha & ->).
    rewrite (bindM_step _ _ w o w) by (apply deref_Ok; done).
    unfold bindM, get_world. rewrite Ha. done.
Qed.

Lemma set_Ok p x w u w' :
  set p x w = Ok u w' <->
  exists o, isWritable p = true /\ mp_o p = Some o /\ (o ∉ dead w) /\
            w' = logged [EvSet o (mp_name p) x]
                   (with_attrs (fun m => <[(o, mp_name p) := x]> m) w).
Proof.
  unfold set. destruct (isWritable p); simpl.
  2: { split; [discriminate | intros (o & Hc & _); discriminate]. }
  split.
  - intros (o & w1 & (Ho & Hd & ->)%deref_Ok & H)%bindM_Ok.
    injection H as <-. exists o. done.
  - intros (o & _ & Ho & Hd & ->).
    rewrite (bindM_step _ _ w o w) by (apply deref_Ok; done).
    destruct u. done.
Qed.

(** ** Evaluation only reads *)

(** A successful evaluation appends to the log, and its getter calls are
    those of the leaves of the operand, from left to right, whatever the
    values of the operands. *)
Lemma for_each_eval_logged l :
  Forall (fun a => forall w v w', eval_arg a w = Ok v w' ->
            exists evs, w' = logged evs w /\
                        getter_calls evs = flat_map getter_call (leaves a)) l ->
  forall w vs w', for_each eval_arg l w = Ok vs w' ->
    exists evs, w' = logged evs w /\
                getter_calls evs = flat_map getter_call (flat_map leaves l).
Proof.
  induction 1 as [|a r Ha _ IH]; intros w vs w' H.
  - injection H as <- <-. exists []. by rewrite logged_nil.
  - rewrite for_each_cons in H.
    destruct (eval_arg a w) as [v w1|] eqn:E1; [|discriminate].
    destruct (for_each eval_arg r w1) as [ys w2|] eqn:E2; [|discriminate].
    injection H as <- <-.
    destruct (Ha _ _ _ E1) as (e1 & -> & G1).
    destruct (IH _ _ _ E2) as (e2 & -> & G2).
    exists (e1 ++ e2). rewrite logged_app, getter_calls_app, G1, G2.
    split; [done|]. simpl. by rewrite flat_map_app.
Qed.

Lemma eval_arg_logged a w v w' :
  eval_arg a w = Ok v w' ->
  exists evs, w' = logged evs w /\ getter_calls evs = flat_map getter_call (leaves a).
Proof.
  revert w v w'. induction a as [x|p|act l IH] using arg_ind'; intros w v w' H.
  - injection H as <- <-. exists []. by rewrite logged_nil.
  - apply get_Ok in H as (o & _ & Ho & _ & _ & ->).
    exists [EvGet o (mp_name p)]. split; [done|].
    simpl. unfold getter_call. rewrite Ho. done.
  - simpl in H. apply bindM_Ok in H as (vs & w1 & H1 & H2).
    destruct (for_each_eval_logged l IH _ _ _ H1) as (e1 & -> & G1).
    destruct (quiet_apply_action _ _ _ _ _ H2) as (e2 & -> & G2).
    exists (e1 ++ e2). rewrite logged_app, getter_calls_app, G1, G2.
    split; [done|]. by rewrite app_nil_r.
Qed.

Lemma eval_logged e w v w' :
  eval e w = Ok v w' ->
  exists evs, w' = logged evs w /\
              getter_calls evs = flat_map getter_call (leaf_props e).
Proof.
  intros (vs & w1 & H1 & H2)%bindM_Ok.
  destruct (for_each_eval_logged (args e)) with (w := w) (vs := vs) (w' := w1)
    as (e1 & -> & G1); [|done|].
  { apply Forall_forall. intros a _ ? ? ?. apply eval_arg_logged. }
  destruct (quiet_apply_action _ _ _ _ _ H2) as (e2 & -> & G2).
  exists (e1 ++ e2). rewrite logged_app, getter_calls_app, G1, G2.
  split; [done|]. by rewrite app_nil_r.
Qed.

(** What a successful evaluation needed of the leaves. *)
Lemma for_each_eval_gettable l :
  Forall (fun a => forall w v w', eval_arg a w = Ok v w' ->
            forall p, p ∈ leaves a -> gettable w p) l ->
  forall w vs w', for_each eval_arg l w = Ok vs w' ->
    forall p, p ∈ flat_map leaves l -> gettable w p.
Proof.
  induction 1 as [|a r Ha _ IH]; intros w vs w' H p Hp.
  - by apply elem_of_nil in Hp.
  - rewrite for_each_cons in H.
    destruct (eval_arg a w) as [v w1|] eqn:E1; [|discriminate].
    destruct (for_each eval_arg r w1) as [ys w2|] eqn:E2; [|discriminate].
    simpl in Hp. apply elem_of_app in Hp as [Hp|Hp].
    + eapply Ha; [exact E1 | exact Hp].
    + destruct (eval_arg_logged _ _ _ _ E1) as (evs & -> & _).
      change (gettable (logged evs w) p). eapply IH; [exact E2 | exact Hp].
Qed.

Lemma eval_arg_gettable a :
  forall w v w', eval_arg a w = Ok v w' -> forall p, p ∈ leaves a -> gettable w p.
Proof.
  induction a as [x|q|act l IH] using arg_ind'; intros w v w' H p Hp.
  - by apply elem_of_nil in Hp.
  - apply list_elem_of_singleton in Hp as ->.
    apply get_Ok in H as (o & Hr & Ho & Hd & Ha & _).
    split; [done|]. by exists o, v.
  - simpl in H. apply bindM_Ok in H as (vs & w1 & H1 & _).
    by eapply for_each_eval_gettable.
Qed.

Lemma eval_gettable (e : BindingExpr) (w w' : World) (v : value) :
  eval e w = Ok v w' ->
  forall p, p ∈ leaf_props e -> gettable w p.
Proof.
  intros (vs & w1 & H1 & _)%bindM_Ok p Hp.
  eapply for_each_eval_gettable; [|exact H1|exact Hp].
  apply Forall_forall. intros a _. apply eval_arg_gettable.
Qed.

(** ** Observability *)

Lemma existsb_flat_map {A B} (f : B -> bool) (g : A -> list B) (l : list A) :
  existsb f (flat_map g l) = existsb (fun a => existsb f (g a)) l.
Proof.
  induction l as [|a r IH]; [done|]. simpl. by rewrite existsb_app, IH.
Qed.

Lemma is_observable_leaves a :
  is_observable a = existsb hasNotifySignal (leaves a).
Proof.
  induction a as [v|p|act l IH] using arg_ind'; simpl.
  - done.
  - by rewrite orb_false_r.
  - rewrite existsb_flat_map. induction IH as [|a r Ha _ IHr]; [done|].
    simpl. by rewrite Ha, IHr.
Qed.

Lemma isObservable_leaves e :
  isObservable e = existsb hasNotifySignal (leaf_props e).
Proof.
  unfold isObservable, leaf_props. rewrite existsb_flat_map.
  induction (args e) as [|a r IH]; [done|].
  simpl. by rewrite is_observable_leaves, IH.
Qed.

(** C6. [isObservable] is a function of the shape of the expression alone
    (it takes no state): the disjunction of [is_observable] over the
    operands, which is [false] for a plain value, the notify capability for
    an accessor and, recursively, the disjunction over the operands for a
    nested expression.  Hence it is [true] exactly when some leaf accessor of
    the tree has a notify signal. *)
Theorem isObservable_is_the_disjunction_over_the_leaves (e : BindingExpr) :
  isObservable e = existsb is_observable (args e)
  /\ (forall v, is_observable (ALit v) = false)
  /\ (forall p, is_observable (AProp p) = hasNotifySignal p)
  /\ (forall p, hasNotifySignal p = true <-> mp_notify p <> None)
  /\ (forall act l, is_observable (AExpr act l) = existsb is_observable l)
  /\ (isObservable e = true <->
      exists p, p ∈ leaf_props e /\ hasNotifySignal p = true).
Proof.
  repeat split; try done.
  - unfold hasNotifySignal. destruct (mp_notify p); done.
  - unfold hasNotifySignal. destruct (mp_notify p); done.
  - rewrite isObservable_leaves. intros (p & Hp & Hn)%existsb_exists.
    exists p. split; [by apply list_elem_of_In | done].
  - rewrite isObservable_leaves. intros (p & Hp & Hn).
    apply existsb_exists. exists p. split; [by apply list_elem_of_In | done].
Qed.

(** ** Eager evaluation *)


(** [cond(true, slider1.value(), slider2.value())] calls both getters, and a
    fault in the branch that is not selected is a fault of the whole. *)
Example cond_reads_both_branches :
  log <$> outcome (eval (makeBindingExpr ActionCond
                     [ALit (VBool true); AProp (slider 1); AProp (slider 2)]) app)
  = Some [EvGet 1 "value"; EvGet 2 "value"].
Proof. reflexivity. Qed.

Example and_does_not_short_circuit :
  eval (makeBindingExpr ActionAnd
          [ALit (VBool false); AExpr ActionEQ [AExpr ActionDiv [AProp (slider 1); AProp (slider 3)];
                                               ALit (VInt 0)]]) app
  = Err Undefined.
Proof. reflexivity. Qed.

(** ** The operators of the accessor *)

Lemma get_run p w o v :
  isReadable p = true -> mp_o p = Some o -> o ∉ dead w ->
  attrs w !! (o, mp_name p) = Some v ->
  get p w = Ok v (logged [EvGet o (mp_name p)] w).
Proof. intros. apply get_Ok. exists o. done. Qed.

Lemma set_run p w o x :
  isWritable p = true -> mp_o p = Some o -> o ∉ dead w ->
  set p x w = Ok tt (logged [EvSet o (mp_name p) x]
                       (with_attrs (fun m => <[(o, mp_name p) := x]> m) w)).
Proof. intros. apply set_Ok. exists o. done. Qed.

Lemma checked_run z w : representable z = true -> checked z w = Ok (VInt z) w.
Proof. intros H. unfold checked. by rewrite H. Qed.

(** C10, at the postfix operators.  [p++] and [p--] are
    [{ const T v = get(); set(++get()); return v; }]: the operand of [++] is
    the temporary of a second [get()], not the local [v] of the prefix
    form.  For a property of a built-in type that expression is rejected by
    the compiler.  So for no accessor and in no state does a postfix
    operator return: it performs no read-modify-write, while [++p] on the
    same property reads once, writes the successor once and returns it. *)
Theorem postfix_increment_is_rejected
    (p : MetaProperty) (w : World) (o : ObjId) (z : Z) :
  isReadable p = true -> isWritable p = true ->
  mp_o p = Some o -> o ∉ dead w ->
  attrs w !! (o, mp_name p) = Some (VInt z) ->
  representable (z + 1) = true ->
  operator_post_incr p w = Err IllTyped
  /\ operator_post_decr p w = Err IllTyped
  /\ operator_pre_incr p w =
       Ok (VInt (z + 1))
          (logged [EvGet o (mp_name p); EvSet o (mp_name p) (VInt (z + 1))]
             (with_attrs (fun m => <[(o, mp_name p) := VInt (z + 1)]> m) w))
  /\ (forall q w0 v w',
        operator_post_incr q w0 <> Ok v w' /\ operator_post_decr q w0 <> Ok v w').
Proof.
  intros Hr Hw Ho Hd Ha Hz.
  split; [|split; [|split]].
  - unfold operator_post_incr.
    rewrite (bindM_step _ _ w (VInt z) _ (get_run p w o _ Hr Ho Hd Ha)).
    by rewrite (bindM_step _ _ (logged _ w) (VInt z) _
                  (get_run p (logged _ w) o _ Hr Ho Hd Ha)).
  - unfold operator_post_decr.
    rewrite (bindM_step _ _ w (VInt z) _ (get_run p w o _ Hr Ho Hd Ha)).
    by rewrite (bindM_step _ _ (logged _ w) (VInt z) _
                  (get_run p (logged _ w) o _ Hr Ho Hd Ha)).
  - unfold operator_pre_incr.
    rewrite (bindM_step _ _ w (VInt z) _ (get_run p w o _ Hr Ho Hd Ha)).
    simpl incr. rewrite (bindM_step _ _ _ (VInt (z + 1)) _ (checked_run _ _ Hz)).
    unfold bindM, ret.
    rewrite (set_run p _ o) by done.
    rewrite with_attrs_logged, logged_app. done.
  - intros q w0 v w'. split.
    + intros (v1 & w1 & _ & (v2 & w2 & _ & (t & w3 & [=] & _)%bindM_Ok)%bindM_Ok)%bindM_Ok.
    + intros (v1 & w1 & _ & (v2 & w2 & _ & (t & w3 & [=] & _)%bindM_Ok)%bindM_Ok)%bindM_Ok.
Qed.

Lemma postfix_increment_is_rejected_witness :
  operator_post_incr (slider 1) app = Err IllTyped
  /\ operator_post_decr (slider 1) app = Err IllTyped
  /\ operator_pre_incr (slider 1) app =
       Ok (VInt (2 + 1))
          (logged [EvGet 1%nat "value"; EvSet 1%nat "value" (VInt (2 + 1))]
             (with_attrs (fun m => <[(1%nat, "value") := VInt (2 + 1)]> m) app))
  /\ (forall q w0 v w',
        operator_post_incr q w0 <> Ok v w' /\ operator_post_decr q w0 <> Ok v w').
Proof.
  apply (postfix_increment_is_rejected (slider 1) app 1%nat 2%Z);
    [reflexivity | reflexivity | reflexivity | set_solver | reflexivity | reflexivity].
Defined.

(** X1. The prefix operators [++p] and [--p] on an [int] property call the
    getter once and the setter once, with the value read plus or minus one,
    and return the value written (the new value of the property), when that
    value is in the range of [int].  Nothing is connected and no mapper is
    created. *)
Lemma prefix_increment_reads_once (p : MetaProperty) (w : World) (o : ObjId) (z : Z) :
  isReadable p = true -> isWritable p = true ->
  mp_o p = Some o -> o ∉ dead w ->
  attrs w !! (o, mp_name p) = Some (VInt z) ->
  (representable (z + 1) = true ->
   operator_pre_incr p w =
     Ok (VInt (z + 1))
        (logged [EvGet o (mp_name p); EvSet o (mp_name p) (VInt (z + 1))]
           (with_attrs (fun m => <[(o, mp_name p) := VInt (z + 1)]> m) w)))
  /\ (representable (z - 1) = true ->
      operator_pre_decr p w =
        Ok (VInt (z - 1))
           (logged [EvGet o (mp_name p); EvSet o (mp_name p) (VInt (z - 1))]
              (with_attrs (fun m => <[(o, mp_name p) := VInt (z - 1)]> m) w))).
Proof.
  intros Hr Hw Ho Hd Ha.
  unfold operator_pre_incr, operator_pre_decr.
  rewrite !(bindM_step _ _ w (VInt z) _ (get_run p w o _ Hr Ho Hd Ha)).
  simpl incr. simpl decr. split; intros Hz;
    rewrite (bindM_step _ _ _ _ _ (checked_run _ _ Hz));
    unfold bindM, ret; rewrite (set_run p _ o) by done;
    rewrite with_attrs_logged, logged_app; done.
Qed.

(** X2. A compound assignment [p @= v] on an [int] property, for each of
    the ten operators, calls the getter once, applies the native operator
    to the value read and to [v], and calls the setter once with the
    result, when the operator is defined on the two values (no overflow, no
    zero divisor, a shift count within the width).  Nothing is connected
    and no mapper is created. *)
Lemma compound_assignment_reads_once
    (op : CompoundOp) (p : MetaProperty) (w : World) (o : ObjId)
    (a c : Z) (r : value) :
  isReadable p = true -> isWritable p = true -> mp_type p = TInt ->
  mp_o p = Some o -> o ∉ dead w ->
  attrs w !! (o, mp_name p) = Some (VInt a) ->
  (forall w0, native op (VInt a) (VInt c) w0 = Ok r w0) ->
  operator_compound op p (VInt c) w =
    Ok tt (logged [EvGet o (mp_name p); EvSet o (mp_name p) r]
             (with_attrs (fun m => <[(o, mp_name p) := r]> m) w))
  /\ exists z, r = VInt z.
Proof.
  intros Hr Hw _ Ho Hd Ha Hn. split.
  - unfold operator_compound.
    rewrite (bindM_step _ _ w (VInt a) _ (get_run p w o _ Hr Ho Hd Ha)).
    rewrite (bindM_step _ _ _ r _ (Hn _)).
    rewrite (set_run p _ o) by done.
    rewrite with_attrs_logged, logged_app. done.
  - specialize (Hn w). destruct op; simpl in Hn;
      unfold int_op, bit_op, div_op, rem_op, shl_op, shr_op, checked, bindM, lift,
        ret, fail in Hn; simpl in Hn;
      repeat match type of Hn with
             | context [if ?b then _ else _] => destruct b
             end; try discriminate Hn; injection Hn as <-; eauto.
Qed.

(** C7, the operators as written: a plain value is set at once, without any
    mapper or connection; an accessor or an expression goes to [bindTo] with
    the left-hand side as the target. *)
Lemma assignment_operators_as_written (this : MetaProperty) :
  (forall v w o, isWritable this = true -> mp_o this = Some o -> o ∉ dead w ->
     exists w', operator_assign_value this v w = Ok tt w' /\
       attrs w' !! (o, mp_name this) = Some v /\
       mappers w' = mappers w /\ conns w' = conns w /\ posted w' = posted w)
  /\ (forall q, operator_assign_property this q =
        bindTo this AutoConnection (makeBindingExpr ActionEmpty [AProp q]))
  /\ (forall e, operator_assign_expr this e = bindTo this AutoConnection e).
Proof.
  repeat split; try done.
  intros v w o Hw Ho Hd. eexists. split.
  - unfold operator_assign_value. by apply set_run.
  - simpl. repeat split; try done. apply lookup_insert_eq.
Qed.

(** C7, at two accessors of one type ([slider1.value() = slider2.value()]):
    the assignment selected is the implicit one of the class, so that
    nothing is set and nothing is bound.  The state is left as it was. *)
Theorem assignment_between_accessors_of_one_type_binds_nothing
    (p q : MetaProperty) (w : World) :
  same_accessor_type p q = true ->
  assignment_overload p (RhsProperty q) = ImplicitAssign
  /\ operator_assign p (RhsProperty q) w = Ok tt w.
Proof.
  intros H. unfold operator_assign, assignment_overload. rewrite H. done.
Qed.

Lemma assignment_between_accessors_of_one_type_binds_nothing_witness :
  operator_assign (slider 3) (RhsProperty (slider 1)) app = Ok tt app.
Proof.
  apply (assignment_between_accessors_of_one_type_binds_nothing
           (slider 3) (slider 1) app).
  reflexivity.
Defined.

(** With an accessor of another type, or with a value or an expression, the
    operator written for the operand is the one called. *)
Lemma assignment_dispatch (p : MetaProperty) :
  (forall v, operator_assign p (RhsValue v) = operator_assign_value p v)
  /\ (forall e, operator_assign p (RhsExpr e) = operator_assign_expr p e)
  /\ (forall q, same_accessor_type p q = false ->
        operator_assign p (RhsProperty q) = operator_assign_property p q).
Proof.
  repeat split; try done.
  intros q H. unfold operator_assign, assignment_overload. by rewrite H.
Qed.





Lemma sound_strict_false t w r :
  sound t w true r -> forall s, sound t w s r.
Proof. destruct r as [v w'|[]]; simpl; try done. Qed.







(** ** Wiring *)

Lemma lift_res_bind {A B} (T : World -> World) (m : M A) (k : A -> M B) w :
  (forall a w1, k a (T w1) = lift_res T (k a w1)) ->
  match lift_res T (m w) with Ok a w' => k a w' | Err f => Err f end
  = lift_res T (bindM m k w).
Proof.
  intros Hk. unfold bindM. destruct (m w) as [a w1|f]; simpl; [apply Hk | done].
Qed.

Lemma oblivious_ret {A} (a : A) : oblivious (ret a).
Proof. done. Qed.

Lemma oblivious_fail {A} f : oblivious (@fail A f).
Proof. done. Qed.

Lemma oblivious_lift {A} (o : option A) : oblivious (lift o).
Proof. by destruct o. Qed.

Lemma oblivious_bind {A B} (m : M A) (k : A -> M B) :
  oblivious m -> (forall a, oblivious (k a)) -> oblivious (bindM m k).
Proof.
  intros Hm Hk ms cs ps w. unfold bindM at 1. rewrite Hm.
  apply lift_res_bind. intros a w1. apply Hk.
Qed.

Lemma oblivious_if {A} (c : bool) (m1 m2 : M A) :
  oblivious m1 -> oblivious m2 -> oblivious (if c then m1 else m2).
Proof. by destruct c. Qed.

Lemma oblivious_deref p : oblivious (deref p).
Proof.
  intros ms cs ps w. unfold deref. destruct p; [|done]. simpl.
  by case_bool_decide.
Qed.

Lemma oblivious_record e : oblivious (record e).
Proof. done. Qed.

Lemma oblivious_get p : oblivious (get p).
Proof.
  unfold get. destruct (isReadable p); [|done]. simpl.
  apply oblivious_bind; [apply oblivious_deref|].
  intros o ms cs ps w. unfold bindM, get_world. simpl.
  by destruct (attrs w !! (o, mp_name p)).
Qed.

Lemma oblivious_set p v : oblivious (set p v).
Proof.
  unfold set. destruct (isWritable p); [|done]. simpl.
  apply oblivious_bind; [apply oblivious_deref|]. by intros o ms cs ps w.
Qed.

Ltac oblivious_step :=
  first [ apply oblivious_ret | apply oblivious_fail | apply oblivious_lift
        | apply oblivious_deref | apply oblivious_record
        | apply oblivious_bind; [|intros ?]
        | apply oblivious_if ].

Lemma oblivious_checked z : oblivious (checked z).
Proof. unfold checked. repeat oblivious_step. Qed.
Lemma oblivious_int_op f l r : oblivious (int_op f l r).
Proof. unfold int_op. repeat first [apply oblivious_checked | oblivious_step]. Qed.
Lemma oblivious_bit_op f l r : oblivious (bit_op f l r).
Proof. unfold bit_op. repeat oblivious_step. Qed.
Lemma oblivious_cmp_op f l r : oblivious (cmp_op f l r).
Proof. unfold cmp_op. repeat oblivious_step. Qed.
Lemma oblivious_bool_op f l r : oblivious (bool_op f l r).
Proof. unfold bool_op. repeat oblivious_step. Qed.
Lemma oblivious_div_op l r : oblivious (div_op l r).
Proof. unfold div_op. repeat first [apply oblivious_checked | oblivious_step]. Qed.
Lemma oblivious_shl_op l r : oblivious (shl_op l r).
Proof. unfold shl_op. repeat oblivious_step. Qed.
Lemma oblivious_shr_op l r : oblivious (shr_op l r).
Proof. unfold shr_op. repeat oblivious_step. Qed.

Lemma oblivious_member_op o f : oblivious (member_op o f).
Proof.
  unfold member_op. destruct o as [o|]; [|done].
  apply oblivious_bind; [apply oblivious_deref|].
  intros o' ms cs ps w. unfold bindM, get_world, lift. simpl.
  by destruct (attrs w !! (o', f)).
Qed.

Lemma oblivious_invoke_op o f l : oblivious (invoke_op o f l).
Proof.
  unfold invoke_op. destruct o as [o|]; [|done].
  apply oblivious_bind; [apply oblivious_deref|]. by intros o' ms cs ps w.
Qed.

Lemma oblivious_apply_action act vs : oblivious (apply_action act vs).
Proof.
  unfold apply_action.
  repeat case_match;
    first [ apply oblivious_int_op | apply oblivious_bit_op | apply oblivious_cmp_op
          | apply oblivious_bool_op | apply oblivious_div_op | apply oblivious_shl_op
          | apply oblivious_shr_op | apply oblivious_member_op
          | apply oblivious_invoke_op
          | repeat first [apply oblivious_checked | oblivious_step] ].
Qed.

Lemma oblivious_for_each {A B} (f : A -> M B) l :
  Forall (fun a => oblivious (f a)) l -> oblivious (for_each f l).
Proof.
  induction 1 as [|a r Ha _ IH]; [apply oblivious_ret|].
  simpl. apply oblivious_bind; [done|]. intros y.
  apply oblivious_bind; [done|]. intros ys. apply oblivious_ret.
Qed.

Lemma oblivious_eval_arg a : oblivious (eval_arg a).
Proof.
  induction a as [v|p|act l IH] using arg_ind'.
  - apply oblivious_ret.
  - apply oblivious_get.
  - simpl. apply oblivious_bind; [by apply oblivious_for_each|].
    intros vs. apply oblivious_apply_action.
Qed.

Lemma oblivious_eval e : oblivious (eval e).
Proof.
  apply oblivious_bind.
  - apply oblivious_for_each, Forall_forall. intros a _. apply oblivious_eval_arg.
  - intros vs. apply oblivious_apply_action.
Qed.

Lemma oblivious_invoke_slot r s a : oblivious (invoke_slot r s a).
Proof. unfold invoke_slot. repeat oblivious_step. Qed.

Lemma oblivious_call r func e : oblivious (call r func e).
Proof.
  unfold call. destruct func as [p|s i0 i1|f i0 i1].
  - apply oblivious_bind; [apply oblivious_eval | intros v; apply oblivious_set].
  - repeat apply oblivious_if; try apply oblivious_invoke_slot; try apply oblivious_ret.
    apply oblivious_bind; [apply oblivious_eval | intros v; apply oblivious_invoke_slot].
  - repeat apply oblivious_if; try apply oblivious_record; try apply oblivious_ret.
    apply oblivious_bind; [apply oblivious_eval | intros v; apply oblivious_record].
Qed.

Lemma same_objects_refl w : same_objects w w.
Proof. done. Qed.

Lemma same_objects_trans w1 w2 w3 :
  same_objects w1 w2 -> same_objects w2 w3 -> same_objects w1 w3.
Proof. intros (?&?&?&?) (?&?&?&?). repeat split; congruence. Qed.

Lemma same_objects_rewire w w1 :
  same_objects w w1 -> w1 = rewire (mappers w1) (conns w1) (posted w1) w.
Proof. destruct w1. unfold same_objects, rewire. simpl. by intros (-> & -> & -> & ->). Qed.

Lemma same_objects_with_mappers f w : same_objects w (with_mappers f w).
Proof. done. Qed.
Lemma same_objects_with_conns f w : same_objects w (with_conns f w).
Proof. done. Qed.
Lemma same_objects_with_posted f w : same_objects w (with_posted f w).
Proof. done. Qed.

Lemma same_objects_add_destroyed o b w : same_objects w (add_destroyed o b w).
Proof. unfold add_destroyed. by case_bool_decide. Qed.

Lemma same_objects_add_notify o s b w : same_objects w (add_notify o s b w).
Proof. unfold add_notify. by case_bool_decide. Qed.


Lemma same_objects_wire1 b o s w : same_objects w (wire1 b o s w).
Proof.
  unfold wire1. eapply same_objects_trans; [apply same_objects_add_destroyed|].
  eapply same_objects_trans; [apply same_objects_add_notify|]. done.
Qed.

Lemma same_objects_wire_prop b w p : same_objects w (wire_prop b w p).
Proof.
  unfold wire_prop. destruct (mp_notify p), (mp_o p); try done.
  apply same_objects_wire1.
Qed.

Lemma same_objects_wire_leaves b ps w : same_objects w (wire_leaves b ps w).
Proof.
  revert w. induction ps as [|p ps IH]; intros w; [done|]. simpl.
  eapply same_objects_trans; [apply same_objects_wire_prop | apply IH].
Qed.

Lemma same_objects_wired r func ty e b w : same_objects w (wired r func ty e b w).
Proof.
  unfold wired, add_mapped.
  eapply same_objects_trans; [apply same_objects_wire_leaves|]. done.
Qed.

Lemma leaves_alive_same w w1 ps :
  same_objects w w1 -> leaves_alive w1 ps = leaves_alive w ps.
Proof.
  intros (_ & _ & Hd & _). unfold leaves_alive, leaf_alive. by rewrite Hd.
Qed.

(** A computation that ignores the wiring runs the same in a rewired state. *)
Lemma oblivious_same {A} (m : M A) w w1 :
  oblivious m -> same_objects w w1 ->
  m w1 = lift_res (rewire (mappers w1) (conns w1) (posted w1)) (m w).
Proof.
  intros Hm Hs. rewrite (same_objects_rewire w w1 Hs) at 1. apply Hm.
Qed.

(** [bind1] and [bind] as state transformers. *)
Lemma bind1_eq b p w :
  hasNotifySignal p = true ->
  bind1 b p w = if leaf_alive w p then Ok tt (wire_prop b w p) else Err Dangling.
Proof.
  unfold hasNotifySignal, bind1, leaf_alive, wire_prop, object.
  destruct (mp_notify p) as [s|]; [|done]. intros _.
  destruct (mp_o p) as [o|]; [|done].
  unfold bindM, deref. case_bool_decide as Hd.
  - rewrite bool_decide_eq_false_2 by (intros Hn; by apply Hn). done.
  - rewrite bool_decide_eq_true_2 by done. done.
Qed.

Lemma bind_all_nil b w : bind_all b [] w = Ok tt w.
Proof. done. Qed.

Lemma bind_all_app b ps qs w :
  bind_all b (ps ++ qs) w =
  match bind_all b ps w with
  | Ok _ w1 => bind_all b qs w1
  | Err f => Err f
  end.
Proof.
  unfold bind_all, leaves_alive. rewrite forallb_app.
  destruct (forallb (leaf_alive w) ps); simpl; [|done].
  fold (leaves_alive w qs).
  fold (leaves_alive (wire_leaves b ps w) qs).
  rewrite (leaves_alive_same w (wire_leaves b ps w)) by apply same_objects_wire_leaves.
  unfold wire_leaves. by rewrite foldl_app.
Qed.

Lemma bind_all_singleton b p w :
  hasNotifySignal p = true -> bind_all b [p] w = bind1 b p w.
Proof.
  intros Hn. rewrite bind1_eq by done. unfold bind_all, leaves_alive. simpl.
  rewrite andb_true_r. done.
Qed.

Lemma for_each_app {A B} (f : A -> M B) l1 l2 w :
  for_each f (l1 ++ l2) w =
  match for_each f l1 w with
  | Ok ys w1 =>
      match for_each f l2 w1 with
      | Ok zs w2 => Ok (ys ++ zs) w2
      | Err e => Err e
      end
  | Err e => Err e
  end.
Proof.
  revert w. induction l1 as [|x l1 IH]; intros w.
  - simpl. unfold ret. by destruct (for_each f l2 w).
  - change ((x :: l1) ++ l2) with (x :: (l1 ++ l2)).
    rewrite (for_each_cons f x (l1 ++ l2)), (for_each_cons f x l1).
    destruct (f x w) as [y w1|e]; [|reflexivity].
    rewrite IH. destruct (for_each f l1 w1) as [ys w2|e]; [|reflexivity].
    destruct (for_each f l2 w2); reflexivity.
Qed.

(** [bind] over the tree is [bind1] over the leaves, from left to right. *)
Lemma for_each_bind_leaves b l :
  Forall (fun a => forall w,
            bind b a w = (for_each (bind1 b) (leaves a);; ret tt) w) l ->
  forall w, (for_each (bind b) l;; ret tt) w
            = (for_each (bind1 b) (flat_map leaves l);; ret tt) w.
Proof.
  induction 1 as [|a r Ha _ IH]; intros w; [done|].
  simpl flat_map. unfold bindM. rewrite for_each_cons, for_each_app.
  rewrite Ha. unfold bindM.
  destruct (for_each (bind1 b) (leaves a) w) as [us w1|f]; [|done].
  unfold ret at 1. specialize (IH w1). unfold bindM in IH.
  destruct (for_each (bind b) r w1) as [ys w2|f];
    destruct (for_each (bind1 b) (flat_map leaves r) w1) as [zs w3|f']; try done.
Qed.

Lemma bind_leaves b a w :
  bind b a w = (for_each (bind1 b) (leaves a);; ret tt) w.
Proof.
  revert w. induction a as [v|p|act l IH] using arg_ind'; intros w.
  - done.
  - change (bind1 b p w = (for_each (bind1 b) [p];; ret tt) w).
    unfold bindM. rewrite (for_each_cons (bind1 b) p []).
    by destruct (bind1 b p w) as [[] w1|f].
  - simpl. by apply for_each_bind_leaves.
Qed.

Lemma bind0_leaves b e w :
  bind0 b e w = (for_each (bind1 b) (leaf_props e);; ret tt) w.
Proof.
  unfold bind0, leaf_props. apply for_each_bind_leaves, Forall_forall.
  intros a _ w'. apply bind_leaves.
Qed.

Lemma bind_all_for_each b ps :
  forallb hasNotifySignal ps = true ->
  forall w, bind_all b ps w = (for_each (bind1 b) ps;; ret tt) w.
Proof.
  induction ps as [|p ps IH]; intros Hn w; [done|].
  simpl in Hn. apply andb_true_iff in Hn as [Hp Hps].
  change (p :: ps) with ([p] ++ ps) at 1.
  rewrite bind_all_app, bind_all_singleton by done.
  unfold bindM at 1. rewrite for_each_cons.
  destruct (bind1 b p w) as [[] w1|f]; [|done].
  rewrite IH by done. unfold bindM. by destruct (for_each (bind1 b) ps w1).
Qed.

Lemma for_each_bind1_Ok b ps w us w' :
  for_each (bind1 b) ps w = Ok us w' -> forallb hasNotifySignal ps = true.
Proof.
  revert w us w'. induction ps as [|p ps IH]; intros w us w' H; [done|].
  rewrite for_each_cons in H.
  destruct (bind1 b p w) as [[] w1|f] eqn:E; [|done].
  destruct (for_each (bind1 b) ps w1) as [ys w2|f] eqn:E2; [|done].
  simpl. rewrite (IH _ _ _ E2), andb_true_r.
  unfold bind1 in E. unfold hasNotifySignal. by destruct (mp_notify p).
Qed.

Lemma bind_eq b a w :
  forallb hasNotifySignal (leaves a) = true ->
  bind b a w = bind_all b (leaves a) w.
Proof. intros H. by rewrite bind_leaves, bind_all_for_each. Qed.

Lemma bind0_eq b e w :
  forallb hasNotifySignal (leaf_props e) = true ->
  bind0 b e w = bind_all b (leaf_props e) w.
Proof. intros H. by rewrite bind0_leaves, bind_all_for_each. Qed.

Lemma bind_instantiates_leaves a :
  bind_instantiates a = forallb hasNotifySignal (leaves a).
Proof.
  induction a as [v|p|act l IH] using arg_ind'; [done|simpl; by rewrite andb_true_r|].
  simpl. induction IH as [|a r Ha _ IHr]; [done|].
  simpl. by rewrite forallb_app, Ha, IHr.
Qed.

Lemma bind_instantiates_leaf_props e :
  forallb bind_instantiates (args e) = forallb hasNotifySignal (leaf_props e).
Proof.
  unfold leaf_props. induction (args e) as [|a r IH]; [done|].
  simpl. by rewrite forallb_app, bind_instantiates_leaves, IH.
Qed.

Lemma rewire_self w : rewire (mappers w) (conns w) (posted w) w = w.
Proof. by destruct w. Qed.

Lemma oblivious_wiring {A} (m : M A) w a w2 :
  oblivious m -> m w = Ok a w2 ->
  mappers w2 = mappers w /\ conns w2 = conns w /\ posted w2 = posted w.
Proof.
  intros Hm H. pose proof (Hm (mappers w) (conns w) (posted w) w) as E.
  rewrite rewire_self, H in E. simpl in E. injection E as E.
  rewrite E. done.
Qed.

(** The private [bindTo]: either a fault before anything is done, or the
    wiring of a mapper followed by [call], or (a mapper is there and the
    expression is not observable) [call] followed by [deleteLater]. *)
Lemma bindTo_impl_eq r func ty n e w :
  bindTo_impl r func ty n e w =
  if negb (valid_slot func) then Err IllTyped
  else if negb (forallb hasNotifySignal (leaf_props e)) then Err IllTyped
  else if receiver_gone w r then Err Dangling
  else match existing_fan_in w r n with
       | Some b =>
           if isObservable e then
             if leaves_alive w (leaf_props e)
             then call r func e (wired r func ty e b (drop_sent_by b w))
             else Err Dangling
           else lift_res (post_delete b) (call r func e w)
       | None =>
           if leaves_alive w (leaf_props e)
           then call r func e
                  (wired r func ty e (length (mappers w))
                     (rename_mapper (length (mappers w)) n (add_mapper r w)))
           else Err Dangling
       end.
Proof.
  unfold bindTo_impl. destruct (valid_slot func); [|done]. simpl.
  rewrite bind_instantiates_leaf_props.
  destruct (forallb hasNotifySignal (leaf_props e)) eqn:Hnot; [|done]. simpl.
  assert (Hwire : forall b w0, same_objects w w0 ->
            bindM (bind0 b e)
              (fun _ => bindM (connect_mapped b r func e ty)
                          (fun _ => call r func e)) w0
            = if leaves_alive w (leaf_props e)
              then call r func e (wired r func ty e b w0) else Err Dangling).
  { intros b w0 Hs. unfold bindM at 1. rewrite bind0_eq by done. unfold bind_all.
    rewrite (leaves_alive_same w w0 _ Hs).
    by destruct (leaves_alive w (leaf_props e)). }
  assert (Hnew : bindM (new_QSignalMapper r)
            (fun b => bindM (setObjectName b n)
               (fun _ => bindM (bind0 b e)
                  (fun _ => bindM (connect_mapped b r func e ty)
                     (fun _ => call r func e)))) w
          = if receiver_gone w r then Err Dangling
            else if leaves_alive w (leaf_props e)
            then call r func e
                   (wired r func ty e (length (mappers w))
                      (rename_mapper (length (mappers w)) n (add_mapper r w)))
            else Err Dangling).
  { unfold bindM at 1. unfold new_QSignalMapper, receiver_gone.
    destruct r as [rr|].
    - unfold bindM at 1 2, deref. case_bool_decide; [done|]. simpl.
      unfold bindM at 1. simpl. apply Hwire. done.
    - simpl. unfold bindM at 1. simpl. apply Hwire. done. }
  destruct r as [rr|].
  - unfold bindM at 1, findChild. unfold bindM at 1, deref. simpl.
    case_bool_decide as Hd; [done|]. simpl.
    destruct (child_named w rr n) as [b|] eqn:Hc.
    + destruct (isObservable e).
      * unfold bindM at 1. simpl. apply Hwire. done.
      * unfold bindM. destruct (call (Some rr) func e w) as [[] w2|f]; done.
    + rewrite Hnew. simpl. by rewrite bool_decide_eq_false_2.
  - unfold bindM at 1. simpl. rewrite Hnew. done.
Qed.

Lemma call_in_rewired r func e w w1 :
  same_objects w w1 ->
  call r func e w1 = lift_res (rewire (mappers w1) (conns w1) (posted w1)) (call r func e w).
Proof. apply oblivious_same, oblivious_call. Qed.

Lemma call_then_post_delete b r func e w :
  lift_res (post_delete b) (call r func e w)
  = lift_res (rewire (mappers w) (conns w) (posted (post_delete b w))) (call r func e w).
Proof.
  destruct (call r func e w) as [u w2|f] eqn:E; [|done]. simpl. f_equal.
  destruct (oblivious_wiring _ _ _ _ (oblivious_call r func e) E) as (Hm & Hc & Hp).
  unfold post_delete, delete_pending. rewrite Hp.
  destruct (existsb _ (posted w)).
  - rewrite <- Hm, <- Hc, <- Hp. by rewrite rewire_self.
  - destruct w2. simpl in *. unfold with_posted, rewire. simpl. by subst.
Qed.

(** ** One call of the target per [bindTo] *)

Lemma leaves_alive_not_observable w ps :
  existsb hasNotifySignal ps = false -> leaves_alive w ps = true.
Proof.
  induction ps as [|p ps IH]; [done|]. simpl.
  intros [Hp Hps]%orb_false_iff. rewrite IH by done.
  unfold leaf_alive, hasNotifySignal in *. by destruct (mp_notify p).
Qed.

Lemma leaves_alive_gettable w ps :
  (forall p, p ∈ ps -> gettable w p) -> leaves_alive w ps = true.
Proof.
  intros H. unfold leaves_alive. apply forallb_forall. intros p Hp.
  apply list_elem_of_In in Hp. destruct (H p Hp) as (_ & o & x & Ho & Hd & _).
  unfold leaf_alive. rewrite Ho. destruct (mp_notify p); [|done].
  by apply bool_decide_eq_true_2.
Qed.

(** Whenever the binding compiles and the wiring does not fault, a call of
    [bindTo] is a call of the target and a change of mappers, connections
    and posted events. *)
Lemma bindTo_impl_as_call r func ty n e w :
  valid_slot func = true ->
  forallb hasNotifySignal (leaf_props e) = true ->
  receiver_gone w r = false ->
  leaves_alive w (leaf_props e) = true ->
  exists ms cs ps,
    bindTo_impl r func ty n e w = lift_res (rewire ms cs ps) (call r func e w).
Proof.
  intros Hv Hn Hr Hl.
  rewrite bindTo_impl_eq, Hv, Hn, Hr, Hl. simpl.
  destruct (existing_fan_in w r n) as [b|].
  - destruct (isObservable e).
    + eexists _, _, _. apply call_in_rewired.
      eapply same_objects_trans; [|apply same_objects_wired]. done.
    + eexists _, _, _. apply call_then_post_delete.
  - eexists _, _, _. apply call_in_rewired.
    eapply same_objects_trans; [|apply same_objects_wired]. done.
Qed.

Lemma bindTo_impl_Ok_inv r func ty n e w w1 :
  bindTo_impl r func ty n e w = Ok tt w1 ->
  valid_slot func = true /\ forallb hasNotifySignal (leaf_props e) = true /\
  receiver_gone w r = false /\
  leaves_alive w (leaf_props e) = true /\
  exists w' ms cs ps, call r func e w = Ok tt w' /\ w1 = rewire ms cs ps w'.
Proof.
  intros H. pose proof H as H0. rewrite bindTo_impl_eq in H0.
  destruct (valid_slot func) eqn:Hv; [|done]. simpl in H0.
  destruct (forallb hasNotifySignal (leaf_props e)) eqn:Hn; [|done]. simpl in H0.
  destruct (receiver_gone w r) eqn:Hr; [done|].
  assert (Hl : leaves_alive w (leaf_props e) = true).
  { destruct (leaves_alive w (leaf_props e)) eqn:Hl; [done|].
    destruct (existing_fan_in w r n); [|done].
    destruct (isObservable e) eqn:Hobs; [done|].
    rewrite isObservable_leaves in Hobs.
    by rewrite (leaves_alive_not_observable w _ Hobs) in Hl. }
  split; [done|]. split; [done|]. split; [done|]. split; [done|].
  destruct (bindTo_impl_as_call r func ty n e w Hv Hn Hr Hl) as (ms & cs & ps & E).
  rewrite H in E. destruct (call r func e w) as [[] w'|f]; [|done].
  simpl in E. injection E as ->. by exists w', ms, cs, ps.
Qed.

(** C4.  Every call of [bindTo] on an accessor (the one target a program
    can pass) that compiles, with a target that has a setter and an object
    that is alive, evaluates the expression once and applies the result to
    the target once before it returns, whether or not the expression is
    observable and whatever mappers and connections exist: the getters of
    the leaves have been called once each, in the state before the binding,
    the setter of the target has been called once with the value of that
    evaluation, and the target holds it.  If the evaluation fails, so does
    the call. *)
Theorem bindTo_calls_the_target_once
    (target : MetaProperty) (ty : ConnectionType) (e : BindingExpr)
    (w : World) (o : ObjId) :
  forallb hasNotifySignal (leaf_props e) = true ->
  isWritable target = true -> mp_o target = Some o -> o ∉ dead w ->
  match eval e w with
  | Ok v w' =>
      exists w1 evs,
        bindTo target ty e w = Ok tt w1
        /\ w' = logged evs w
        /\ getter_calls evs = flat_map getter_call (leaf_props e)
        /\ log w1 = log w ++ evs ++ [EvSet o (mp_name target) v]
        /\ attrs w1 = <[(o, mp_name target) := v]> (attrs w)
        /\ attrs w1 !! (o, mp_name target) = Some v
        /\ dead w1 = dead w
  | Err f => exists f', bindTo target ty e w = Err f'
  end.
Proof.
  intros Hn Hw Ho Hd. unfold bindTo.
  destruct (eval e w) as [v w'|f] eqn:Hev.
  - destruct (eval_logged _ _ _ _ Hev) as (evs & -> & Hg).
    assert (Hl : leaves_alive w (leaf_props e) = true).
    { apply leaves_alive_gettable. by eapply eval_gettable. }
    assert (Hr : receiver_gone w (object target) = false).
    { unfold object. rewrite Ho. simpl. by apply bool_decide_eq_false_2. }
    destruct (bindTo_impl_as_call (object target) (FProperty target) ty
                (bindingName target) e w eq_refl Hn Hr Hl) as (ms & cs & ps & ->).
    simpl. unfold bindM at 1. rewrite Hev.
    rewrite (set_run target _ o) by done. simpl.
    eexists _, evs. split; [reflexivity|]. split; [done|]. split; [done|].
    simpl. split; [by rewrite <- app_assoc|]. split; [done|].
    split; [apply lookup_insert_eq | done].
  - destruct (bindTo_impl (object target) (FProperty target) ty
                (bindingName target) e w) as [[] w1|f'] eqn:E; [|by eexists].
    destruct (bindTo_impl_Ok_inv _ _ _ _ _ _ _ E)
      as (_ & _ & _ & _ & w' & _ & _ & _ & Hc & _).
    simpl in Hc. apply bindM_Ok in Hc as (v & w0 & Hev' & _). congruence.
Qed.

Lemma bindTo_calls_the_target_once_witness :
  exists w1 evs,
    bindTo (slider 3) AutoConnection sum12 app = Ok tt w1
    /\ logged [EvGet 1%nat "value"; EvGet 2%nat "value"] app = logged evs app
    /\ getter_calls evs = flat_map getter_call (leaf_props sum12)
    /\ log w1 = log app ++ evs ++ [EvSet 3%nat (mp_name (slider 3)) (VInt 5)]
    /\ attrs w1 = <[(3%nat, mp_name (slider 3)) := VInt 5]> (attrs app)
    /\ attrs w1 !! (3%nat, mp_name (slider 3)) = Some (VInt 5)
    /\ dead w1 = dead app.
Proof.
  apply (bindTo_calls_the_target_once (slider 3) AutoConnection sum12 app 3%nat);
    [reflexivity | reflexivity | reflexivity | set_solver].
Defined.

(** ** What the wiring does to the connections and to the mapper *)

Lemma omap_snoc {A B} (f : A -> option B) (l : list A) x :
  omap f (l ++ [x]) = omap f l ++ match f x with Some y => [y] | None => [] end.
Proof. rewrite omap_app. simpl. by destruct (f x). Qed.

Lemma omap_cons_eq {A B} (f : A -> option B) (l : list A) x :
  omap f (x :: l) = match f x with Some y => y :: omap f l | None => omap f l end.
Proof. done. Qed.

Lemma omap_filter_keep {A B} (f : A -> option B) (P : A -> Prop)
    `{!forall x, Decision (P x)} (l : list A) :
  (forall x, is_Some (f x) -> P x) -> omap f (filter P l) = omap f l.
Proof.
  intros Hf. induction l as [|x l IH]; [done|].
  rewrite filter_cons. destruct (decide (P x)) as [Hp|Hp]; rewrite !omap_cons_eq.
  - by rewrite IH.
  - destruct (f x) eqn:E; [|done]. destruct Hp. apply Hf. by rewrite E.
Qed.

Lemma omap_filter_sublist {A B} (f : A -> option B) (P : A -> Prop)
    `{!forall x, Decision (P x)} (l : list A) :
  omap f (filter P l) `sublist_of` omap f l.
Proof.
  induction l as [|x l IH]; [done|].
  rewrite filter_cons. destruct (decide (P x)); rewrite !omap_cons_eq.
  - destruct (f x); [by apply sublist_skip | done].
  - destruct (f x); [by apply sublist_cons | done].
Qed.

Section wire_step.
Context (b : MapperId).

Lemma add_destroyed_conns o w :
  conns (add_destroyed o b w) = conns w \/
  conns (add_destroyed o b w) = conns w ++ [ConnDestroyed o b].
Proof. unfold add_destroyed. case_bool_decide; auto. Qed.

Lemma add_notify_conns o s w :
  ((b ∈ subscribers w o s) /\ conns (add_notify o s b w) = conns w) \/
  ((b ∉ subscribers w o s) /\ conns (add_notify o s b w) = conns w ++ [ConnNotify o s b]).
Proof. unfold add_notify. case_bool_decide; auto. Qed.

Lemma add_destroyed_mappers o w : mappers (add_destroyed o b w) = mappers w.
Proof. unfold add_destroyed. by case_bool_decide. Qed.

Lemma add_notify_mappers o s w : mappers (add_notify o s b w) = mappers w.
Proof. unfold add_notify. by case_bool_decide. Qed.

Lemma add_destroyed_posted o w : posted (add_destroyed o b w) = posted w.
Proof. unfold add_destroyed. by case_bool_decide. Qed.

Lemma add_notify_posted o s w : posted (add_notify o s b w) = posted w.
Proof. unfold add_notify. by case_bool_decide. Qed.

Lemma subscribers_add_destroyed o w o' s' :
  subscribers (add_destroyed o b w) o' s' = subscribers w o' s'.
Proof.
  unfold subscribers. destruct (add_destroyed_conns o w) as [->| ->]; [done|].
  rewrite omap_snoc. simpl. by rewrite app_nil_r.
Qed.

Lemma functors_add_destroyed o w b' :
  functors (add_destroyed o b w) b' = functors w b'.
Proof.
  unfold functors. destruct (add_destroyed_conns o w) as [->| ->]; [done|].
  rewrite omap_snoc. simpl. by rewrite app_nil_r.
Qed.

Lemma functors_add_notify o s w b' :
  functors (add_notify o s b w) b' = functors w b'.
Proof.
  unfold functors. destruct (add_notify_conns o s w) as [[_ ->]|[_ ->]]; [done|].
  rewrite omap_snoc. simpl. by rewrite app_nil_r.
Qed.

(** The subscribers after [connect], for the signal connected and for
    any other. *)
Lemma subscribers_add_notify o s w o' s' :
  subscribers (add_notify o s b w) o' s' =
  if decide ((o' = o /\ s' = s) /\ b ∉ subscribers w o s)
  then subscribers w o s ++ [b] else subscribers w o' s'.
Proof.
  unfold subscribers at 1.
  destruct (add_notify_conns o s w) as [[Hin ->]|[Hin ->]].
  - rewrite decide_False by tauto. done.
  - rewrite omap_snoc. simpl. fold (subscribers w o' s').
    destruct (decide (o = o' /\ s = s')) as [[-> ->]|Hne].
    + rewrite decide_True by done. done.
    + rewrite decide_False by (intros [[-> ->] _]; tauto). by rewrite app_nil_r.
Qed.

Lemma wire1_conns_same o s w : conns (wire1 b o s w) = conns (add_notify o s b (add_destroyed o b w)).
Proof. done. Qed.

Lemma subscribers_wire1 o s w o' s' :
  subscribers (wire1 b o s w) o' s' =
  if decide ((o' = o /\ s' = s) /\ b ∉ subscribers w o s)
  then subscribers w o s ++ [b] else subscribers w o' s'.
Proof.
  change (subscribers (wire1 b o s w) o' s')
    with (subscribers (add_notify o s b (add_destroyed o b w)) o' s').
  rewrite subscribers_add_notify, !subscribers_add_destroyed. done.
Qed.

Lemma functors_wire1 o s w b' : functors (wire1 b o s w) b' = functors w b'.
Proof.
  change (functors (wire1 b o s w) b')
    with (functors (add_notify o s b (add_destroyed o b w)) b').
  by rewrite functors_add_notify, functors_add_destroyed.
Qed.

Lemma posted_wire1 o s w : posted (wire1 b o s w) = posted w.
Proof.
  change (posted (wire1 b o s w))
    with (posted (add_notify o s b (add_destroyed o b w))).
  by rewrite add_notify_posted, add_destroyed_posted.
Qed.

Lemma mappers_wire1 o s w :
  mappers (wire1 b o s w) =
  alter (fun m => {| parent := parent m; objectName := objectName m;
                     intHash := <[o := 0%Z]> (intHash m);
                     wasDeleted := wasDeleted m |}) b (mappers w).
Proof.
  unfold wire1, map_sender. simpl.
  by rewrite add_notify_mappers, add_destroyed_mappers.
Qed.

Lemma conns_wire1 o s w c :
  c ∈ conns (wire1 b o s w) -> c ∈ conns w \/ conn_binding c = b.
Proof.
  rewrite wire1_conns_same.
  destruct (add_notify_conns o s (add_destroyed o b w)) as [[_ ->]|[_ ->]];
    destruct (add_destroyed_conns o w) as [->| ->];
    rewrite ?elem_of_app, ?list_elem_of_singleton; intuition (subst; auto).
Qed.
End wire_step.

Section wire_leaves_facts.
Context (b : MapperId).

Lemma wire_prop_cases w p :
  wire_prop b w p = w \/
  exists o s, mp_notify p = Some s /\ mp_o p = Some o /\ wire_prop b w p = wire1 b o s w.
Proof.
  unfold wire_prop. destruct (mp_notify p) as [s|]; [|by left].
  destruct (mp_o p) as [o|]; [|by left]. right. by exists o, s.
Qed.

Lemma wire_leaves_preserves (P : World -> Prop) ps :
  (forall w o s, P w -> P (wire1 b o s w)) ->
  forall w, P w -> P (wire_leaves b ps w).
Proof.
  intros Hstep. induction ps as [|p ps IH]; intros w Hw; [done|].
  simpl. apply IH.
  destruct (wire_prop_cases w p) as [->|(o & s & _ & _ & ->)]; auto.
Qed.

Lemma wire_leaves_cons p ps w :
  wire_leaves b (p :: ps) w = wire_leaves b ps (wire_prop b w p).
Proof. done. Qed.

Lemma functors_wire_leaves ps w b' :
  functors (wire_leaves b ps w) b' = functors w b'.
Proof.
  apply (wire_leaves_preserves (fun w' => functors w' b' = functors w b')); [|done].
  intros w' o s <-. apply functors_wire1.
Qed.

Lemma posted_wire_leaves ps w : posted (wire_leaves b ps w) = posted w.
Proof.
  apply (wire_leaves_preserves (fun w' => posted w' = posted w)); [|done].
  intros w' o s <-. apply posted_wire1.
Qed.

Lemma length_mappers_wire_leaves ps w :
  length (mappers (wire_leaves b ps w)) = length (mappers w).
Proof.
  apply (wire_leaves_preserves (fun w' => length (mappers w') = length (mappers w)));
    [|done].
  intros w' o s <-. by rewrite mappers_wire1, length_alter.
Qed.

Lemma mappers_wire_leaves_ne ps w b' :
  b' <> b -> mappers (wire_leaves b ps w) !! b' = mappers w !! b'.
Proof.
  intros Hne.
  apply (wire_leaves_preserves (fun w' => mappers w' !! b' = mappers w !! b')); [|done].
  intros w' o s <-. rewrite mappers_wire1. by apply list_lookup_alter_ne.
Qed.

Lemma subscribers_wire_leaves_mono ps w o s b' :
  b' ∈ subscribers w o s -> b' ∈ subscribers (wire_leaves b ps w) o s.
Proof.
  apply (wire_leaves_preserves (fun w' => b' ∈ subscribers w' o s)).
  intros w' o' s' Hin. rewrite subscribers_wire1.
  case_decide as Hd; [|done]. destruct Hd as [[-> ->] _].
  apply elem_of_app. by left.
Qed.

Lemma subscribers_wire_leaves_NoDup ps w o s :
  NoDup (subscribers w o s) -> NoDup (subscribers (wire_leaves b ps w) o s).
Proof.
  apply (wire_leaves_preserves (fun w' => NoDup (subscribers w' o s))).
  intros w' o' s' Hnd. rewrite subscribers_wire1.
  case_decide as Hd; [|done]. destruct Hd as [[-> ->] Hn].
  apply NoDup_app. split; [done|]. split; [|apply NoDup_singleton].
  intros x Hx ->%list_elem_of_singleton. done.
Qed.

Lemma subscribers_wire_leaves_inv ps w o s b' :
  b' ∈ subscribers (wire_leaves b ps w) o s -> b' ∈ subscribers w o s \/ b' = b.
Proof.
  apply (wire_leaves_preserves
           (fun w' => b' ∈ subscribers w' o s -> b' ∈ subscribers w o s \/ b' = b));
    [|auto].
  intros w' o' s' IH. rewrite subscribers_wire1.
  case_decide as Hd; [|done]. destruct Hd as [[-> ->] _].
  rewrite elem_of_app, list_elem_of_singleton. intros [H| ->]; auto.
Qed.

Lemma subscribers_wire_leaves_elem ps w p o s :
  p ∈ ps -> mp_notify p = Some s -> mp_o p = Some o ->
  b ∈ subscribers (wire_leaves b ps w) o s.
Proof.
  intros Hp Hs Ho. revert w. induction Hp as [p ps|p q ps _ IH]; intros w.
  - rewrite wire_leaves_cons. apply subscribers_wire_leaves_mono.
    unfold wire_prop. rewrite Hs, Ho. rewrite subscribers_wire1.
    case_decide as Hd.
    + apply elem_of_app. right. by apply list_elem_of_singleton.
    + destruct (decide (b ∈ subscribers w o s)) as [|Hn]; [done|].
      exfalso. apply Hd. split; [split; reflexivity | exact Hn].
  - rewrite wire_leaves_cons. by apply IH.
Qed.

Lemma conns_wire_leaves ps w c :
  c ∈ conns (wire_leaves b ps w) -> c ∈ conns w \/ conn_binding c = b.
Proof.
  apply (wire_leaves_preserves
           (fun w' => c ∈ conns w' -> c ∈ conns w \/ conn_binding c = b)); [|auto].
  intros w' o s IH [H|H]%conns_wire1; auto.
Qed.

(** The mapper keeps its parent, its name and its life, and gets a mapping
    for the object of every observable leaf. *)

Lemma extends_refl m : extends m m.
Proof. done. Qed.

Lemma extends_trans m1 m2 m3 : extends m1 m2 -> extends m2 m3 -> extends m1 m3.
Proof.
  intros (Ha1 & Ha2 & Ha3 & Ha) (Hb1 & Hb2 & Hb3 & Hb).
  repeat split; try congruence. auto.
Qed.

Lemma mapper_wire1 o s w m :
  mappers w !! b = Some m ->
  exists m', mappers (wire1 b o s w) !! b = Some m' /\ extends m m' /\
             is_Some (intHash m' !! o).
Proof.
  intros Hm.
  exists {| parent := parent m; objectName := objectName m;
            intHash := <[o := 0%Z]> (intHash m); wasDeleted := wasDeleted m |}.
  split; [by rewrite mappers_wire1, list_lookup_alter_eq, Hm|]. split.
  - repeat split; try done. simpl. intros o' Ho'.
    destruct (decide (o = o')) as [->|Hne].
    + rewrite lookup_insert_eq. done.
    + by rewrite lookup_insert_ne.
  - simpl. rewrite lookup_insert_eq. done.
Qed.

Lemma mapper_wire_prop w p m :
  mappers w !! b = Some m ->
  exists m', mappers (wire_prop b w p) !! b = Some m' /\ extends m m' /\
             forall o s, mp_notify p = Some s -> mp_o p = Some o ->
                         is_Some (intHash m' !! o).
Proof.
  intros Hm. unfold wire_prop.
  destruct (mp_notify p) as [s|]; [|by exists m].
  destruct (mp_o p) as [o|]; [|by exists m].
  destruct (mapper_wire1 o s w m Hm) as (m' & Hm' & He & Hh).
  exists m'. repeat split; try done; try apply He.
  by intros o' s' _ [= <-].
Qed.

Lemma mapper_wire_leaves ps w m :
  mappers w !! b = Some m ->
  exists m', mappers (wire_leaves b ps w) !! b = Some m' /\ extends m m' /\
             forall p o s, p ∈ ps -> mp_notify p = Some s -> mp_o p = Some o ->
                           is_Some (intHash m' !! o).
Proof.
  revert w m. induction ps as [|p ps IH]; intros w m Hm.
  - exists m. repeat split; try done. intros p o s Hp. by apply elem_of_nil in Hp.
  - rewrite wire_leaves_cons.
    destruct (mapper_wire_prop w p m Hm) as (m1 & Hm1 & He1 & Hh1).
    destruct (IH _ _ Hm1) as (m2 & Hm2 & He2 & Hh2).
    exists m2. split; [done|]. split; [by eapply extends_trans|].
    intros q o s [->|Hq]%elem_of_cons Hs Ho.
    + apply He2. by eapply Hh1.
    + by eapply Hh2.
Qed.

(** Without an observable leaf nothing is wired. *)
Lemma wire_leaves_not_observable ps w :
  existsb hasNotifySignal ps = false -> wire_leaves b ps w = w.
Proof.
  revert w. induction ps as [|p ps IH]; intros w H; [done|].
  simpl in H. apply orb_false_iff in H as [Hp Hps].
  rewrite wire_leaves_cons. unfold wire_prop.
  unfold hasNotifySignal in Hp. destruct (mp_notify p); [done|]. by apply IH.
Qed.
End wire_leaves_facts.

(** ** The mapper wired by [bindTo] *)

Lemma subscribers_add_mapped b r func e ty w o s :
  subscribers (add_mapped b r func e ty w) o s = subscribers w o s.
Proof. unfold subscribers, add_mapped. simpl. rewrite omap_snoc. simpl. apply app_nil_r. Qed.

Lemma functors_add_mapped b r func e ty w :
  functors (add_mapped b r func e ty w) b = functors w b ++ [(r, func, e, ty)].
Proof.
  unfold functors, add_mapped. simpl. rewrite omap_snoc. simpl.
  by rewrite decide_True.
Qed.

Lemma functors_add_mapped_ne b b' r func e ty w :
  b' <> b -> functors (add_mapped b r func e ty w) b' = functors w b'.
Proof.
  intros Hne. unfold functors, add_mapped. simpl. rewrite omap_snoc. simpl.
  rewrite decide_False by done. apply app_nil_r.
Qed.

Lemma subscribers_drop_sent_by b w o s :
  subscribers (drop_sent_by b w) o s = subscribers w o s.
Proof.
  unfold subscribers, drop_sent_by. simpl. apply omap_filter_keep.
  intros [] [x Hx]; simpl in *; try done.
Qed.

Lemma watchers_drop_sent_by b w o :
  watchers (drop_sent_by b w) o = watchers w o.
Proof.
  unfold watchers, drop_sent_by. simpl. apply omap_filter_keep.
  intros [] [x Hx]; simpl in *; try done.
Qed.

Lemma functors_drop_sent_by b w : functors (drop_sent_by b w) b = [].
Proof.
  unfold functors, drop_sent_by. simpl.
  induction (conns w) as [|c l IH]; [done|].
  rewrite filter_cons. destruct (decide (sent_by b c = false)) as [Hc|Hc].
  - rewrite omap_cons_eq, IH. destruct c; simpl in *; try done.
    case_bool_decide; [done|]. by rewrite decide_False.
  - done.
Qed.

Lemma functors_drop_sent_by_ne b b' w :
  b' <> b -> functors (drop_sent_by b w) b' = functors w b'.
Proof.
  intros Hne. unfold functors, drop_sent_by. simpl. apply omap_filter_keep.
  intros [] [x Hx]; simpl in *; try done.
  case_decide; [|done]. subst. by rewrite bool_decide_eq_false_2.
Qed.

Lemma functors_out_of_range w b :
  (forall c, c ∈ conns w -> conn_binding c <> b) -> functors w b = [].
Proof.
  unfold functors. induction (conns w) as [|c l IH]; intros H; [done|].
  rewrite omap_cons_eq, IH by (intros c' Hc'; apply H; by right).
  destruct c; simpl; try done.
  rewrite decide_False; [done|].
  apply (H (ConnMapped binding rece func expr type)). by left.
Qed.

Lemma subscribers_out_of_range w b o s :
  (forall c, c ∈ conns w -> conn_binding c <> b) -> b ∉ subscribers w o s.
Proof.
  intros H (c & Hc & Hr)%list_elem_of_omap.
  destruct c; simpl in Hr; try done. case_decide; [|done].
  injection Hr as ->. by apply (H _ Hc).
Qed.

Lemma child_named_Some w r n b :
  child_named w r n = Some b ->
  exists m, mappers w !! b = Some m /\ is_child r n m.
Proof.
  unfold child_named. destruct (list_find _ _) as [[i m]|] eqn:E; [|done].
  intros [= <-]. apply list_find_Some in E as (Hm & Hc & _). eauto.
Qed.

Lemma fresh_mapper_lookup r n w :
  mappers (rename_mapper (length (mappers w)) n (add_mapper r w))
    !! length (mappers w)
  = Some {| parent := r; objectName := n; intHash := ∅; wasDeleted := false |}.
Proof.
  unfold rename_mapper, add_mapper. simpl.
  rewrite list_lookup_alter_eq, list_lookup_middle by done. done.
Qed.

Lemma fresh_mapper_lookup_ne r n w b :
  b <> length (mappers w) ->
  mappers (rename_mapper (length (mappers w)) n (add_mapper r w)) !! b
  = mappers w !! b.
Proof.
  intros Hne. unfold rename_mapper, add_mapper. simpl.
  rewrite list_lookup_alter_ne by done.
  destruct (decide (b < length (mappers w))%nat).
  - by rewrite lookup_app_l.
  - rewrite !lookup_ge_None_2; [done| lia |]. rewrite length_app. simpl. lia.
Qed.

(** The state left by a [bindTo] of an observable expression: one mapper of
    the receiver carries the name, is alive, has the functor of this call as
    its only functor, and is subscribed once to the signal of every
    observable leaf, with a mapping for its object. *)
Lemma bindTo_observable_wiring r func ty n e w w1 :
  World_ok w ->
  bindTo_impl r func ty n e w = Ok tt w1 ->
  isObservable e = true ->
  valid_slot func = true /\
  exists b m,
    (existing_fan_in w r n = Some b \/
     (existing_fan_in w r n = None /\ b = length (mappers w)))
    /\ mappers w1 !! b = Some m
    /\ parent m = r /\ objectName m = n /\ wasDeleted m = false
    /\ functors w1 b = [(r, func, e, ty)]
    /\ (forall p o s, p ∈ leaf_props e -> mp_notify p = Some s -> mp_o p = Some o ->
          is_Some (intHash m !! o) /\ b ∈ subscribers w1 o s)
    /\ (forall o s, NoDup (subscribers w1 o s)).
Proof.
  intros Hok H Hobs. rewrite bindTo_impl_eq, Hobs in H.
  destruct (valid_slot func); [|done]. split; [done|]. simpl in H.
  destruct (forallb hasNotifySignal (leaf_props e)); [|done]. simpl in H.
  destruct (receiver_gone w r) eqn:Hr; [done|].
  assert (Hgen : forall b W0 m0,
    call r func e (wired r func ty e b W0) = Ok tt w1 ->
    mappers W0 !! b = Some m0 -> functors W0 b = [] ->
    (forall o s, subscribers W0 o s = subscribers w o s) ->
    exists m, mappers w1 !! b = Some m /\ extends m0 m
      /\ functors w1 b = [(r, func, e, ty)]
      /\ (forall p o s, p ∈ leaf_props e -> mp_notify p = Some s ->
            mp_o p = Some o -> is_Some (intHash m !! o) /\ b ∈ subscribers w1 o s)
      /\ (forall o s, NoDup (subscribers w1 o s))).
  { intros b W0 m0 Hcall Hm0 Hf0 Hs0.
    destruct (oblivious_wiring _ _ _ _ (oblivious_call r func e) Hcall)
      as (Hm & Hc & _).
    destruct (mapper_wire_leaves b (leaf_props e) W0 m0 Hm0) as (m & Hm1 & He & Hh).
    exists m. split; [by rewrite Hm|]. split; [done|].
    assert (Hsub : forall o s, subscribers w1 o s
                     = subscribers (wire_leaves b (leaf_props e) W0) o s).
    { intros o s. unfold subscribers at 1. rewrite Hc.
      apply subscribers_add_mapped. }
    split; [|split].
    - unfold functors. rewrite Hc. fold (functors (wired r func ty e b W0) b).
      unfold wired. by rewrite functors_add_mapped, functors_wire_leaves, Hf0.
    - intros p o s Hp Hs Ho. split; [by eapply Hh|].
      rewrite Hsub. by eapply subscribers_wire_leaves_elem.
    - intros o s. rewrite Hsub. apply subscribers_wire_leaves_NoDup.
      rewrite Hs0. apply Hok. }
  destruct (existing_fan_in w r n) as [b|] eqn:Hex.
  - destruct (leaves_alive w (leaf_props e)); [|done].
    destruct r as [rr|]; [|done]. simpl in Hex.
    destruct (child_named_Some _ _ _ _ Hex) as (m0 & Hm0 & Hp & Hn & Hd).
    destruct (Hgen b (drop_sent_by b w) m0 H) as (m & Hm & He & Hrest);
      [done | apply functors_drop_sent_by | apply subscribers_drop_sent_by |].
    exists b, m. split; [by left|]. split; [done|].
    destruct He as (E1 & E2 & E3 & _). destruct Hrest as (Hf & Hl & Hnd).
    split; [congruence|]. split; [congruence|]. split; [congruence|]. done.
  - destruct (leaves_alive w (leaf_props e)); [|done].
    assert (Hfresh : forall c, c ∈ conns w -> conn_binding c <> length (mappers w)).
    { intros c Hc. pose proof (ok_range w Hok c Hc). lia. }
    destruct (Hgen _ _ _ H (fresh_mapper_lookup r n w)) as (m & Hm & He & Hrest).
    { by apply functors_out_of_range. }
    { done. }
    exists (length (mappers w)), m. split; [by right|]. split; [done|].
    destruct He as (E1 & E2 & E3 & _). destruct Hrest as (Hf & Hl & Hnd).
    split; [done|]. split; [done|]. split; [done|]. done.
Qed.

(** ** Delivery of a notification *)

Lemma unit_bind_ret (m : M unit) w :
  bindM (bindM m (fun y => bindM (ret []) (fun ys => ret (y :: ys))))
        (fun _ : list unit => ret tt) w = m w.
Proof. unfold bindM, ret. by destruct (m w) as [[] w'|f]. Qed.

Lemma emit_mappedInt_single b r func e ty w :
  functors w b = [(r, func, e, ty)] -> ty <> QueuedConnection ->
  emit_mappedInt b w = call r func e w.
Proof.
  intros Hf Hty. unfold emit_mappedInt. unfold bindM at 1, get_world.
  rewrite Hf. simpl for_each. rewrite unit_bind_ret.
  unfold deliver_mapped. by destruct ty.
Qed.

Lemma QSignalMapper_map_mapped b o w m :
  mappers w !! b = Some m -> wasDeleted m = false -> is_Some (intHash m !! o) ->
  QSignalMapper_map b o w = emit_mappedInt b w.
Proof.
  intros Hm Hd [x Hx]. unfold QSignalMapper_map, bindM at 1, get_world.
  by rewrite Hm, Hd, Hx.
Qed.

Lemma emit_notify_single o s w b :
  o ∉ dead w -> subscribers w o s = [b] ->
  emit_notify o s w = QSignalMapper_map b o w.
Proof.
  intros Hd Hs. unfold emit_notify, bindM at 1, deref.
  rewrite bool_decide_eq_false_2 by done.
  unfold bindM at 1, get_world. rewrite Hs. simpl for_each.
  apply unit_bind_ret.
Qed.

Lemma World_ok_unwired w : mappers w = [] -> conns w = [] -> World_ok w.
Proof.
  intros Hm Hc. split.
  - intros c Hin. rewrite Hc in Hin. by apply elem_of_nil in Hin.
  - intros o s. unfold subscribers. rewrite Hc. apply NoDup_nil_2.
  - intros r n b1 b2 m1 m2 H1. by rewrite Hm in H1.
  - intros b. unfold functors. rewrite Hc. simpl. lia.
Qed.



(** The scenario of the specification: [C = A + B] with 2 and 3 gives 5;
    after A becomes 10 and notifies, C is 13 by one evaluation and one set. *)
Example sum_follows_its_inputs :
  attrs bound_app !! (3%nat, "value") = Some (VInt 5)
  /\ (fun w => (attrs w !! (3%nat, "value"), log w)) <$>
       outcome ((set (slider 1) (VInt 10);; emit_notify 1%nat "valueChanged")
                  (with_log (fun _ => []) bound_app))
     = Some (Some (VInt 13),
             [EvSet 1%nat "value" (VInt 10); EvGet 1%nat "value";
              EvGet 2%nat "value"; EvSet 3%nat "value" (VInt 13)]).
Proof. split; vm_compute; reflexivity. Qed.

(** ** Expressions that are not observable *)

Lemma fresh_mapper_mappers r n w :
  mappers (rename_mapper (length (mappers w)) n (add_mapper r w))
  = mappers w ++ [fresh_mapper r n].
Proof.
  unfold rename_mapper, add_mapper. simpl.
  apply list_eq. intros i.
  destruct (decide (i = length (mappers w))) as [->|Hne].
  - rewrite list_lookup_alter_eq, !list_lookup_middle by done. done.
  - rewrite list_lookup_alter_ne by done.
    destruct (decide (i < length (mappers w))%nat).
    + by rewrite !lookup_app_l.
    + rewrite !lookup_ge_None_2; [done | |]; rewrite length_app; simpl; lia.
Qed.

Lemma watchers_add_mapped b r func e ty w o :
  watchers (add_mapped b r func e ty w) o = watchers w o.
Proof. unfold watchers, add_mapped. simpl. rewrite omap_snoc. simpl. apply app_nil_r. Qed.

Lemma delete_pending_post_delete b w : delete_pending (post_delete b w) b = true.
Proof.
  unfold post_delete. destruct (delete_pending w b) eqn:E; [done|].
  unfold delete_pending. simpl. rewrite existsb_app. simpl.
  rewrite bool_decide_eq_true_2 by done. by rewrite orb_true_r.
Qed.


(** An accessor without notify signal.  [bind1] means to skip it
    ([if constexpr (!MetaProp::hasNotifySignal) return;]), but
    the statements after the [if constexpr] are instantiated all the same
    and name [MetaProp::notify()]: binding an expression that reads such an
    accessor is rejected by the compiler, and nothing is evaluated or
    applied. *)
Example snapshot_of_a_property_without_notify_signal_is_rejected :
  isObservable level5 = false
  /\ eval level5 app = Ok (VInt 7) (logged [EvGet 5%nat "level"] app)
  /\ bindTo (slider 3) AutoConnection level5 app = Err IllTyped.
Proof. split; [reflexivity|]. split; reflexivity. Qed.




(** ** The invariants are kept *)

Lemma World_ok_ext w w' :
  mappers w' = mappers w -> conns w' = conns w -> World_ok w -> World_ok w'.
Proof.
  intros Hm Hc [H1 H2 H3 H4]. split.
  - intros c. rewrite Hc, Hm. apply H1.
  - intros o s. unfold subscribers. rewrite Hc. apply H2.
  - intros r n b1 b2 m1 m2. rewrite Hm. apply H3.
  - intros b. unfold functors. rewrite Hc. apply H4.
Qed.

Lemma lookup_wire_leaves b ps w b' m' :
  mappers (wire_leaves b ps w) !! b' = Some m' ->
  exists m, mappers w !! b' = Some m /\ extends m m'.
Proof.
  intros Hm'. destruct (decide (b' = b)) as [->|Hne].
  - destruct (mappers w !! b) as [m|] eqn:Hm.
    + destruct (mapper_wire_leaves b ps w m Hm) as (m1 & Hm1 & He & _).
      exists m. split; [done|]. congruence.
    + apply lookup_lt_Some in Hm'. rewrite length_mappers_wire_leaves in Hm'.
      apply lookup_ge_None in Hm. lia.
  - rewrite mappers_wire_leaves_ne in Hm' by done. exists m'. split; [done|].
    apply extends_refl.
Qed.

Lemma is_child_extends r n m m' : extends m m' -> is_child r n m' -> is_child r n m.
Proof.
  intros (E1 & E2 & E3 & _) (H1 & H2 & H3). unfold is_child. repeat split; congruence.
Qed.

(** The state in which [call] runs after the wiring satisfies the
    invariants, if the state before did, but for the functors of the mapper
    being wired, which has none. *)
Lemma World_ok_wired r func ty e b W0 :
  (forall c, c ∈ conns W0 -> (conn_binding c < length (mappers W0))%nat) ->
  (b < length (mappers W0))%nat ->
  (forall o s, NoDup (subscribers W0 o s)) ->
  (forall r n b1 b2 m1 m2,
     mappers W0 !! b1 = Some m1 -> mappers W0 !! b2 = Some m2 ->
     is_child r n m1 -> is_child r n m2 -> b1 = b2) ->
  functors W0 b = [] ->
  (forall b', b' <> b -> (length (functors W0 b') <= 1)%nat) ->
  World_ok (wired r func ty e b W0).
Proof.
  intros Hrange Hb Huniq Hnames Hf Hfs. split.
  - intros c. unfold wired, add_mapped. simpl.
    rewrite length_mappers_wire_leaves, elem_of_app, list_elem_of_singleton.
    intros [[Hc| ->]%conns_wire_leaves| ->]; simpl; auto.
  - intros o s. unfold wired. rewrite subscribers_add_mapped.
    by apply subscribers_wire_leaves_NoDup.
  - intros r' n' b1 b2 m1 m2 H1 H2 C1 C2.
    apply lookup_wire_leaves in H1 as (m1' & H1 & E1).
    apply lookup_wire_leaves in H2 as (m2' & H2 & E2).
    eapply Hnames; eauto using is_child_extends.
  - intros b'. unfold wired. destruct (decide (b' = b)) as [->|Hne].
    + rewrite functors_add_mapped, functors_wire_leaves, Hf. simpl. lia.
    + rewrite functors_add_mapped_ne, functors_wire_leaves by done. by apply Hfs.
Qed.

Lemma child_named_None w r n b m :
  child_named w r n = None -> mappers w !! b = Some m -> ~ is_child r n m.
Proof.
  unfold child_named. destruct (list_find _ _) eqn:E; [done|]. intros _ Hm.
  apply list_find_None in E. by eapply Forall_lookup_1 in E.
Qed.

(** [bindTo] keeps the invariants. *)
Lemma bindTo_keeps_World_ok r func ty n e w w1 :
  World_ok w -> bindTo_impl r func ty n e w = Ok tt w1 -> World_ok w1.
Proof.
  intros Hok H. rewrite bindTo_impl_eq in H.
  destruct (valid_slot func); [|done]. simpl in H.
  destruct (forallb hasNotifySignal (leaf_props e)); [|done]. simpl in H.
  destruct (receiver_gone w r) eqn:Hr; [done|].
  assert (Hcall : forall W, World_ok W -> call r func e W = Ok tt w1 -> World_ok w1).
  { intros W HW Hc.
    destruct (oblivious_wiring _ _ _ _ (oblivious_call r func e) Hc) as (Hm & Hcs & _).
    by apply (World_ok_ext W). }
  destruct (existing_fan_in w r n) as [b|] eqn:Hex.
  - destruct r as [rr|]; [|done]. simpl in Hex.
    destruct (child_named_Some _ _ _ _ Hex) as (m0 & Hm0 & Hchild).
    destruct (isObservable e).
    + destruct (leaves_alive w (leaf_props e)); [|done].
      eapply Hcall; [|exact H]. apply World_ok_wired.
      * intros c [_ Hc]%list_elem_of_filter. by apply Hok.
      * by apply lookup_lt_Some in Hm0.
      * intros o s. rewrite subscribers_drop_sent_by. apply Hok.
      * apply Hok.
      * apply functors_drop_sent_by.
      * intros b' Hne. rewrite functors_drop_sent_by_ne by done. apply Hok.
    + destruct (call (Some rr) func e w) as [[] w2|f] eqn:Hc; [|done].
      simpl in H. injection H as <-.
      destruct (oblivious_wiring _ _ _ _ (oblivious_call (Some rr) func e) Hc)
        as (Hm & Hcs & _).
      apply (World_ok_ext w); [| |done].
      * unfold post_delete. by destruct (delete_pending w2 b).
      * unfold post_delete. by destruct (delete_pending w2 b).
  - destruct (leaves_alive w (leaf_props e)); [|done].
    eapply Hcall; [|exact H]. apply World_ok_wired.
    + intros c Hc. rewrite fresh_mapper_mappers, length_app. simpl.
      pose proof (ok_range w Hok c Hc). lia.
    + rewrite fresh_mapper_mappers, length_app. simpl. lia.
    + apply Hok.
    + intros r' n' b1 b2 m1 m2. rewrite fresh_mapper_mappers.
      intros H1 H2 C1 C2.
      assert (Hfresh : ~ is_child r' n' (fresh_mapper r n) \/
                       (r = Some r' /\ n = n')).
      { destruct (decide (r = Some r' /\ n = n')); [by right|]. left.
        intros (P1 & P2 & _). simpl in *. tauto. }
      apply lookup_app_Some in H1 as [H1|[Hl1 H1]];
        apply lookup_app_Some in H2 as [H2|[Hl2 H2]].
      * by eapply (ok_names w Hok).
      * apply list_lookup_singleton_Some in H2 as [_ <-].
        destruct Hfresh as [Hn|[-> ->]]; [done|].
        simpl in Hex. by destruct (child_named_None _ _ _ _ _ Hex H1).
      * apply list_lookup_singleton_Some in H1 as [_ <-].
        destruct Hfresh as [Hn|[-> ->]]; [done|].
        simpl in Hex. by destruct (child_named_None _ _ _ _ _ Hex H2).
      * apply list_lookup_singleton_Some in H1 as [E1 _].
        apply list_lookup_singleton_Some in H2 as [E2 _]. lia.
    + apply functors_out_of_range. intros c Hc.
      pose proof (ok_range w Hok c Hc). lia.
    + intros b' _. apply Hok.
Qed.

Lemma oblivious_keeps_World_ok {A} (m : M A) w a w' :
  oblivious m -> World_ok w -> m w = Ok a w' -> World_ok w'.
Proof.
  intros Hm Hok H. destruct (oblivious_wiring _ _ _ _ Hm H) as (E1 & E2 & _).
  by apply (World_ok_ext w).
Qed.

Lemma World_ok_fewer w w' :
  (forall c, c ∈ conns w' -> c ∈ conns w) ->
  (forall o s, subscribers w' o s `sublist_of` subscribers w o s) ->
  (forall b, functors w' b `sublist_of` functors w b) ->
  length (mappers w') = length (mappers w) ->
  (forall b m', mappers w' !! b = Some m' ->
     exists m, mappers w !! b = Some m /\
               forall r n, is_child r n m' -> is_child r n m) ->
  World_ok w -> World_ok w'.
Proof.
  intros Hc Hs Hf Hl Hm [H1 H2 H3 H4]. split.
  - intros c Hin. rewrite Hl. by apply H1, Hc.
  - intros o s. eapply sublist_NoDup; [apply H2 | apply Hs].
  - intros r n b1 b2 m1 m2 L1 L2 C1 C2.
    destruct (Hm _ _ L1) as (m1' & L1' & K1).
    destruct (Hm _ _ L2) as (m2' & L2' & K2).
    eapply H3; eauto.
  - intros b. pose proof (sublist_length _ _ (Hf b)). pose proof (H4 b). lia.
Qed.

Lemma destroy_mapper_keeps_World_ok b w : World_ok w -> World_ok (destroy_mapper b w).
Proof.
  apply World_ok_fewer.
  - intros c [_ Hc]%list_elem_of_filter. exact Hc.
  - intros o s. apply omap_filter_sublist.
  - intros b'. apply omap_filter_sublist.
  - unfold destroy_mapper. simpl. apply length_alter.
  - intros b' m'. unfold destroy_mapper. simpl.
    destruct (decide (b = b')) as [->|Hne].
    + rewrite list_lookup_alter_eq. destruct (mappers w !! b') as [m|]; [|done].
      intros [= <-]. exists m. split; [done|]. by intros r n (_ & _ & Hd).
    + rewrite list_lookup_alter_ne by done. eauto.
Qed.

Lemma deliver_posted_keeps_World_ok ev w u w' :
  World_ok w -> deliver_posted ev w = Ok u w' -> World_ok w'.
Proof.
  intros Hok. destruct ev as [b|b r func e]; simpl.
  - intros [= _ <-]. by apply destroy_mapper_keeps_World_ok.
  - unfold bindM, get_world. destruct (mappers w !! b) as [m|].
    + destruct (wasDeleted m).
      * by intros [= _ <-].
      * intros Hc. eapply oblivious_keeps_World_ok; [apply (oblivious_call r func e)|done|exact Hc].
    + by intros [= _ <-].
Qed.

Lemma for_each_keeps {A B} (P : World -> Prop) (f : A -> M B) l :
  (forall a w b w', P w -> f a w = Ok b w' -> P w') ->
  forall w bs w', P w -> for_each f l w = Ok bs w' -> P w'.
Proof.
  intros Hf. induction l as [|a l IH]; intros w bs w' Hw H.
  - by injection H as _ <-.
  - rewrite for_each_cons in H.
    destruct (f a w) as [y w1|] eqn:E; [|done].
    destruct (for_each f l w1) as [ys w2|] eqn:E2; [|done].
    injection H as _ <-. eapply IH; [|exact E2]. by eapply Hf.
Qed.

Lemma processEvents_keeps_World_ok w u w' :
  World_ok w -> processEvents w = Ok u w' -> World_ok w'.
Proof.
  intros Hok. unfold processEvents, bindM, get_world, modify.
  destruct (for_each deliver_posted (posted w) _) as [us w1|] eqn:E; [|done].
  intros [= _ <-].
  refine (for_each_keeps World_ok deliver_posted (posted w) _ _ us w1 _ E).
  - intros ev w0 b w0' H0 Hd. by eapply deliver_posted_keeps_World_ok.
  - by apply (World_ok_ext w).
Qed.

Lemma emit_notify_keeps_wiring o s w u w' :
  emit_notify o s w = Ok u w' ->
  mappers w' = mappers w /\ conns w' = conns w.
Proof.
  unfold emit_notify. intros (o' & w0 & (_ & _ & ->)%deref_Ok & H)%bindM_Ok.
  unfold bindM, get_world in H.
  destruct (for_each _ (subscribers w o s) w) as [us w1|] eqn:E; [|done].
  injection H as _ <-.
  refine (for_each_keeps (fun w0 => mappers w0 = mappers w /\ conns w0 = conns w)
            _ _ _ w us w1 (conj eq_refl eq_refl) E).
  intros b w0 [] w0' [Hm Hc] Hb. unfold QSignalMapper_map, bindM, get_world in Hb.
  assert (Hemit : forall w2 w3, emit_mappedInt b w2 = Ok tt w3 ->
             mappers w3 = mappers w2 /\ conns w3 = conns w2).
  { intros w2 w3. unfold emit_mappedInt, bindM, get_world.
    destruct (for_each _ (functors w2 b) w2) as [us' w4|] eqn:E4; [|done].
    intros [= <-].
    refine (for_each_keeps (fun w5 => mappers w5 = mappers w2 /\ conns w5 = conns w2)
              _ _ _ w2 us' w4 (conj eq_refl eq_refl) E4).
    intros [[[r func] e] ty] w5 [] w6 [Hm5 Hc5]. unfold deliver_mapped.
    destruct ty.
    - intros Hcall. destruct (oblivious_wiring _ _ _ _ (oblivious_call r func e) Hcall)
        as (E1 & E2 & _). split; congruence.
    - intros Hcall. destruct (oblivious_wiring _ _ _ _ (oblivious_call r func e) Hcall)
        as (E1 & E2 & _). split; congruence.
    - intros [= <-]. done. }
  destruct (mappers w0 !! b) as [m|]; [|injection Hb as <-; done].
  destruct (wasDeleted m); [injection Hb as <-; done|].
  destruct (intHash m !! o); [|injection Hb as <-; done].
  destruct (Hemit _ _ Hb) as [E1 E2]. split; congruence.
Qed.

Lemma emit_notify_keeps_World_ok o s w u w' :
  World_ok w -> emit_notify o s w = Ok u w' -> World_ok w'.
Proof.
  intros Hok H. destruct (emit_notify_keeps_wiring _ _ _ _ _ H).
  by apply (World_ok_ext w).
Qed.

Lemma for_each_deleteLater_wiring l w us w' :
  for_each deleteLater l w = Ok us w' ->
  mappers w' = mappers w /\ conns w' = conns w /\ same_objects w w'.
Proof.
  refine (for_each_keeps
            (fun w0 => mappers w0 = mappers w /\ conns w0 = conns w /\ same_objects w w0)
            _ _ _ w us w' (conj eq_refl (conj eq_refl (same_objects_refl w)))).
  intros b w0 [] w0' (Hm & Hc & Hs) [= <-].
  unfold post_delete. destruct (delete_pending w0 b); done.
Qed.

Lemma drop_object_wiring_keeps_World_ok o w :
  World_ok w -> World_ok (drop_object_wiring o w).
Proof.
  apply World_ok_fewer.
  - intros c [_ Hc]%list_elem_of_filter. exact Hc.
  - intros s' o'. apply omap_filter_sublist.
  - intros b. apply omap_filter_sublist.
  - unfold drop_object_wiring. simpl. apply length_fmap.
  - intros b m'. unfold drop_object_wiring. simpl. rewrite list_lookup_fmap.
    destruct (mappers w !! b) as [m|]; [|done]. intros [= <-].
    exists m. split; [done|]. by intros r n.
Qed.

Lemma delete_children_keeps_World_ok o w :
  World_ok w -> World_ok (delete_children o w).
Proof.
  intros Hok. unfold delete_children.
  induction (children w o) as [|b l IH]; [done|].
  simpl. by apply destroy_mapper_keeps_World_ok.
Qed.

Lemma destroy_object_Ok o w u w' :
  destroy_object o w = Ok u w' ->
(o ∉ dead w) /\
  exists w0, mappers w0 = mappers w /\ conns w0 = conns w /\ same_objects w w0 /\
    (forall b, b ∈ watchers w o -> delete_pending w0 b = true) /\
    w' = with_dead (fun d => {[o]} ∪ d) (delete_children o (drop_object_wiring o w0)).
Proof.
  unfold destroy_object.
  intros (o' & w0 & ([= <-] & Hd & ->)%deref_Ok & H)%bindM_Ok.
  split; [done|]. unfold bindM, get_world, modify in H.
  destruct (for_each deleteLater (watchers w o) w) as [us w1|] eqn:E; [|done].
  injection H as _ <-.
  destruct (for_each_deleteLater_wiring _ _ _ _ E) as (Hm & Hc & Hs).
  exists w1. repeat split; try done; try apply Hs.
  clear Hm Hc Hs Hd. revert E.
  generalize (watchers w o) as l. intros l. revert w us w1.
  induction l as [|b' l IH]; intros w us w1 E b Hb.
  - by apply elem_of_nil in Hb.
  - rewrite for_each_cons in E. simpl in E.
    destruct (for_each deleteLater l (post_delete b' w)) as [ys w2|] eqn:E2; [|done].
    injection E as _ <-.
    apply elem_of_cons in Hb as [->|Hb]; [|by eapply IH].
    assert (Hmono : forall l0 w3 us3 w4, for_each deleteLater l0 w3 = Ok us3 w4 ->
              delete_pending w3 b' = true -> delete_pending w4 b' = true).
    { intros l0 w3 us3 w4.
      refine (fun E3 H3 => for_each_keeps (fun w5 => delete_pending w5 b' = true)
                deleteLater l0 _ w3 us3 w4 H3 E3).
      intros a w5 [] w6 H5 [= <-]. unfold post_delete.
      destruct (delete_pending w5 a) eqn:Ea; [done|].
      unfold delete_pending in *. simpl. rewrite existsb_app, H5. done. }
    eapply Hmono; [exact E2|]. apply delete_pending_post_delete.
Qed.

Lemma destroy_object_keeps_World_ok o w u w' :
  World_ok w -> destroy_object o w = Ok u w' -> World_ok w'.
Proof.
  intros Hok (_ & w0 & Hm & Hc & _ & _ & ->)%destroy_object_Ok.
  apply (World_ok_ext (delete_children o (drop_object_wiring o w0))); [done..|].
  apply delete_children_keeps_World_ok, drop_object_wiring_keeps_World_ok.
  by apply (World_ok_ext w).
Qed.

(** ** Binding a slot again *)

(** With the names of the children unique, the child of a name is the
    mapper that carries it. *)
Lemma child_named_unique w rr n b m :
  World_ok w -> mappers w !! b = Some m -> is_child rr n m ->
  child_named w rr n = Some b.
Proof.
  intros Hok Hm Hc. unfold child_named.
  destruct (list_find (is_child rr n) (mappers w)) as [[i x]|] eqn:E.
  - apply list_find_Some in E as (Hx & Hcx & _). simpl. f_equal.
    by eapply (ok_names w Hok).
  - apply list_find_None in E. by eapply Forall_lookup_1 in E.
Qed.

(** After [bindTo] with a receiver, the receiver has a child for the slot. *)
Lemma bindTo_leaves_a_child rr func ty n e w w1 :
  bindTo_impl (Some rr) func ty n e w = Ok tt w1 ->
  exists b m, mappers w1 !! b = Some m /\ is_child rr n m.
Proof.
  intros H. rewrite bindTo_impl_eq in H.
  destruct (valid_slot func); [|done]. simpl in H.
  destruct (forallb hasNotifySignal (leaf_props e)); [|done]. simpl in H.
  destruct (bool_decide (rr ∈ dead w)); [done|].
  assert (Hgen : forall b W0 m0,
    call (Some rr) func e (wired (Some rr) func ty e b W0) = Ok tt w1 ->
    mappers W0 !! b = Some m0 -> is_child rr n m0 ->
    exists b m, mappers w1 !! b = Some m /\ is_child rr n m).
  { intros b W0 m0 Hcall Hm0 (C1 & C2 & C3).
    destruct (oblivious_wiring _ _ _ _ (oblivious_call (Some rr) func e) Hcall)
      as (Hm & _).
    destruct (mapper_wire_leaves b (leaf_props e) W0 m0 Hm0)
      as (m & Hm1 & (E1 & E2 & E3 & _) & _).
    exists b, m. split; [by rewrite Hm|]. unfold is_child.
    repeat split; congruence. }
  destruct (child_named w rr n) as [b|] eqn:Hex.
  - destruct (child_named_Some _ _ _ _ Hex) as (m0 & Hm0 & Hchild).
    destruct (isObservable e).
    + destruct (leaves_alive w (leaf_props e)); [|done]. by eapply Hgen.
    + destruct (call (Some rr) func e w) as [[] w2|f] eqn:Hc; [|done].
      injection H as <-.
      destruct (oblivious_wiring _ _ _ _ (oblivious_call (Some rr) func e) Hc)
        as (Hm & _).
      exists b, m0. split; [|done].
      unfold post_delete. destruct (delete_pending w2 b); simpl; by rewrite Hm.
  - destruct (leaves_alive w (leaf_props e)); [|done].
    eapply Hgen; [exact H | apply fresh_mapper_lookup | done].
Qed.

(** X17. In the states reached through the headers the children of a
    receiver have different names, no signal is connected twice to one
    mapper, and a mapper has at most one functor; [bindTo] keeps this.  Two
    calls of [bindTo] for one receiver and one name use one and the same
    mapper.  If the second expression is observable, the functor of the
    second call is the only functor left on it, so that a firing of a source
    runs one evaluate-and-apply, that of the second call; if it is not, no
    functor is added and the mapper is scheduled for deferred deletion. *)
Theorem rebinding_reuses_the_mapper_and_replaces_the_functor
    (rr : ObjId) (n : string)
    (func1 func2 : Func) (ty1 ty2 : ConnectionType) (e1 e2 : BindingExpr)
    (w w1 w2 : World) :
  World_ok w ->
  bindTo_impl (Some rr) func1 ty1 n e1 w = Ok tt w1 ->
  bindTo_impl (Some rr) func2 ty2 n e2 w1 = Ok tt w2 ->
  World_ok w1 /\ World_ok w2 /\
  exists b,
    child_named w1 rr n = Some b /\ child_named w2 rr n = Some b
    /\ (isObservable e2 = true -> functors w2 b = [(Some rr, func2, e2, ty2)])
    /\ (isObservable e2 = false ->
        functors w2 b = functors w1 b /\ delete_pending w2 b = true).
Proof.
  intros Hok H1 H2.
  pose proof (bindTo_keeps_World_ok _ _ _ _ _ _ _ Hok H1) as Hok1.
  pose proof (bindTo_keeps_World_ok _ _ _ _ _ _ _ Hok1 H2) as Hok2.
  split; [done|]. split; [done|].
  destruct (bindTo_leaves_a_child _ _ _ _ _ _ _ H1) as (b & m & Hm & Hc).
  pose proof (child_named_unique _ _ _ _ _ Hok1 Hm Hc) as Hb1.
  destruct (bindTo_leaves_a_child _ _ _ _ _ _ _ H2) as (b2 & m2 & Hm2 & Hc2).
  pose proof (child_named_unique _ _ _ _ _ Hok2 Hm2 Hc2) as Hb2.
  exists b. split; [done|].
  destruct (isObservable e2) eqn:Hobs.
  - destruct (bindTo_observable_wiring _ _ _ _ _ _ _ Hok1 H2 Hobs)
      as (_ & b' & m' & Hex & Hm' & Hp & Hn & Hd & Hf & _).
    simpl in Hex. rewrite Hb1 in Hex. destruct Hex as [[= <-]|[[=] _]].
    assert (b2 = b) as ->.
    { eapply (ok_names w2 Hok2); [exact Hm2 | exact Hm' | exact Hc2 | done]. }
    split; [done|]. split; [done|]. done.
  - rewrite bindTo_impl_eq in H2.
    destruct (valid_slot func2); [|done]. simpl in H2.
    destruct (forallb hasNotifySignal (leaf_props e2)); [|done]. simpl in H2.
    destruct (bool_decide (rr ∈ dead w1)); [done|].
    rewrite Hb1, Hobs in H2.
    destruct (call (Some rr) func2 e2 w1) as [[] w'|f] eqn:Hcall; [|done].
    injection H2 as <-.
    destruct (oblivious_wiring _ _ _ _ (oblivious_call (Some rr) func2 e2) Hcall)
      as (Hmw & Hcw & _).
    assert (Hconns : conns (post_delete b w') = conns w1).
    { unfold post_delete. by destruct (delete_pending w' b). }
    assert (Hmaps : mappers (post_delete b w') = mappers w1).
    { unfold post_delete. by destruct (delete_pending w' b). }
    split.
    { apply (child_named_unique _ _ _ _ m); [done | by rewrite Hmaps | done]. }
    split; [done|]. intros _. split.
    + unfold functors. by rewrite Hconns.
    + apply delete_pending_post_delete.
Qed.

Lemma rebinding_reuses_the_mapper_and_replaces_the_functor_witness :
  World_ok bound_app /\ World_ok rebound_app /\
  exists b,
    child_named bound_app 3%nat "nwidget_binding_on_value" = Some b
    /\ child_named rebound_app 3%nat "nwidget_binding_on_value" = Some b
    /\ (isObservable diff12 = true ->
        functors rebound_app b
        = [(Some 3%nat, FProperty (slider 3), diff12, AutoConnection)])
    /\ (isObservable diff12 = false ->
        functors rebound_app b = functors bound_app b
        /\ delete_pending rebound_app b = true).
Proof.
  apply (rebinding_reuses_the_mapper_and_replaces_the_functor
           3%nat "nwidget_binding_on_value"
           (FProperty (slider 3)) (FProperty (slider 3))
           AutoConnection AutoConnection sum12 diff12 app).
  - apply World_ok_unwired; reflexivity.
  - vm_compute. reflexivity.
  - vm_compute. reflexivity.
Defined.

(** The subscription of a former source survives the rebinding:
    [disconnect()] removes what the mapper sends, not what it receives.
    Slider 3 is bound to slider 2 alone, yet a firing of slider 1 still runs
    the functor. *)
Example former_source_still_triggers :
  operator_assign_expr (slider 3) only2 bound_app = Ok tt narrowed_app
  /\ subscribers narrowed_app 1%nat "valueChanged" = [0%nat]
  /\ log <$> outcome (emit_notify 1%nat "valueChanged"
                        (with_log (fun _ => []) narrowed_app))
     = Some [EvGet 2%nat "value"; EvSet 3%nat "value" (VInt 3)].
Proof.
  split; [vm_compute; reflexivity|]. split; vm_compute; reflexivity.
Qed.

(** ** Destruction of the object of a leaf *)

Lemma call_keeps_dead r func e w u w' :
  call r func e w = Ok u w' -> dead w' = dead w.
Proof.
  assert (Heval : forall w0 v w1, eval e w0 = Ok v w1 -> dead w1 = dead w0).
  { intros w0 v w1 (evs & -> & _)%eval_logged. done. }
  assert (Hslot : forall s a w0 u0 w1, invoke_slot r s a w0 = Ok u0 w1 -> dead w1 = dead w0).
  { intros s a w0 u0 w1. unfold invoke_slot.
    intros (o & w2 & (_ & _ & ->)%deref_Ok & [= _ <-])%bindM_Ok. done. }
  unfold call. destruct func as [p|s i0 i1|f i0 i1].
  - intros (v & w1 & H1 & (o & _ & _ & _ & ->)%set_Ok)%bindM_Ok.
    simpl. by eapply Heval.
  - destruct i0; [apply Hslot|]. destruct i1; [|by intros [= _ <-]].
    intros (v & w1 & H1 & H2)%bindM_Ok.
    rewrite (Hslot _ _ _ _ _ H2). by eapply Heval.
  - destruct i0; [by intros [= _ <-]|]. destruct i1; [|by intros [= _ <-]].
    intros (v & w1 & H1 & [= _ <-])%bindM_Ok. simpl. by eapply Heval.
Qed.

Lemma watchers_add_notify b o s w o' :
  watchers (add_notify o s b w) o' = watchers w o'.
Proof.
  unfold watchers. destruct (add_notify_conns b o s w) as [[_ ->]|[_ ->]]; [done|].
  rewrite omap_snoc. simpl. apply app_nil_r.
Qed.

Lemma watchers_add_destroyed_mono b o w o' b' :
  b' ∈ watchers w o' -> b' ∈ watchers (add_destroyed o b w) o'.
Proof.
  unfold watchers. destruct (add_destroyed_conns b o w) as [->| ->]; [done|].
  rewrite omap_snoc, elem_of_app. auto.
Qed.

Lemma watchers_add_destroyed_elem b o w : b ∈ watchers (add_destroyed o b w) o.
Proof.
  unfold add_destroyed. case_bool_decide as H; [done|].
  unfold watchers. simpl. rewrite omap_snoc, elem_of_app. right. simpl.
  rewrite decide_True by done. by apply list_elem_of_singleton.
Qed.

Lemma watchers_wire1_mono b o s w o' b' :
  b' ∈ watchers w o' -> b' ∈ watchers (wire1 b o s w) o'.
Proof.
  intros H.
  change (b' ∈ watchers (add_notify o s b (add_destroyed o b w)) o').
  rewrite watchers_add_notify. by apply watchers_add_destroyed_mono.
Qed.

Lemma watchers_wire_leaves_elem b ps w p o s :
  p ∈ ps -> mp_notify p = Some s -> mp_o p = Some o ->
  b ∈ watchers (wire_leaves b ps w) o.
Proof.
  intros Hp Hs Ho. revert w. induction Hp as [p ps|p q ps _ IH]; intros w.
  - rewrite wire_leaves_cons.
    apply (wire_leaves_preserves b (fun w' => b ∈ watchers w' o)).
    + intros w' o' s'. apply watchers_wire1_mono.
    + unfold wire_prop. rewrite Hs, Ho.
      change (b ∈ watchers (add_notify o s b (add_destroyed o b w)) o).
      rewrite watchers_add_notify. apply watchers_add_destroyed_elem.
  - rewrite wire_leaves_cons. by apply IH.
Qed.

(** After a [bindTo] that succeeded, the mapper watches the destruction of
    the object of every observable leaf, and that object is alive. *)
Lemma bindTo_watches_the_leaves r func ty n e w w1 p o s :
  World_ok w ->
  bindTo_impl r func ty n e w = Ok tt w1 ->
  p ∈ leaf_props e -> mp_notify p = Some s -> mp_o p = Some o ->
  (o ∉ dead w1) /\
  exists b m, mappers w1 !! b = Some m /\ wasDeleted m = false /\
              b ∈ subscribers w1 o s /\ b ∈ watchers w1 o.
Proof.
  intros Hok H Hp Hs Ho.
  assert (Hobs : isObservable e = true).
  { rewrite isObservable_leaves. apply existsb_exists. exists p.
    split; [by apply list_elem_of_In|]. unfold hasNotifySignal. by rewrite Hs. }
  destruct (bindTo_observable_wiring _ _ _ _ _ _ _ Hok H Hobs)
    as (_ & b & m & Hex & Hm & _ & _ & Hd & _ & Hl & _).
  destruct (Hl p o s Hp Hs Ho) as [_ Hin].
  rewrite bindTo_impl_eq, Hobs in H.
  destruct (valid_slot func); [|done]. simpl in H.
  destruct (forallb hasNotifySignal (leaf_props e)); [|done]. simpl in H.
  destruct (receiver_gone w r); [done|].
  assert (Halive : leaves_alive w (leaf_props e) = true).
  { destruct (existing_fan_in w r n); by destruct (leaves_alive w (leaf_props e)). }
  rewrite Halive in H.
  assert (Hgen : forall b' W0,
    call r func e (wired r func ty e b' W0) = Ok tt w1 -> same_objects w W0 ->
    (o ∉ dead w1) /\ b' ∈ watchers w1 o).
  { intros b' W0 Hcall Hs0. split.
    - rewrite (call_keeps_dead _ _ _ _ _ _ Hcall).
      destruct (same_objects_wired r func ty e b' W0) as (_ & _ & -> & _).
      destruct Hs0 as (_ & _ & -> & _).
      unfold leaves_alive in Halive. rewrite forallb_forall in Halive.
      specialize (Halive p). unfold leaf_alive in Halive. rewrite Hs, Ho in Halive.
      assert (Hin' : In p (leaf_props e)) by (by apply list_elem_of_In).
      specialize (Halive Hin'). by apply bool_decide_eq_true in Halive.
    - destruct (oblivious_wiring _ _ _ _ (oblivious_call r func e) Hcall)
        as (_ & Hc & _).
      unfold watchers. rewrite Hc. fold (watchers (wired r func ty e b' W0) o).
      unfold wired. rewrite watchers_add_mapped.
      by eapply watchers_wire_leaves_elem. }
  destruct (existing_fan_in w r n) as [b0|] eqn:Hex0.
  - destruct Hex as [[= <-]|[[=] _]].
    destruct (Hgen _ _ H) as [Hd1 Hw1]; [done|]. split; [done|].
    exists b0, m. done.
  - destruct Hex as [[=]|[_ ->]].
    destruct (Hgen _ _ H) as [Hd1 Hw1]; [done|]. split; [done|].
    eexists _, m. done.
Qed.

Lemma length_mappers_destroy_mapper b w :
  length (mappers (destroy_mapper b w)) = length (mappers w).
Proof. unfold destroy_mapper. simpl. apply length_alter. Qed.

Lemma destroy_mapper_deletes b w :
  (b < length (mappers w))%nat -> deleted (destroy_mapper b w) b.
Proof.
  intros Hb. apply lookup_lt_is_Some_2 in Hb as [m Hm]. split.
  - unfold destroy_mapper. simpl. rewrite list_lookup_alter_eq, Hm. simpl. eauto.
  - intros c [Hc _]%list_elem_of_filter Hb.
    destruct c; simpl in *; subst; by rewrite bool_decide_eq_true_2 in Hc.
Qed.

Lemma destroy_mapper_keeps_deleted b b' w :
  deleted w b -> deleted (destroy_mapper b' w) b.
Proof.
  intros [(m & Hm & Hd) Hc]. split.
  - unfold destroy_mapper. simpl. destruct (decide (b' = b)) as [->|Hne].
    + rewrite list_lookup_alter_eq, Hm. simpl. eauto.
    + rewrite list_lookup_alter_ne by done. eauto.
  - intros c [_ Hin]%list_elem_of_filter. by apply Hc.
Qed.

Lemma destroy_mapper_keeps_pending b b' w :
  b' <> b -> delete_pending w b = true -> delete_pending (destroy_mapper b' w) b = true.
Proof.
  intros Hne. unfold delete_pending, destroy_mapper. simpl.
  induction (posted w) as [|ev l IH]; [done|]. simpl.
  rewrite filter_cons. intros [Hev|Hl]%orb_true_iff.
  - destruct ev as [b0|]; [|done]. apply bool_decide_eq_true in Hev as ->.
    rewrite decide_True; [simpl; by rewrite bool_decide_eq_true_2|].
    simpl. by rewrite bool_decide_eq_false_2.
  - destruct (decide _); simpl; rewrite IH by done; [apply orb_true_r | done].
Qed.

Lemma delete_children_fate o w b :
  (b < length (mappers w))%nat ->
  deleted w b \/ delete_pending w b = true ->
  (b < length (mappers (delete_children o w)))%nat /\
  (deleted (delete_children o w) b \/ delete_pending (delete_children o w) b = true).
Proof.
  intros Hb H. unfold delete_children.
  induction (children w o) as [|b' l IH]; [done|]. cbn [foldr].
  destruct IH as [IHb IH]. split; [by rewrite length_mappers_destroy_mapper|].
  destruct (decide (b' = b)) as [->|Hne].
  - left. by apply destroy_mapper_deletes.
  - destruct IH as [IH|IH].
    + left. by apply destroy_mapper_keeps_deleted.
    + right. by apply destroy_mapper_keeps_pending.
Qed.

Lemma delete_children_conns o w c :
  c ∈ conns (delete_children o w) -> c ∈ conns w.
Proof.
  unfold delete_children. induction (children w o) as [|b' l IH]; [done|].
  cbn [foldr]. unfold destroy_mapper at 1. simpl.
  intros [_ Hc]%list_elem_of_filter. by apply IH.
Qed.

Lemma subscribers_none w o s :
  (forall c, c ∈ conns w -> sent_by_object o c = false) -> subscribers w o s = [].
Proof.
  intros H. unfold subscribers.
  induction (conns w) as [|c l IH]; [done|].
  rewrite omap_cons_eq, IH by (intros c' Hc'; apply H; by right).
  assert (Hc : sent_by_object o c = false) by (apply H; by left).
  destruct c; simpl in *; try done.
  apply bool_decide_eq_false in Hc. rewrite decide_False; [done|]. tauto.
Qed.

(** What the deletion of an object leaves of a mapper that watched it. *)
Lemma destroy_object_fate o w u w' b :
  destroy_object o w = Ok u w' ->
  b ∈ watchers w o -> (b < length (mappers w))%nat ->
  (forall s, subscribers w' o s = [])
  /\ (b < length (mappers w'))%nat
  /\ (deleted w' b \/ delete_pending w' b = true).
Proof.
  intros (_ & w0 & Hm & Hc & _ & Hpend & ->)%destroy_object_Ok Hb Hlt.
  split.
  - intros s. apply subscribers_none. intros c Hin.
    change (c ∈ conns (delete_children o (drop_object_wiring o w0))) in Hin.
    apply delete_children_conns in Hin.
    by apply list_elem_of_filter in Hin as [Hin _].
  - destruct (delete_children_fate o (drop_object_wiring o w0) b) as [H1 H2].
    + unfold drop_object_wiring. simpl. by rewrite length_fmap, Hm.
    + right. by apply Hpend.
    + done.
Qed.

(** Delivery of the posted events deletes the mapper that has a deferred
    delete among them. *)
Lemma deliver_posted_keeps_deleted ev w u w' b :
  deleted w b -> deliver_posted ev w = Ok u w' -> deleted w' b.
Proof.
  intros Hd. destruct ev as [b'|b' r func e]; simpl.
  - intros [= _ <-]. by apply destroy_mapper_keeps_deleted.
  - unfold bindM, get_world.
    assert (Hcall : call r func e w = Ok u w' -> deleted w' b).
    { intros Hc. destruct (oblivious_wiring _ _ _ _ (oblivious_call r func e) Hc)
        as (E1 & E2 & _). unfold deleted. by rewrite E1, E2. }
    destruct (mappers w !! b') as [m|]; [|by intros [= _ <-]].
    destruct (wasDeleted m); [by intros [= _ <-] | done].
Qed.

Lemma deliver_posted_length ev w u w' :
  deliver_posted ev w = Ok u w' -> length (mappers w') = length (mappers w).
Proof.
  destruct ev as [b'|b' r func e]; simpl.
  - intros [= _ <-]. apply length_mappers_destroy_mapper.
  - unfold bindM, get_world.
    assert (Hcall : call r func e w = Ok u w' -> length (mappers w') = length (mappers w)).
    { intros Hc. destruct (oblivious_wiring _ _ _ _ (oblivious_call r func e) Hc)
        as (E1 & _). by rewrite E1. }
    destruct (mappers w !! b') as [m|]; [|by intros [= _ <-]].
    destruct (wasDeleted m); [by intros [= _ <-] | done].
Qed.

Lemma deliver_all_deletes evs b :
  forall w us w',
    (b < length (mappers w))%nat ->
    deleted w b \/ delete_among evs b = true ->
    for_each deliver_posted evs w = Ok us w' -> deleted w' b.
Proof.
  induction evs as [|ev evs IH]; intros w us w' Hb H E.
  - injection E as _ <-. by destruct H.
  - rewrite for_each_cons in E.
    destruct (deliver_posted ev w) as [u w1|] eqn:E1; [|done].
    destruct (for_each deliver_posted evs w1) as [us1 w2|] eqn:E2; [|done].
    injection E as _ <-.
    apply (IH w1 us1); [by rewrite (deliver_posted_length _ _ _ _ E1) | | done].
    destruct H as [H|H]; [left; by eapply deliver_posted_keeps_deleted|].
    simpl in H. apply orb_true_iff in H as [H|H]; [|by right].
    left. destruct ev as [b'|]; [|done]. apply bool_decide_eq_true in H as ->.
    simpl in E1. injection E1 as _ <-. by apply destroy_mapper_deletes.
Qed.

Lemma processEvents_deletes w u w' b :
  (b < length (mappers w))%nat ->
  deleted w b \/ delete_pending w b = true ->
  processEvents w = Ok u w' -> deleted w' b.
Proof.
  intros Hb H. unfold processEvents, bindM, get_world, modify.
  destruct (for_each deliver_posted (posted w) _) as [us w1|] eqn:E; [|done].
  intros [= _ <-].
  refine (deliver_all_deletes (posted w) b (with_posted (fun _ => []) w) us w1 Hb _ E).
  destruct H as [H|H]; [left; exact H | right; exact H].
Qed.

Lemma deleted_mapper_is_silent w b :
  deleted w b ->
  (forall o s, b ∉ subscribers w o s)
  /\ (forall o w2, mappers w2 = mappers w -> QSignalMapper_map b o w2 = Ok tt w2).
Proof.
  intros [(m & Hm & Hd) Hc]. split.
  - intros o s. by apply subscribers_out_of_range.
  - intros o w2 Hm2. unfold QSignalMapper_map, bindM, get_world.
    by rewrite Hm2, Hm, Hd.
Qed.

Lemma for_each_deleteLater_total l w :
  exists us w', for_each deleteLater l w = Ok us w'.
Proof.
  revert w. induction l as [|b l IH]; intros w; [by eexists _, _|].
  rewrite for_each_cons. simpl.
  destruct (IH (post_delete b w)) as (us & w' & ->). by eexists _, _.
Qed.

Lemma destroy_object_total o w :
  o ∉ dead w -> exists w', destroy_object o w = Ok tt w'.
Proof.
  intros Hd. unfold destroy_object, bindM at 1, deref.
  rewrite bool_decide_eq_false_2 by done.
  unfold bindM at 1, get_world. unfold bindM at 1.
  destruct (for_each_deleteLater_total (watchers w o) w) as (us & w1 & ->).
  by eexists.
Qed.

(** Slider 3 is bound to the sum of sliders 1 and 2; slider 1 is deleted;
    before the event loop has run, slider 2 notifies, the functor evaluates
    the expression and reads the deleted slider 1. *)
Example notification_after_a_destroyed_leaf_reads_a_dead_object :
  leaf_props sum12 = [slider 1; slider 2]
  /\ bindTo (slider 3) AutoConnection sum12 app = Ok tt bound_app
  /\ (destroy_object 1%nat;; emit_notify 2%nat "valueChanged") bound_app
     = Err Dangling.
Proof.
  split; [reflexivity|]. split; vm_compute; reflexivity.
Qed.

(** X18.  After a [bindTo] that succeeded, the deletion of the
    object of an observable leaf removes the connections of that object (no
    mapper is subscribed to it any more) and schedules the whole mapper of
    the binding for deferred deletion (or deletes it at once, when the
    object is also its parent).  Once the event loop has delivered the
    posted events, the mapper is deleted and no connection is left with it:
    it is subscribed to no signal, and its slot does nothing, so that
    notifications of the other leaves evaluate nothing and cannot fail. *)
Theorem destroyed_leaf_takes_the_mapper_down
    (r : option ObjId) (func : Func) (ty : ConnectionType) (n : string)
    (e : BindingExpr) (w w1 : World) (p : MetaProperty) (o : ObjId) (s : string) :
  World_ok w ->
  bindTo_impl r func ty n e w = Ok tt w1 ->
  p ∈ leaf_props e -> mp_notify p = Some s -> mp_o p = Some o ->
  exists b w2,
    b ∈ subscribers w1 o s
    /\ destroy_object o w1 = Ok tt w2
    /\ (forall s', subscribers w2 o s' = [])
    /\ (deleted w2 b \/ delete_pending w2 b = true)
    /\ forall u w3, processEvents w2 = Ok u w3 ->
         deleted w3 b
         /\ (forall o' s', b ∉ subscribers w3 o' s')
         /\ (forall o' w4, mappers w4 = mappers w3 ->
               QSignalMapper_map b o' w4 = Ok tt w4).
Proof.
  intros Hok H Hp Hs Ho.
  destruct (bindTo_watches_the_leaves _ _ _ _ _ _ _ _ _ _ Hok H Hp Hs Ho)
    as (Hd & b & m & Hm & _ & Hsub & Hwatch).
  destruct (destroy_object_total o w1 Hd) as (w2 & Hdestroy).
  apply lookup_lt_Some in Hm.
  destruct (destroy_object_fate _ _ _ _ b Hdestroy Hwatch Hm) as (Hnone & Hlt & Hfate).
  exists b, w2. split; [done|]. split; [done|]. split; [done|]. split; [done|].
  intros u w3 Hev.
  pose proof (processEvents_deletes _ _ _ b Hlt Hfate Hev) as Hdel.
  split; [done|]. by apply deleted_mapper_is_silent.
Qed.

Lemma destroyed_leaf_takes_the_mapper_down_witness :
  exists b w2,
    b ∈ subscribers bound_app 1%nat "valueChanged"
    /\ destroy_object 1%nat bound_app = Ok tt w2
    /\ (forall s', subscribers w2 1%nat s' = [])
    /\ (deleted w2 b \/ delete_pending w2 b = true)
    /\ forall u w3, processEvents w2 = Ok u w3 ->
         deleted w3 b
         /\ (forall o' s', b ∉ subscribers w3 o' s')
         /\ (forall o' w4, mappers w4 = mappers w3 ->
               QSignalMapper_map b o' w4 = Ok tt w4).
Proof.
  apply (destroyed_leaf_takes_the_mapper_down
           (Some 3%nat) (FProperty (slider 3)) AutoConnection
           (bindingName (slider 3)) sum12 app bound_app (slider 1)).
  - apply World_ok_unwired; reflexivity.
  - vm_compute. reflexivity.
  - apply list_elem_of_here.
  - reflexivity.
  - reflexivity.
Defined.

(** After the event loop has run, the notification of the other leaf is
    delivered to nobody: nothing is evaluated and nothing is set. *)
Example notification_after_the_event_loop_does_nothing :
  log <$> outcome ((destroy_object 1%nat;; processEvents;;
                    modify (with_log (fun _ => []));;
                    emit_notify 2%nat "valueChanged") bound_app)
  = Some [].
Proof. vm_compute. reflexivity. Qed.

(** ** A notification between the destruction of a leaf and the event loop *)

Lemma later_state_logged evs w w2 :
  later_state w w2 -> later_state (logged evs w) (logged evs w2).
Proof. done. Qed.

Lemma mortal_ret {A} (a : A) : mortal (ret a).
Proof.
  intros w a' w' [= <- <-]. exists []. rewrite logged_nil. split; [done|].
  intros w2 _. right. unfold ret. by rewrite logged_nil.
Qed.

Lemma mortal_fail {A} f : mortal (@fail A f).
Proof. by intros w a w'. Qed.

Lemma mortal_lift {A} (o : option A) : mortal (lift o).
Proof. destruct o; [apply mortal_ret | apply mortal_fail]. Qed.

Lemma mortal_bind {A B} (m : M A) (k : A -> M B) :
  mortal m -> (forall a, mortal (k a)) -> mortal (bindM m k).
Proof.
  intros Hm Hk w b w' (a & w1 & H1 & H2)%bindM_Ok.
  destruct (Hm _ _ _ H1) as (evs1 & -> & L1).
  destruct (Hk a _ _ _ H2) as (evs2 & -> & L2).
  exists (evs1 ++ evs2). split; [by rewrite logged_app|].
  intros w2 Hl. unfold bindM.
  destruct (L1 w2 Hl) as [-> | ->]; [by left|].
  rewrite <- logged_app. apply L2. by apply later_state_logged.
Qed.

Lemma mortal_if {A} (c : bool) (m1 m2 : M A) :
  mortal m1 -> mortal m2 -> mortal (if c then m1 else m2).
Proof. by destruct c. Qed.

Lemma mortal_deref p : mortal (deref p).
Proof.
  intros w o w' (-> & Hd & ->)%deref_Ok. exists []. rewrite logged_nil.
  split; [done|]. intros w2 _. unfold deref. rewrite logged_nil.
  case_bool_decide; [by left | by right].
Qed.

Lemma mortal_record e : mortal (record e).
Proof.
  intros w [] w' [= <-]. exists [e]. split; [done|]. intros w2 _. by right.
Qed.

Lemma mortal_get p : mortal (get p).
Proof.
  unfold get. destruct (isReadable p); [|apply mortal_fail]. simpl.
  apply mortal_bind; [apply mortal_deref|].
  intros o w v w'. unfold bindM, get_world.
  destruct (attrs w !! (o, mp_name p)) as [x|] eqn:E; [|done].
  intros [= <- <-]. exists [EvGet o (mp_name p)]. split; [done|].
  intros w2 (Ha & _). right. by rewrite Ha, E.
Qed.

Ltac mortal_step :=
  first [ apply mortal_ret | apply mortal_fail | apply mortal_lift
        | apply mortal_deref | apply mortal_record
        | apply mortal_bind; [|intros ?]
        | apply mortal_if ].

Lemma mortal_checked z : mortal (checked z).
Proof. unfold checked. repeat mortal_step. Qed.
Lemma mortal_int_op f l r : mortal (int_op f l r).
Proof. unfold int_op. repeat first [apply mortal_checked | mortal_step]. Qed.
Lemma mortal_bit_op f l r : mortal (bit_op f l r).
Proof. unfold bit_op. repeat mortal_step. Qed.
Lemma mortal_cmp_op f l r : mortal (cmp_op f l r).
Proof. unfold cmp_op. repeat mortal_step. Qed.
Lemma mortal_bool_op f l r : mortal (bool_op f l r).
Proof. unfold bool_op. repeat mortal_step. Qed.
Lemma mortal_div_op l r : mortal (div_op l r).
Proof. unfold div_op. repeat first [apply mortal_checked | mortal_step]. Qed.
Lemma mortal_shl_op l r : mortal (shl_op l r).
Proof. unfold shl_op. repeat mortal_step. Qed.
Lemma mortal_shr_op l r : mortal (shr_op l r).
Proof. unfold shr_op. repeat mortal_step. Qed.

Lemma mortal_member_op o f : mortal (member_op o f).
Proof.
  unfold member_op. destruct o as [o|]; [|apply mortal_fail].
  apply mortal_bind; [apply mortal_deref|].
  intros o' w v w'. unfold bindM, get_world.
  destruct (attrs w !! (o', f)) as [x|] eqn:E; [|done].
  intros [= <- <-]. exists []. rewrite logged_nil. split; [done|].
  intros w2 (Ha & _). right. by rewrite Ha, E, logged_nil.
Qed.

Lemma mortal_invoke_op o f l : mortal (invoke_op o f l).
Proof.
  unfold invoke_op. destruct o as [o|]; [|apply mortal_fail].
  apply mortal_bind; [apply mortal_deref|].
  intros o' w v w'. unfold bindM, get_world, record, modify, ret.
  intros [= <- <-]. exists [EvMethod o' f l]. split; [done|].
  intros w2 (_ & Hm & _). right. simpl. by rewrite Hm.
Qed.

Lemma mortal_apply_action act vs : mortal (apply_action act vs).
Proof.
  unfold apply_action.
  repeat case_match;
    first [ apply mortal_int_op | apply mortal_bit_op | apply mortal_cmp_op
          | apply mortal_bool_op | apply mortal_div_op | apply mortal_shl_op
          | apply mortal_shr_op | apply mortal_member_op
          | apply mortal_invoke_op
          | repeat first [apply mortal_checked | mortal_step] ].
Qed.

Lemma mortal_for_each {A B} (f : A -> M B) l :
  Forall (fun a => mortal (f a)) l -> mortal (for_each f l).
Proof.
  induction 1 as [|a r Ha _ IH]; [apply mortal_ret|].
  simpl. apply mortal_bind; [done|]. intros y.
  apply mortal_bind; [done|]. intros ys. apply mortal_ret.
Qed.

Lemma mortal_eval_arg a : mortal (eval_arg a).
Proof.
  induction a as [v|p|act l IH] using arg_ind'.
  - apply mortal_ret.
  - apply mortal_get.
  - simpl. apply mortal_bind; [by apply mortal_for_each|].
    intros vs. apply mortal_apply_action.
Qed.

Lemma mortal_eval e : mortal (eval e).
Proof.
  apply mortal_bind.
  - apply mortal_for_each, Forall_forall. intros a _. apply mortal_eval_arg.
  - intros vs. apply mortal_apply_action.
Qed.

(** An expression that evaluated reads a destroyed object once the object
    of one of its leaves is gone. *)
Lemma eval_after_a_leaf_died e w v w' w2 p o :
  eval e w = Ok v w' -> later_state w w2 ->
  p ∈ leaf_props e -> mp_o p = Some o -> o ∈ dead w2 ->
  eval e w2 = Err Dangling.
Proof.
  intros Hev Hl Hp Ho Hd.
  destruct (mortal_eval e _ _ _ Hev) as (evs & _ & L).
  destruct (L w2 Hl) as [H|H]; [done|].
  destruct (eval_gettable _ _ _ _ H p Hp) as (_ & o0 & x & Ho0 & Hd0 & _).
  congruence.
Qed.

Lemma children_inv w o b :
  b ∈ children w o -> exists m, mappers w !! b = Some m /\ parent m = Some o.
Proof.
  unfold children. intros ([i m] & Hin & Hf)%list_elem_of_omap.
  case_decide as H; [|done].
  apply elem_of_lookup_imap_1 in Hin as (j & y & Heq & Hy).
  simplify_eq. exists y. tauto.
Qed.

(** The deletion of other mappers leaves a mapper as it is. *)
Lemma destroy_others_frame b l w :
  b ∉ l ->
  mappers (foldr destroy_mapper w l) !! b = mappers w !! b
  /\ functors (foldr destroy_mapper w l) b = functors w b
  /\ (forall o s, b ∈ subscribers w o s -> b ∈ subscribers (foldr destroy_mapper w l) o s)
  /\ (delete_pending w b = true -> delete_pending (foldr destroy_mapper w l) b = true).
Proof.
  induction l as [|b' l IH]; intros Hb; [done|].
  apply not_elem_of_cons in Hb as [Hne Hb].
  destruct (IH Hb) as (I1 & I2 & I3 & I4). cbn [foldr].
  set (W := foldr destroy_mapper w l) in *.
  split; [|split; [|split]].
  - unfold destroy_mapper. simpl. by rewrite list_lookup_alter_ne.
  - rewrite <- I2. unfold functors, destroy_mapper. simpl. apply omap_filter_keep.
    intros [] [x Hx]; simpl in *; try done.
    case_decide; [|done]. subst. by rewrite bool_decide_eq_false_2.
  - intros o s Hin. apply I3 in Hin.
    apply list_elem_of_omap in Hin as (c & Hc & Hr).
    apply list_elem_of_omap. exists c. split; [|done].
    unfold destroy_mapper. simpl. apply list_elem_of_filter. split; [|done].
    destruct c; simpl in *; try done. case_decide; [|done].
    injection Hr as ->. by rewrite bool_decide_eq_false_2.
  - intros Hp. apply destroy_mapper_keeps_pending; [done|]. by apply I4.
Qed.

(** What the destruction of an object leaves of a mapper that is not its
    child: the mapper is alive and keeps its functors, its subscriptions to
    the other objects and their mappings, and a deferred delete is posted
    for it if it watched the object. *)
Lemma destroy_object_spares_the_mapper o w w' b m :
  destroy_object o w = Ok tt w' ->
  mappers w !! b = Some m -> parent m <> Some o ->
  later_state w w' /\ (o ∈ dead w') /\ (forall o', o' <> o -> o' ∉ dead w -> o' ∉ dead w')
  /\ mappers w' !! b = Some (unmap_sender o m)
  /\ functors w' b = functors w b
  /\ (forall o' s, o' <> o -> b ∈ subscribers w o' s -> b ∈ subscribers w' o' s)
  /\ (b ∈ watchers w o -> delete_pending w' b = true).
Proof.
  intros (_ & w0 & Hm0 & Hc0 & (Ha & Hme & Hd & _) & Hpend & ->)%destroy_object_Ok Hm Hp.
  set (W := drop_object_wiring o w0).
  assert (HmW : mappers W !! b = Some (unmap_sender o m)).
  { unfold W, drop_object_wiring. simpl. by rewrite list_lookup_fmap, Hm0, Hm. }
  assert (Hb : b ∉ children W o).
  { intros (m' & Hm' & Hp')%children_inv. rewrite HmW in Hm'.
    injection Hm' as <-. done. }
  destruct (destroy_others_frame b (children W o) W Hb) as (F1 & F2 & F3 & F4).
  fold (delete_children o W) in F1, F2, F3, F4.
  assert (Hobj : forall l, attrs (foldr destroy_mapper W l) = attrs w
                           /\ methods (foldr destroy_mapper W l) = methods w
                           /\ dead (foldr destroy_mapper W l) = dead w).
  { induction l as [|x l IH]; [done|]. exact IH. }
  destruct (Hobj (children W o)) as (O1 & O2 & O3).
  fold (delete_children o W) in O1, O2, O3.
  split; [|split; [|split; [|split; [|split; [|split]]]]].
  - split; [exact O1|]. split; [exact O2|]. simpl. rewrite O3.
    apply union_subseteq_r.
  - simpl. apply elem_of_union. left. by apply elem_of_singleton.
  - intros o' Hne Hd'. simpl. rewrite O3.
    by intros [?%elem_of_singleton|?]%elem_of_union.
  - simpl. by rewrite F1.
  - unfold functors at 1. simpl. fold (functors (delete_children o W) b).
    rewrite F2. unfold functors, W, drop_object_wiring. simpl. rewrite Hc0.
    apply omap_filter_keep. intros [] [x Hx]; simpl in *; done.
  - intros o' s Hne Hin.
    unfold subscribers at 1. simpl. fold (subscribers (delete_children o W) o' s).
    apply F3. apply list_elem_of_omap in Hin as (c & Hc & Hr).
    apply list_elem_of_omap. exists c. split; [|done].
    unfold W, drop_object_wiring. simpl. rewrite Hc0.
    apply list_elem_of_filter. split; [|done].
    destruct c; simpl in *; try done. case_decide as Hx; [|done].
    destruct Hx as [-> ->]. by rewrite bool_decide_eq_false_2.
  - intros Hw. unfold delete_pending. simpl.
    fold (delete_pending (delete_children o W) b). apply F4.
    by apply Hpend.
Qed.

(** The state left by a [bindTo] of an observable expression, for every
    leaf with a notify signal: its object is alive, the mapper has a
    mapping for it, is subscribed to its signal and watches its
    destruction. *)
Lemma bindTo_wiring_of_the_leaves r func ty n e w w1 :
  World_ok w ->
  bindTo_impl r func ty n e w = Ok tt w1 ->
  isObservable e = true ->
  exists b m,
    (existing_fan_in w r n = Some b \/
     (existing_fan_in w r n = None /\ b = length (mappers w)))
    /\ mappers w1 !! b = Some m
    /\ parent m = r /\ objectName m = n /\ wasDeleted m = false
    /\ functors w1 b = [(r, func, e, ty)]
    /\ forall p o s, p ∈ leaf_props e -> mp_notify p = Some s -> mp_o p = Some o ->
         (o ∉ dead w1) /\ is_Some (intHash m !! o)
         /\ b ∈ subscribers w1 o s /\ b ∈ watchers w1 o.
Proof.
  intros Hok H Hobs.
  destruct (bindTo_observable_wiring _ _ _ _ _ _ _ Hok H Hobs)
    as (_ & b & m & Hex & Hm & Hp & Hn & Hd & Hf & Hl & _).
  exists b, m. do 6 (split; [done|]).
  intros p o s Hin Hs Ho. destruct (Hl p o s Hin Hs Ho) as [Hh Hsub].
  rewrite bindTo_impl_eq, Hobs in H.
  destruct (valid_slot func); [|done]. simpl in H.
  destruct (forallb hasNotifySignal (leaf_props e)); [|done]. simpl in H.
  destruct (receiver_gone w r); [done|].
  assert (Halive : leaves_alive w (leaf_props e) = true).
  { destruct (existing_fan_in w r n); by destruct (leaves_alive w (leaf_props e)). }
  rewrite Halive in H.
  assert (Hgen : forall b' W0,
    call r func e (wired r func ty e b' W0) = Ok tt w1 -> same_objects w W0 ->
    (o ∉ dead w1) /\ b' ∈ watchers w1 o).
  { intros b' W0 Hcall Hs0. split.
    - rewrite (call_keeps_dead _ _ _ _ _ _ Hcall).
      destruct (same_objects_wired r func ty e b' W0) as (_ & _ & -> & _).
      destruct Hs0 as (_ & _ & -> & _).
      unfold leaves_alive in Halive. rewrite forallb_forall in Halive.
      specialize (Halive p). unfold leaf_alive in Halive. rewrite Hs, Ho in Halive.
      assert (Hin' : In p (leaf_props e)) by (by apply list_elem_of_In).
      specialize (Halive Hin'). by apply bool_decide_eq_true in Halive.
    - destruct (oblivious_wiring _ _ _ _ (oblivious_call r func e) Hcall)
        as (_ & Hc & _).
      unfold watchers. rewrite Hc. fold (watchers (wired r func ty e b' W0) o).
      unfold wired. rewrite watchers_add_mapped.
      by eapply watchers_wire_leaves_elem. }
  destruct (existing_fan_in w r n) as [b0|] eqn:Hex0.
  - destruct Hex as [[= <-]|[[=] _]].
    destruct (Hgen _ _ H) as [Hd1 Hw1]; done.
  - destruct Hex as [[=]|[_ ->]].
    destruct (Hgen _ _ H) as [Hd1 Hw1]; done.
Qed.

(** C8.  Let [bindTo] have bound to an accessor an expression with two
    leaves that have notify signals and belong to different objects [o] and
    [o'], neither of them the object of the target, and let the expression
    evaluate in the state the binding left.  The destruction of [o] removes
    the connections of [o] and posts a deferred delete for the mapper: until
    the event loop delivers it, the mapper is alive, keeps its functor and
    is still subscribed to the signal of [o'].  A notification of [o'] in
    that window runs the functor, which evaluates the whole expression and
    so reads the leaf of the destroyed object: the slot faults on a
    destroyed object, and so does the firing when no other mapper listens.
    The deferred delete, which is meant to keep the binding from running
    with a destroyed source, comes too late for this notification. *)
Theorem notification_before_the_deferred_delete_reads_the_destroyed_leaf
    (target : MetaProperty) (ty : ConnectionType) (e : BindingExpr)
    (w w1 : World) (p p' : MetaProperty) (o o' : ObjId) (s s' : string)
    (v : value) (wv : World) :
  World_ok w ->
  bindTo target ty e w = Ok tt w1 ->
  ty <> QueuedConnection ->
  p ∈ leaf_props e -> mp_notify p = Some s -> mp_o p = Some o ->
  p' ∈ leaf_props e -> mp_notify p' = Some s' -> mp_o p' = Some o' ->
  o' <> o -> mp_o target <> Some o ->
  eval e w1 = Ok v wv ->
  exists b m w2,
    destroy_object o w1 = Ok tt w2
    /\ (o ∈ dead w2) /\ (o' ∉ dead w2)
    /\ (forall s0, subscribers w2 o s0 = [])
    /\ delete_pending w2 b = true
    /\ mappers w2 !! b = Some m /\ wasDeleted m = false
    /\ functors w2 b = [(mp_o target, FProperty target, e, ty)]
    /\ b ∈ subscribers w2 o' s'
    /\ eval e w2 = Err Dangling
    /\ QSignalMapper_map b o' w2 = Err Dangling
    /\ (subscribers w2 o' s' = [b] -> emit_notify o' s' w2 = Err Dangling).
Proof.
  intros Hok Hbind Hty Hp Hs Ho Hp' Hs' Ho' Hne Hr Hev. unfold bindTo in Hbind.
  assert (Hobs : isObservable e = true).
  { rewrite isObservable_leaves. apply existsb_exists. exists p.
    split; [by apply list_elem_of_In|]. unfold hasNotifySignal. by rewrite Hs. }
  destruct (bindTo_wiring_of_the_leaves _ _ _ _ _ _ _ Hok Hbind Hobs)
    as (b & m & _ & Hm & Hpar & _ & Hdel & Hf & Hl).
  destruct (Hl p o s Hp Hs Ho) as (Hd & _ & _ & Hwatch0).
  destruct (Hl p' o' s' Hp' Hs' Ho') as (Hd' & Hh' & Hin' & _).
  pose proof Hm as Hm0.
  destruct (destroy_object_total o w1 Hd) as (w2 & Hdestroy).
  destruct (destroy_object_spares_the_mapper o w1 w2 b m Hdestroy Hm)
    as (Hlater & Hdead & Halive & Hm2 & Hf2 & Hsub2 & Hpend2).
  { rewrite Hpar. exact Hr. }
  apply lookup_lt_Some in Hm0.
  destruct (destroy_object_fate _ _ _ _ b Hdestroy Hwatch0 Hm0) as (Hnone & _ & _).
  assert (Heval : eval e w2 = Err Dangling).
  { by eapply (eval_after_a_leaf_died e w1 v wv w2 p o). }
  assert (Hmap : QSignalMapper_map b o' w2 = Err Dangling).
  { rewrite (QSignalMapper_map_mapped b o' w2 (unmap_sender o m) Hm2 Hdel).
    - rewrite (emit_mappedInt_single b (mp_o target) (FProperty target) e ty)
        by (by rewrite ?Hf2).
      simpl. unfold bindM. by rewrite Heval.
    - simpl. by rewrite lookup_delete_ne. }
  exists b, (unmap_sender o m), w2.
  split; [done|]. split; [done|]. split; [by apply Halive|]. split; [done|].
  split; [by apply Hpend2|]. split; [done|]. split; [done|].
  split; [by rewrite Hf2|]. split; [by apply Hsub2|]. split; [done|].
  split; [done|]. intros Hsingle.
  rewrite (emit_notify_single o' s' w2 b); [done | by apply Halive | done].
Qed.

Lemma notification_before_the_deferred_delete_reads_the_destroyed_leaf_witness :
  exists b m w2,
    destroy_object 1%nat bound_app = Ok tt w2
    /\ (1%nat ∈ dead w2) /\ (2%nat ∉ dead w2)
    /\ (forall s0, subscribers w2 1%nat s0 = [])
    /\ delete_pending w2 b = true
    /\ mappers w2 !! b = Some m /\ wasDeleted m = false
    /\ functors w2 b = [(mp_o (slider 3), FProperty (slider 3), sum12, AutoConnection)]
    /\ b ∈ subscribers w2 2%nat "valueChanged"
    /\ eval sum12 w2 = Err Dangling
    /\ QSignalMapper_map b 2%nat w2 = Err Dangling
    /\ (subscribers w2 2%nat "valueChanged" = [b] ->
        emit_notify 2%nat "valueChanged" w2 = Err Dangling).
Proof.
  apply (notification_before_the_deferred_delete_reads_the_destroyed_leaf
           (slider 3) AutoConnection sum12 app bound_app (slider 1) (slider 2)
           1%nat 2%nat "valueChanged" "valueChanged" (VInt 5)
           (logged [EvGet 1%nat "value"; EvGet 2%nat "value"] bound_app)).
  - apply World_ok_unwired; reflexivity.
  - vm_compute. reflexivity.
  - discriminate.
  - apply list_elem_of_here.
  - reflexivity.
  - reflexivity.
  - apply list_elem_of_further, list_elem_of_here.
  - reflexivity.
  - reflexivity.
  - discriminate.
  - discriminate.
  - vm_compute. reflexivity.
Defined.

(** ** Binding a slot again: the subscriptions of the first binding *)

(** A second [bindTo] for the slot of a mapper leaves the mapper what it
    receives: its subscriptions, the destructions it watches and its
    mappings. *)
Lemma rebinding_keeps_the_wiring rr func ty n e w w1 b m :
  bindTo_impl (Some rr) func ty n e w = Ok tt w1 ->
  child_named w rr n = Some b -> mappers w !! b = Some m ->
  (forall o s, b ∈ subscribers w o s -> b ∈ subscribers w1 o s)
  /\ (forall o, b ∈ watchers w o -> b ∈ watchers w1 o)
  /\ exists m', mappers w1 !! b = Some m' /\ wasDeleted m' = wasDeleted m
       /\ forall o, is_Some (intHash m !! o) -> is_Some (intHash m' !! o).
Proof.
  intros H Hb Hm. rewrite bindTo_impl_eq in H.
  destruct (valid_slot func); [|done]. simpl in H.
  destruct (forallb hasNotifySignal (leaf_props e)); [|done]. simpl in H.
  destruct (bool_decide (rr ∈ dead w)); [done|]. rewrite Hb in H.
  destruct (isObservable e).
  - destruct (leaves_alive w (leaf_props e)); [|done].
    destruct (oblivious_wiring _ _ _ _ (oblivious_call (Some rr) func e) H)
      as (Hms & Hcs & _).
    split; [|split].
    + intros o s Hin. unfold subscribers. rewrite Hcs.
      fold (subscribers (wired (Some rr) func ty e b (drop_sent_by b w)) o s).
      unfold wired. rewrite subscribers_add_mapped.
      apply subscribers_wire_leaves_mono. by rewrite subscribers_drop_sent_by.
    + intros o Hin. unfold watchers. rewrite Hcs.
      fold (watchers (wired (Some rr) func ty e b (drop_sent_by b w)) o).
      unfold wired. rewrite watchers_add_mapped.
      apply (wire_leaves_preserves b (fun w' => b ∈ watchers w' o)).
      * intros w' o' s'. apply watchers_wire1_mono.
      * by rewrite watchers_drop_sent_by.
    + destruct (mapper_wire_leaves b (leaf_props e) (drop_sent_by b w) m Hm)
        as (m' & Hm' & (_ & _ & E3 & E4) & _).
      exists m'. split; [by rewrite Hms|]. done.
  - destruct (call (Some rr) func e w) as [[] w'|f] eqn:Hcall; [|done].
    injection H as <-.
    destruct (oblivious_wiring _ _ _ _ (oblivious_call (Some rr) func e) Hcall)
      as (Hms & Hcs & _).
    assert (Hconns : conns (post_delete b w') = conns w).
    { unfold post_delete. by destruct (delete_pending w' b). }
    assert (Hmaps : mappers (post_delete b w') = mappers w).
    { unfold post_delete. by destruct (delete_pending w' b). }
    split; [|split].
    + intros o s. unfold subscribers. by rewrite Hconns.
    + intros o. unfold watchers. by rewrite Hconns.
    + exists m. by rewrite Hmaps.
Qed.

(** C2.  The children of a receiver have different names, so two calls of
    [bindTo] for one target use one mapper, and the functor of the second
    call is the only functor left on it: so far the claim holds.  But
    [binding->disconnect()] removes the connections in which the mapper is
    the sender, not those in which it is the receiver.  Every leaf [p] of
    the first expression that has a notify signal still has the mapper
    subscribed to its signal after the second call, with the mapping of its
    object and with the connection of its [destroyed] signal, whether or not
    the second expression reads [p].  A firing of the signal of [p] runs the
    functor of the second call, which evaluates the second expression and
    sets the target; and the destruction of the object of [p] schedules the
    mapper of the second binding for deletion, which the event loop carries
    out. *)
Theorem rebinding_keeps_the_subscriptions_of_the_first_binding
    (target : MetaProperty) (ty1 ty2 : ConnectionType) (e1 e2 : BindingExpr)
    (w w1 w2 : World) (p : MetaProperty) (o : ObjId) (s : string) :
  World_ok w ->
  bindTo target ty1 e1 w = Ok tt w1 ->
  bindTo target ty2 e2 w1 = Ok tt w2 ->
  isObservable e2 = true ->
  p ∈ leaf_props e1 -> mp_notify p = Some s -> mp_o p = Some o ->
  exists b q m,
    mp_o target = Some q
    /\ child_named w1 q (bindingName target) = Some b
    /\ child_named w2 q (bindingName target) = Some b
    /\ functors w2 b = [(Some q, FProperty target, e2, ty2)]
    /\ mappers w2 !! b = Some m /\ wasDeleted m = false
    /\ is_Some (intHash m !! o)
    /\ b ∈ subscribers w2 o s
    /\ b ∈ watchers w2 o
    /\ (ty2 <> QueuedConnection ->
        forall w3, mappers w3 = mappers w2 -> conns w3 = conns w2 -> q ∉ dead w3 ->
          match eval e2 w3 with
          | Ok v w4 =>
              QSignalMapper_map b o w3
              = Ok tt (logged [EvSet q (mp_name target) v]
                         (with_attrs (fun a => <[(q, mp_name target) := v]> a) w4))
          | Err f => QSignalMapper_map b o w3 = Err f
          end)
    /\ exists w3,
         destroy_object o w2 = Ok tt w3
         /\ (deleted w3 b \/ delete_pending w3 b = true)
         /\ forall u w4, processEvents w3 = Ok u w4 -> deleted w4 b.
Proof.
  intros Hok H1 H2 Hobs2 Hp Hs Ho. unfold bindTo in H1, H2.
  assert (Hobs1 : isObservable e1 = true).
  { rewrite isObservable_leaves. apply existsb_exists. exists p.
    split; [by apply list_elem_of_In|]. unfold hasNotifySignal. by rewrite Hs. }
  pose proof (bindTo_keeps_World_ok _ _ _ _ _ _ _ Hok H1) as Hok1.
  pose proof (bindTo_keeps_World_ok _ _ _ _ _ _ _ Hok1 H2) as Hok2.
  destruct (bindTo_impl_Ok_inv _ _ _ _ _ _ _ H2)
    as (_ & _ & _ & _ & w' & ms & cs & ps & Hc & Hw2).
  pose proof (call_keeps_dead _ _ _ _ _ _ Hc) as Hdead2.
  simpl in Hc. apply bindM_Ok in Hc as (v0 & w0 & _ & Hset).
  apply set_Ok in Hset as (q & Hwr & Hq & _).
  unfold object in H1, H2. rewrite Hq in H1, H2.
  destruct (bindTo_wiring_of_the_leaves _ _ _ _ _ _ _ Hok H1 Hobs1)
    as (b & m1 & _ & Hm1 & Hpar1 & Hn1 & Hdel1 & _ & Hl1).
  destruct (Hl1 p o s Hp Hs Ho) as (Hd1 & Hh1 & Hsub1 & Hwatch1).
  assert (Hb1 : child_named w1 q (bindingName target) = Some b).
  { by apply (child_named_unique _ _ _ _ m1). }
  destruct (rebinding_keeps_the_wiring _ _ _ _ _ _ _ _ _ H2 Hb1 Hm1)
    as (Hsubs & Hwatches & m2 & Hm2 & Hdel2 & Hh2).
  destruct (bindTo_observable_wiring _ _ _ _ _ _ _ Hok1 H2 Hobs2)
    as (_ & b' & m' & Hex & Hm' & Hpar' & Hn' & Hdel' & Hf' & _).
  simpl in Hex. rewrite Hb1 in Hex. destruct Hex as [[= <-]|[[=] _]].
  rewrite Hm2 in Hm'. injection Hm' as <-.
  exists b, q, m2. split; [done|]. split; [done|].
  split; [by apply (child_named_unique _ _ _ _ m2)|].
  split; [done|]. split; [done|]. split; [done|].
  split; [by apply Hh2|]. split; [by apply Hsubs|]. split; [by apply Hwatches|].
  split.
  - intros Hty w3 Hm3 Hc3 Hq3.
    assert (Hmap : QSignalMapper_map b o w3 = call (Some q) (FProperty target) e2 w3).
    { rewrite (QSignalMapper_map_mapped b o w3 m2);
        [| by rewrite Hm3 | done | by apply Hh2].
      apply (emit_mappedInt_single b (Some q) (FProperty target) e2 ty2); [|done].
      unfold functors. by rewrite Hc3. }
    rewrite Hmap. simpl. unfold bindM.
    destruct (eval e2 w3) as [v w4|f] eqn:Hev; [|done].
    destruct (eval_logged _ _ _ _ Hev) as (evs & -> & _).
    by apply set_run.
  - assert (Hd2 : o ∉ dead w2).
    { subst w2. simpl. rewrite Hdead2. exact Hd1. }
    destruct (destroy_object_total o w2 Hd2) as (w3 & Hdestroy).
    pose proof (lookup_lt_Some _ _ _ Hm2) as Hlt.
    destruct (destroy_object_fate _ _ _ _ b Hdestroy (Hwatches o Hwatch1) Hlt)
      as (_ & Hlt3 & Hfate).
    exists w3. split; [done|]. split; [done|].
    intros u w4 Hev. by apply (processEvents_deletes w3 u w4 b).
Qed.

Lemma rebinding_keeps_the_subscriptions_of_the_first_binding_witness :
  exists b q m,
    mp_o (slider 3) = Some q
    /\ child_named bound_app q (bindingName (slider 3)) = Some b
    /\ child_named narrowed_app q (bindingName (slider 3)) = Some b
    /\ functors narrowed_app b = [(Some q, FProperty (slider 3), only2, AutoConnection)]
    /\ mappers narrowed_app !! b = Some m /\ wasDeleted m = false
    /\ is_Some (intHash m !! 1%nat)
    /\ b ∈ subscribers narrowed_app 1%nat "valueChanged"
    /\ b ∈ watchers narrowed_app 1%nat
    /\ (AutoConnection <> QueuedConnection ->
        forall w3, mappers w3 = mappers narrowed_app -> conns w3 = conns narrowed_app ->
          q ∉ dead w3 ->
          match eval only2 w3 with
          | Ok v w4 =>
              QSignalMapper_map b 1%nat w3
              = Ok tt (logged [EvSet q (mp_name (slider 3)) v]
                         (with_attrs (fun a => <[(q, mp_name (slider 3)) := v]> a) w4))
          | Err f => QSignalMapper_map b 1%nat w3 = Err f
          end)
    /\ exists w3,
         destroy_object 1%nat narrowed_app = Ok tt w3
         /\ (deleted w3 b \/ delete_pending w3 b = true)
         /\ forall u w4, processEvents w3 = Ok u w4 -> deleted w4 b.
Proof.
  apply (rebinding_keeps_the_subscriptions_of_the_first_binding
           (slider 3) AutoConnection AutoConnection sum12 only2
           app bound_app narrowed_app (slider 1) 1%nat "valueChanged").
  - apply World_ok_unwired; reflexivity.
  - vm_compute. reflexivity.
  - vm_compute. reflexivity.
  - reflexivity.
  - apply list_elem_of_here.
  - reflexivity.
  - reflexivity.
Defined.

(** * Further properties of the two headers *)

(** ** The prefix and compound operators of the accessor *)

Lemma prefix_increment_reads_once_witness :
  log <$> outcome (operator_pre_incr (slider 1) app)
  = Some [EvGet 1 "value"; EvSet 1 "value" (VInt 3)].
Proof.
  destruct (prefix_increment_reads_once (slider 1) app 1%nat 2%Z)
    as [H _]; [reflexivity | reflexivity | reflexivity | set_solver | reflexivity |].
  rewrite H by reflexivity. reflexivity.
Defined.

Lemma compound_assignment_reads_once_witness :
  operator_compound MulAssign (slider 2) (VInt 4) app
  = Ok tt (logged [EvGet 2 "value"; EvSet 2 "value" (VInt 12)]
             (with_attrs (fun m => <[(2%nat, "value") := VInt 12]> m) app))
  /\ exists z, VInt 12 = VInt z.
Proof.
  apply (compound_assignment_reads_once MulAssign (slider 2) app 2%nat 3%Z 4%Z
           (VInt 12));
    [reflexivity | reflexivity | reflexivity | reflexivity | set_solver
    | reflexivity | reflexivity].
Defined.

(** ** Wrapping an object and taking an accessor *)

(** X5. [MetaObject<>::from(obj)] aborts on a null pointer, as does the
    default constructor on every call.  For any other pointer it returns a
    wrapper of that object without looking at it, and every property method
    of the wrapper then returns an accessor of the same object, with the
    descriptor of the property, in any state: the assertion of the accessor
    cannot fail behind the one of the wrapper. *)
Theorem accessor_of_a_wrapped_object
    (cls : string) (descr : MetaProperty) (obj : option ObjId) (w : World) :
  MetaObject_default cls w = Err AssertFailed
  /\ (obj = None -> from cls obj w = Err AssertFailed)
  /\ (forall o, obj = Some o ->
        exists mo, from cls obj w = Ok mo w /\ MetaObject_object mo = Some o /\
          forall w2, exists p,
            N_PROPERTY descr mo w2 = Ok p w2 /\ object p = Some o
            /\ same_accessor_type p descr = true
            /\ bindingName p = bindingName descr).
Proof.
  split; [done|]. split; [by intros ->|].
  intros o ->. eexists. split; [reflexivity|]. split; [done|].
  intros w2. eexists. split; [reflexivity|]. split; [done|].
  split; [|done]. unfold same_accessor_type. by apply bool_decide_eq_true_2.
Qed.

(** ** The helpers [member] and [invoke] *)

(** X13. The expressions returned by [member(mem)] and by [invoke(fn,
    args...)] hand the action no object: the pointer to member comes first.
    They are not well typed, whatever the operands, and their evaluation
    never yields a value. *)
Theorem member_and_invoke_helpers_have_no_object_operand
    (mem fn : string) (t rt t' : ty) (actuals : list arg) (w : World)
    (store : gmap (ObjId * string) value)
    (mth : string -> ObjId -> list value -> value) :
  eval (member mem t) w = Err IllTyped
  /\ (forall vs w', for_each eval_arg actuals w = Ok vs w' ->
        eval (invoke fn rt actuals) w = Err IllTyped)
  /\ (exists f, eval (invoke fn rt actuals) w = Err f)
  /\ ~ well_typed_expr store mth (member mem t) t'
  /\ ~ well_typed_expr store mth (invoke fn rt actuals) t'.
Proof.
  assert (H : forall vs w', for_each eval_arg actuals w = Ok vs w' ->
            eval (invoke fn rt actuals) w = Err IllTyped).
  { intros vs w' E. unfold eval, invoke. simpl args. simpl action.
    unfold bindM at 1. rewrite for_each_cons. simpl eval_arg. unfold ret at 1.
    rewrite E. done. }
  split; [done|]. split; [exact H|]. split; [|split].
  - destruct (for_each eval_arg actuals w) as [vs w'|f] eqn:E.
    + exists IllTyped. by eapply H.
    + exists f. unfold eval, invoke. simpl args. simpl action.
      unfold bindM at 1. rewrite for_each_cons. simpl eval_arg. unfold ret at 1.
      by rewrite E.
  - unfold well_typed_expr, member. simpl. tauto.
  - unfold well_typed_expr, invoke. simpl. tauto.
Qed.

(** ** When [bindTo] returns *)

(** X14. The private [bindTo] returns exactly when the slot is valid, every
    accessor in the expression has a notify signal (the binding compiles),
    the receiver has not been destroyed, the objects of the leaves have not
    been destroyed, and the call of the target in the state before the
    binding returns.  An invalid slot and an accessor without notify signal
    are rejected before anything else, and a destroyed receiver is a fault
    whatever the expression. *)
Theorem bindTo_returns_exactly_when_the_call_does
    (r : option ObjId) (func : Func) (ty : ConnectionType) (n : string)
    (e : BindingExpr) (w : World) :
  ((exists w1, bindTo_impl r func ty n e w = Ok tt w1) <->
   valid_slot func = true /\ forallb hasNotifySignal (leaf_props e) = true /\
   receiver_gone w r = false /\
   leaves_alive w (leaf_props e) = true /\
   exists w', call r func e w = Ok tt w')
  /\ (valid_slot func = false -> bindTo_impl r func ty n e w = Err IllTyped)
  /\ (forallb hasNotifySignal (leaf_props e) = false ->
      bindTo_impl r func ty n e w = Err IllTyped)
  /\ (valid_slot func = true -> forallb hasNotifySignal (leaf_props e) = true ->
      receiver_gone w r = true ->
      bindTo_impl r func ty n e w = Err Dangling).
Proof.
  split; [split|split; [|split]].
  - intros [w1 H]. destruct (bindTo_impl_Ok_inv _ _ _ _ _ _ _ H)
      as (Hv & Hn & Hr & Hl & w' & _ & _ & _ & Hc & _). eauto 10.
  - intros (Hv & Hn & Hr & Hl & w' & Hc).
    destruct (bindTo_impl_as_call r func ty n e w Hv Hn Hr Hl) as (ms & cs & ps & E).
    rewrite Hc in E. eauto.
  - intros Hv. by rewrite bindTo_impl_eq, Hv.
  - intros Hn. rewrite bindTo_impl_eq, Hn. by destruct (valid_slot func).
  - intros Hv Hn Hr. by rewrite bindTo_impl_eq, Hv, Hn, Hr.
Qed.

(** ** Binding one accessor to another *)

Lemma eval_of_an_accessor p w :
  eval (makeBindingExpr ActionEmpty [AProp p]) w = get p w.
Proof.
  unfold eval. simpl. unfold bindM, ret. by destruct (get p w).
Qed.

Lemma bindTo_impl_keeps_dead r func ty n e w w1 :
  bindTo_impl r func ty n e w = Ok tt w1 -> dead w1 = dead w.
Proof.
  intros (_ & _ & _ & _ & w' & ms & cs & ps & Hc & ->)%bindTo_impl_Ok_inv.
  simpl. by eapply call_keeps_dead.
Qed.

(** X4. [source.bindTo(target)] binds in the direction of its argument: it
    is the assignment [target = source] of the binding operators.  When it
    returns, the getter of [source] has been called once and its value has
    been written to [target]; [source] is left as it was; the object of
    [target] owns the mapper of the binding, under the binding name of
    [target]; and if [source] has a notify signal, that mapper is subscribed
    to it and carries the functor that copies [source] to [target]. *)
Theorem accessor_bindTo_makes_the_argument_follow
    (source target : MetaProperty) (w w1 : World) :
  World_ok w ->
  MetaProperty_bindTo source target w = Ok tt w1 ->
  MetaProperty_bindTo source target = operator_assign_property target source
  /\ exists o q v,
       mp_o source = Some o /\ mp_o target = Some q
       /\ attrs w !! (o, mp_name source) = Some v
       /\ attrs w1 = <[(q, mp_name target) := v]> (attrs w)
       /\ log w1 = log w ++ [EvGet o (mp_name source); EvSet q (mp_name target) v]
       /\ exists b,
            child_named w1 q (bindingName target) = Some b
            /\ forall s, mp_notify source = Some s ->
                 b ∈ subscribers w1 o s
                 /\ functors w1 b
                    = [(Some q, FProperty target,
                        makeBindingExpr ActionEmpty [AProp source], AutoConnection)].
Proof.
  intros Hok H. split; [reflexivity|].
  unfold MetaProperty_bindTo, bindTo in H.
  set (e := makeBindingExpr ActionEmpty [AProp source]) in *.
  pose proof (bindTo_keeps_World_ok _ _ _ _ _ _ _ Hok H) as Hok1.
  destruct (bindTo_impl_Ok_inv _ _ _ _ _ _ _ H)
    as (_ & _ & _ & _ & w' & ms & cs & ps & Hc & Hw1).
  simpl in Hc. apply bindM_Ok in Hc as (v & w0 & Hev & Hset).
  unfold e in Hev. rewrite eval_of_an_accessor in Hev.
  apply get_Ok in Hev as (o & _ & Ho & _ & Ha & ->).
  apply set_Ok in Hset as (q & _ & Hq & _ & ->).
  exists o, q, v. split; [done|]. split; [done|]. split; [done|].
  split; [by rewrite Hw1|].
  split; [rewrite Hw1; simpl; by rewrite <- app_assoc|].
  unfold object in H. rewrite Hq in H.
  destruct (bindTo_leaves_a_child _ _ _ _ _ _ _ H) as (b & m & Hm & Hch).
  pose proof (child_named_unique _ _ _ _ _ Hok1 Hm Hch) as Hb.
  exists b. split; [done|]. intros s Hs.
  assert (Hobs : isObservable e = true).
  { unfold isObservable, e. simpl. unfold hasNotifySignal. by rewrite Hs. }
  destruct (bindTo_observable_wiring _ _ _ _ _ _ _ Hok H Hobs)
    as (_ & b' & m' & _ & Hm' & Hp & Hn & Hd & Hf & Hl & _).
  assert (b' = b) as ->.
  { assert (Hb' : child_named w1 q (bindingName target) = Some b')
      by (by apply (child_named_unique _ _ _ _ m')).
    congruence. }
  split; [|done].
  apply (Hl source o s); [|done|done]. unfold leaf_props, e. simpl.
  apply list_elem_of_here.
Qed.

Lemma accessor_bindTo_makes_the_argument_follow_witness :
  MetaProperty_bindTo (slider 1) (gauge_level 5)
  = operator_assign_property (gauge_level 5) (slider 1)
  /\ exists o q v,
       mp_o (slider 1) = Some o /\ mp_o (gauge_level 5) = Some q
       /\ attrs app !! (o, mp_name (slider 1)) = Some v
       /\ attrs following_app = <[(q, mp_name (gauge_level 5)) := v]> (attrs app)
       /\ log following_app
          = log app ++ [EvGet o (mp_name (slider 1)); EvSet q (mp_name (gauge_level 5)) v]
       /\ exists b,
            child_named following_app q (bindingName (gauge_level 5)) = Some b
            /\ forall s, mp_notify (slider 1) = Some s ->
                 b ∈ subscribers following_app o s
                 /\ functors following_app b
                    = [(Some q, FProperty (gauge_level 5),
                        makeBindingExpr ActionEmpty [AProp (slider 1)], AutoConnection)].
Proof.
  apply (accessor_bindTo_makes_the_argument_follow (slider 1) (gauge_level 5) app).
  - apply World_ok_unwired; reflexivity.
  - vm_compute. reflexivity.
Defined.

(** ** The mapper is a child of the receiver *)

Lemma children_elem w o b m :
  mappers w !! b = Some m -> parent m = Some o -> wasDeleted m = false ->
  b ∈ children w o.
Proof.
  intros Hm Hp Hd. unfold children. apply list_elem_of_omap.
  exists (b, m). split.
  - by apply (elem_of_lookup_imap_2 (fun i m => (i, m))).
  - by rewrite decide_True.
Qed.

Lemma length_mappers_destroy_all l w :
  length (mappers (foldr destroy_mapper w l)) = length (mappers w).
Proof.
  induction l as [|b l IH]; [done|]. cbn [foldr].
  by rewrite length_mappers_destroy_mapper.
Qed.

Lemma destroy_all_deletes l w b :
  b ∈ l -> (b < length (mappers w))%nat -> deleted (foldr destroy_mapper w l) b.
Proof.
  intros Hin Hb. induction l as [|b' l IH]; [by apply elem_of_nil in Hin|].
  cbn [foldr]. apply elem_of_cons in Hin as [->|Hin].
  - apply destroy_mapper_deletes. by rewrite length_mappers_destroy_all.
  - by apply destroy_mapper_keeps_deleted, IH.
Qed.

(** X11. The mapper that [bindTo] creates is a child of the receiver.  When
    the receiver is deleted the mapper is deleted with it, at once and
    without waiting for the event loop: no connection is left with it, it
    is subscribed to no signal, and its slot does nothing, so that no later
    notification of a source writes to the deleted receiver. *)
Theorem binding_dies_with_its_receiver
    (rr : ObjId) (func : Func) (ty : ConnectionType) (n : string)
    (e : BindingExpr) (w w1 : World) :
  bindTo_impl (Some rr) func ty n e w = Ok tt w1 ->
  exists b m w2,
    mappers w1 !! b = Some m /\ is_child rr n m
    /\ destroy_object rr w1 = Ok tt w2
    /\ deleted w2 b
    /\ (forall o s, b ∉ subscribers w2 o s)
    /\ (forall o w3, mappers w3 = mappers w2 -> QSignalMapper_map b o w3 = Ok tt w3).
Proof.
  intros H.
  destruct (bindTo_leaves_a_child _ _ _ _ _ _ _ H) as (b & m & Hm & Hch).
  assert (Hlive : rr ∉ dead w1).
  { rewrite (bindTo_impl_keeps_dead _ _ _ _ _ _ _ H).
    destruct (bindTo_impl_Ok_inv _ _ _ _ _ _ _ H) as (_ & _ & Hr & _).
    simpl in Hr. by apply bool_decide_eq_false in Hr. }
  destruct (destroy_object_total rr w1 Hlive) as (w2 & Hdel).
  exists b, m, w2. split; [done|]. split; [done|]. split; [done|].
  assert (Hgone : deleted w2 b).
  { destruct (destroy_object_Ok _ _ _ _ Hdel) as (_ & w0 & Hm0 & _ & _ & _ & ->).
    destruct Hch as (Hp & _ & Hd).
    assert (Hb : deleted (delete_children rr (drop_object_wiring rr w0)) b).
    { apply destroy_all_deletes.
      - apply (children_elem _ _ _ (unmap_sender rr m)); [|done|done].
        unfold drop_object_wiring. simpl. by rewrite list_lookup_fmap, Hm0, Hm.
      - unfold drop_object_wiring. simpl. rewrite length_fmap, Hm0.
        by eapply lookup_lt_Some. }
    exact Hb. }
  split; [done|]. by apply deleted_mapper_is_silent.
Qed.

Lemma binding_dies_with_its_receiver_witness :
  exists b m w2,
    mappers bound_app !! b = Some m /\ is_child 3%nat "nwidget_binding_on_value" m
    /\ destroy_object 3%nat bound_app = Ok tt w2
    /\ deleted w2 b
    /\ (forall o s, b ∉ subscribers w2 o s)
    /\ (forall o w3, mappers w3 = mappers w2 -> QSignalMapper_map b o w3 = Ok tt w3).
Proof.
  apply (binding_dies_with_its_receiver 3%nat (FProperty (slider 3)) AutoConnection
           "nwidget_binding_on_value" sum12 app bound_app).
  vm_compute. reflexivity.
Defined.

(** ** A mapper that is pending deletion *)

Lemma World_ok_bound_app : World_ok bound_app.
Proof.
  apply (bindTo_keeps_World_ok (Some 3%nat) (FProperty (slider 3)) AutoConnection
           "nwidget_binding_on_value" sum12 app).
  - apply World_ok_unwired; reflexivity.
  - vm_compute. reflexivity.
Qed.

Lemma World_ok_pending_app : World_ok pending_app.
Proof.
  apply (bindTo_keeps_World_ok (Some 3%nat) (FProperty (slider 3)) AutoConnection
           "nwidget_binding_on_value" seven bound_app).
  - apply World_ok_bound_app.
  - vm_compute. reflexivity.
Qed.

(** X10. [bindTo] finds and uses again a mapper that is scheduled for
    deletion (the slot was last bound to an expression without observable
    operand, and the event loop has not run since).  The new functor and the
    new subscriptions are put on that mapper and the deletion stays
    scheduled: the next round of the event loop deletes the mapper, and the
    binding made last is gone with it. *)
Theorem binding_on_a_mapper_pending_deletion_is_lost
    (rr : ObjId) (func : Func) (ty : ConnectionType) (n : string)
    (e : BindingExpr) (w w1 : World) (b : MapperId) :
  World_ok w ->
  child_named w rr n = Some b -> delete_pending w b = true ->
  isObservable e = true ->
  bindTo_impl (Some rr) func ty n e w = Ok tt w1 ->
  child_named w1 rr n = Some b
  /\ functors w1 b = [(Some rr, func, e, ty)]
  /\ delete_pending w1 b = true
  /\ forall u w2, processEvents w1 = Ok u w2 ->
       deleted w2 b
       /\ (forall o s, b ∉ subscribers w2 o s)
       /\ (forall o w3, mappers w3 = mappers w2 -> QSignalMapper_map b o w3 = Ok tt w3).
Proof.
  intros Hok Hch Hpend Hobs H.
  pose proof (bindTo_keeps_World_ok _ _ _ _ _ _ _ Hok H) as Hok1.
  destruct (bindTo_observable_wiring _ _ _ _ _ _ _ Hok H Hobs)
    as (_ & b' & m & Hex & Hm & Hp & Hn & Hd & Hf & _).
  simpl in Hex. rewrite Hch in Hex. destruct Hex as [[= <-]|[[=] _]].
  split; [by apply (child_named_unique _ _ _ _ m)|]. split; [done|].
  assert (Hposted : posted w1 = posted w).
  { rewrite bindTo_impl_eq, Hobs in H.
    destruct (valid_slot func); [|done]. simpl in H.
    destruct (forallb hasNotifySignal (leaf_props e)); [|done]. simpl in H.
    destruct (bool_decide (rr ∈ dead w)); [done|]. rewrite Hch in H.
    destruct (leaves_alive w (leaf_props e)); [|done].
    destruct (oblivious_wiring _ _ _ _ (oblivious_call (Some rr) func e) H)
      as (_ & _ & ->).
    unfold wired. simpl. by rewrite posted_wire_leaves. }
  assert (Hpend1 : delete_pending w1 b = true).
  { unfold delete_pending. by rewrite Hposted. }
  split; [done|]. intros u w2 Hev.
  assert (Hdel : deleted w2 b).
  { apply (processEvents_deletes w1 u w2 b); [by eapply lookup_lt_Some | by right | done]. }
  split; [done|]. by apply deleted_mapper_is_silent.
Qed.

Lemma binding_on_a_mapper_pending_deletion_is_lost_witness :
  child_named rebound_pending_app 3%nat "nwidget_binding_on_value" = Some 0%nat
  /\ functors rebound_pending_app 0%nat
     = [(Some 3%nat, FProperty (slider 3), sum12, AutoConnection)]
  /\ delete_pending rebound_pending_app 0%nat = true
  /\ forall u w2, processEvents rebound_pending_app = Ok u w2 ->
       deleted w2 0%nat
       /\ (forall o s, 0%nat ∉ subscribers w2 o s)
       /\ (forall o w3, mappers w3 = mappers w2 ->
             QSignalMapper_map 0%nat o w3 = Ok tt w3).
Proof.
  apply (binding_on_a_mapper_pending_deletion_is_lost 3%nat (FProperty (slider 3))
           AutoConnection "nwidget_binding_on_value" sum12 pending_app).
  - apply World_ok_pending_app.
  - vm_compute. reflexivity.
  - vm_compute. reflexivity.
  - reflexivity.
  - vm_compute. reflexivity.
Defined.

(** The sum is bound, then the level of the gauge, then the sum again, all
    before the event loop runs: after it, a firing of slider 1 reaches no
    functor, and slider 3 is not updated any more. *)
Example binding_made_before_the_event_loop_is_gone :
  log <$> outcome ((processEvents;; modify (with_log (fun _ => []));;
                    emit_notify 1%nat "valueChanged") rebound_pending_app)
  = Some [].
Proof. vm_compute. reflexivity. Qed.

(** ** The invariants hold in every reachable state *)

Lemma step_keeps_World_ok s w u w' :
  World_ok w -> step s w = Ok u w' -> World_ok w'.
Proof.
  intros Hok. destruct s as [r func ty n e|p v|o sg|o|]; simpl; intros H.
  - destruct u. by eapply bindTo_keeps_World_ok.
  - eapply oblivious_keeps_World_ok; [apply (oblivious_set p v) | done | exact H].
  - by eapply emit_notify_keeps_World_ok.
  - by eapply destroy_object_keeps_World_ok.
  - by eapply processEvents_keeps_World_ok.
Qed.

(** X9. Start from an application without mappers and connections and let
    it bind, write properties, emit notify signals, delete objects and run
    the event loop, in any order and any number of times.  In every state
    it reaches, every connection is with a mapper that exists, no signal is
    connected twice to the slot of one mapper, a receiver has at most one
    live child of a given name, and a mapper carries at most one functor. *)
Theorem wiring_invariants_hold_in_every_reachable_state
    (l : list Step) (w w' : World) :
  mappers w = [] -> conns w = [] ->
  run l w = Ok tt w' -> World_ok w'.
Proof.
  intros Hm Hc. pose proof (World_ok_unwired w Hm Hc) as Hok. clear Hm Hc.
  revert w Hok. induction l as [|s l IH]; intros w Hok H.
  - by injection H as <-.
  - simpl in H. apply bindM_Ok in H as (u & w1 & Hs & Hr).
    eapply IH; [|exact Hr]. by eapply step_keeps_World_ok.
Qed.

Lemma wiring_invariants_hold_in_every_reachable_state_witness :
  World_ok rebound_pending_app.
Proof.
  apply (wiring_invariants_hold_in_every_reachable_state
           [DoBind (Some 3%nat) (FProperty (slider 3)) AutoConnection
              "nwidget_binding_on_value" sum12;
            DoBind (Some 3%nat) (FProperty (slider 3)) AutoConnection
              "nwidget_binding_on_value" seven;
            DoBind (Some 3%nat) (FProperty (slider 3)) AutoConnection
              "nwidget_binding_on_value" sum12] app).
  - reflexivity.
  - reflexivity.
  - vm_compute. reflexivity.
Defined.

(** ** What [bind] does to the connections *)

Lemma conns_wire1_mono b o s w c :
  c ∈ conns w -> c ∈ conns (wire1 b o s w).
Proof.
  intros H. rewrite wire1_conns_same.
  destruct (add_notify_conns b o s (add_destroyed o b w)) as [[_ ->]|[_ ->]];
    destruct (add_destroyed_conns b o w) as [->| ->];
    rewrite ?elem_of_app; auto.
Qed.

(** X7. [bind] walks the expression tree and does nothing but [bind1] on
    its leaves, from left to right: the shape of the expression and its
    actions play no part in the wiring.  It calls no getter and no setter,
    posts nothing, removes no connection, leaves the functors and every
    other mapper alone, and changes nothing at all when no leaf has a notify
    signal. *)
Theorem bind_is_bind1_on_the_leaves
    (b : MapperId) (e : BindingExpr) (w : World) :
  bind0 b e w = (for_each (bind1 b) (leaf_props e);; ret tt) w
  /\ (forall a w0, bind b a w0 = (for_each (bind1 b) (leaves a);; ret tt) w0)
  /\ (forall w', bind0 b e w = Ok tt w' ->
        same_objects w w' /\ posted w' = posted w
        /\ length (mappers w') = length (mappers w)
        /\ (forall b', b' <> b -> mappers w' !! b' = mappers w !! b')
        /\ (forall b', functors w' b' = functors w b')
        /\ (forall c, c ∈ conns w -> c ∈ conns w')
        /\ (forall c, c ∈ conns w' -> c ∈ conns w \/ conn_binding c = b)
        /\ (isObservable e = false -> w' = w)).
Proof.
  split; [|split].
  - apply bind0_leaves.
  - intros a w0. apply bind_leaves.
  - intros w' H.
    assert (Hn : forallb hasNotifySignal (leaf_props e) = true).
    { rewrite bind0_leaves in H. unfold bindM in H.
      destruct (for_each (bind1 b) (leaf_props e) w) as [us w1|f] eqn:E; [|done].
      by eapply for_each_bind1_Ok. }
    revert H. rewrite bind0_eq by done. unfold bind_all.
    destruct (leaves_alive w (leaf_props e)); [|done]. intros [= <-].
    split; [apply same_objects_wire_leaves|].
    split; [apply posted_wire_leaves|].
    split; [apply length_mappers_wire_leaves|].
    split; [intros b' Hne; by apply mappers_wire_leaves_ne|].
    split; [intros b'; apply functors_wire_leaves|].
    split.
    { intros c Hc.
      apply (wire_leaves_preserves b (fun w' => c ∈ conns w')); [|done].
      intros w0 o s. apply conns_wire1_mono. }
    split; [intros c; apply conns_wire_leaves|].
    intros Hobs. rewrite isObservable_leaves in Hobs.
    by apply wire_leaves_not_observable.
Qed.

Lemma settled_wire1_id b o s w : settled b o s w -> wire1 b o s w = w.
Proof.
  intros (Hw & Hs & Hm). unfold wire1.
  assert (E1 : add_destroyed o b w = w).
  { unfold add_destroyed. by rewrite bool_decide_eq_true_2. }
  rewrite E1.
  assert (E2 : add_notify o s b w = w).
  { unfold add_notify. by rewrite bool_decide_eq_true_2. }
  rewrite E2.
  unfold map_sender, with_mappers. destruct w as [at_ me de ms cs ps lg].
  simpl in *. f_equal. apply list_eq. intros i.
  destruct (decide (i = b)) as [->|Hne].
  - rewrite list_lookup_alter_eq. destruct (ms !! b) as [m|] eqn:E; [|done].
    simpl. f_equal. specialize (Hm m eq_refl). destruct m as [pa na ih wd].
    simpl in *. f_equal. by apply insert_id.
  - by rewrite list_lookup_alter_ne.
Qed.

Lemma settled_after_wire1 b o s w : settled b o s (wire1 b o s w).
Proof.
  split; [|split].
  - change (b ∈ watchers (add_notify o s b (add_destroyed o b w)) o).
    rewrite watchers_add_notify. apply watchers_add_destroyed_elem.
  - rewrite subscribers_wire1.
    destruct (decide (b ∈ subscribers w o s)) as [Hin|Hout].
    + by rewrite decide_False by tauto.
    + rewrite decide_True by done. apply elem_of_app. right.
      by apply list_elem_of_singleton.
  - intros m. rewrite mappers_wire1, list_lookup_alter_eq.
    destruct (mappers w !! b) as [m0|]; [|done]. simpl. intros [= <-]. simpl.
    apply lookup_insert_eq.
Qed.

Lemma settled_wire1_mono b o s o' s' w :
  settled b o s w -> settled b o s (wire1 b o' s' w).
Proof.
  intros (Hw & Hs & Hm). split; [|split].
  - by apply watchers_wire1_mono.
  - rewrite subscribers_wire1. destruct (decide _) as [[[-> ->] _]|_]; [|done].
    apply elem_of_app. by left.
  - intros m. rewrite mappers_wire1, list_lookup_alter_eq.
    destruct (mappers w !! b) as [m0|] eqn:E; [|done]. simpl. intros [= <-]. simpl.
    destruct (decide (o = o')) as [->|Hne].
    + apply lookup_insert_eq.
    + rewrite lookup_insert_ne by done. by apply Hm.
Qed.

Lemma wire_leaves_settles b ps w p o s :
  p ∈ ps -> mp_notify p = Some s -> mp_o p = Some o ->
  settled b o s (wire_leaves b ps w).
Proof.
  intros Hp Hs Ho. revert w. induction Hp as [p ps|p q ps _ IH]; intros w.
  - rewrite wire_leaves_cons.
    apply (wire_leaves_preserves b (settled b o s)).
    + intros w' o' s'. apply settled_wire1_mono.
    + unfold wire_prop. rewrite Hs, Ho. apply settled_after_wire1.
  - rewrite wire_leaves_cons. by apply IH.
Qed.

Lemma wire_leaves_id b ps w :
  (forall p o s, p ∈ ps -> mp_notify p = Some s -> mp_o p = Some o -> settled b o s w) ->
  wire_leaves b ps w = w.
Proof.
  induction ps as [|p ps IH]; intros H; [done|].
  rewrite wire_leaves_cons.
  assert (E : wire_prop b w p = w).
  { unfold wire_prop. destruct (mp_notify p) as [s|] eqn:Hs; [|done].
    destruct (mp_o p) as [o|] eqn:Ho; [|done].
    apply settled_wire1_id. apply (H p); [apply list_elem_of_here|done|done]. }
  rewrite E. apply IH. intros q o s Hq. apply H. by apply list_elem_of_further.
Qed.

(** X6. Wiring is idempotent.  [bind1] connects with
    [Qt::UniqueConnection] and maps the sender to the same id: done twice
    for one mapper and one accessor it leaves the state of the first time.
    The same holds for a whole expression, so that binding an expression in
    which an accessor occurs several times, or binding an expression again
    on the mapper it was bound on, adds no second connection. *)
Theorem wiring_twice_is_wiring_once
    (b : MapperId) (p : MetaProperty) (e : BindingExpr) (w : World) :
  (bind1 b p;; bind1 b p) w = bind1 b p w
  /\ (bind0 b e;; bind0 b e) w = bind0 b e w.
Proof.
  assert (H : forall ps, (bind_all b ps;; bind_all b ps) w = bind_all b ps w).
  { intros ps. unfold bindM, bind_all.
    destruct (leaves_alive w ps) eqn:Hl; [|done].
    rewrite (leaves_alive_same w (wire_leaves b ps w))
      by apply same_objects_wire_leaves.
    rewrite Hl. f_equal. apply wire_leaves_id.
    intros q o s Hq Hs Ho. by eapply wire_leaves_settles. }
  split.
  - destruct (hasNotifySignal p) eqn:Hn.
    + specialize (H [p]). unfold bindM in *.
      rewrite bind_all_singleton in H by done.
      destruct (bind1 b p w) as [[] w1|f] eqn:E; [|done].
      by rewrite bind_all_singleton in H.
    + unfold bindM, bind1. unfold hasNotifySignal in Hn.
      by destruct (mp_notify p).
  - destruct (bind0 b e w) as [[] w1|f] eqn:E; [|unfold bindM; by rewrite E].
    assert (Hn : forallb hasNotifySignal (leaf_props e) = true).
    { rewrite bind0_leaves in E. unfold bindM in E.
      destruct (for_each (bind1 b) (leaf_props e) w) as [us w0|f] eqn:E0; [|done].
      by eapply for_each_bind1_Ok. }
    specialize (H (leaf_props e)). unfold bindM in *.
    rewrite <- (bind0_eq b e w) in H by done. rewrite E in *.
    by rewrite <- (bind0_eq b e w1) in H.
Qed.

(** ** Binding one slot leaves the others alone *)

Lemma watchers_wire1_inv b o s w o' b' :
  b' ∈ watchers (wire1 b o s w) o' -> b' ∈ watchers w o' \/ b' = b.
Proof.
  change (watchers (wire1 b o s w) o')
    with (watchers (add_notify o s b (add_destroyed o b w)) o').
  rewrite watchers_add_notify. unfold watchers.
  destruct (add_destroyed_conns b o w) as [->| ->]; [auto|].
  rewrite omap_snoc, elem_of_app. simpl. intros [H|H]; [auto|].
  case_decide; [|by apply elem_of_nil in H].
  apply list_elem_of_singleton in H. auto.
Qed.

Lemma wired_frame r func ty e b W b' :
  b' <> b ->
  mappers (wired r func ty e b W) !! b' = mappers W !! b'
  /\ functors (wired r func ty e b W) b' = functors W b'
  /\ (forall o s, b' ∈ subscribers (wired r func ty e b W) o s <-> b' ∈ subscribers W o s)
  /\ (forall o, b' ∈ watchers (wired r func ty e b W) o <-> b' ∈ watchers W o)
  /\ posted (wired r func ty e b W) = posted W.
Proof.
  intros Hne. unfold wired. split; [|split; [|split; [|split]]].
  - simpl. by apply mappers_wire_leaves_ne.
  - rewrite functors_add_mapped_ne by done. apply functors_wire_leaves.
  - intros o s. rewrite subscribers_add_mapped. split.
    + intros [H| ->]%subscribers_wire_leaves_inv; done.
    + apply subscribers_wire_leaves_mono.
  - intros o. rewrite watchers_add_mapped. split.
    + apply (wire_leaves_preserves b
               (fun w' => b' ∈ watchers w' o -> b' ∈ watchers W o)); [|done].
      intros w' o' s' IH [H| ->]%watchers_wire1_inv; [auto|done].
    + apply (wire_leaves_preserves b (fun w' => b' ∈ watchers w' o)).
      intros w' o' s'. apply watchers_wire1_mono.
  - simpl. apply posted_wire_leaves.
Qed.

Lemma delete_pending_post_delete_ne b b' w :
  b' <> b -> delete_pending (post_delete b w) b' = delete_pending w b'.
Proof.
  intros Hne. unfold post_delete. destruct (delete_pending w b); [done|].
  unfold delete_pending. simpl. rewrite existsb_app. simpl.
  rewrite bool_decide_eq_false_2 by done. by rewrite !orb_false_r.
Qed.

(** X8. A call of [bindTo] works on one mapper, the one of its receiver
    and name (the one found, or the one it creates).  Every other mapper is
    left as it was: its parent, name and mappings, its functor, the signals
    it is subscribed to, the objects whose destruction it watches, and
    whether its deletion is scheduled.  The slots of two properties of one
    object are different mappers, as their names differ with the names of
    the properties. *)
Theorem binding_a_slot_leaves_the_other_mappers_alone
    (r : option ObjId) (func : Func) (ty : ConnectionType) (n : string)
    (e : BindingExpr) (w w1 : World) (b' : MapperId) :
  bindTo_impl r func ty n e w = Ok tt w1 ->
  (b' < length (mappers w))%nat ->
  existing_fan_in w r n <> Some b' ->
  mappers w1 !! b' = mappers w !! b'
  /\ functors w1 b' = functors w b'
  /\ (forall o s, b' ∈ subscribers w1 o s <-> b' ∈ subscribers w o s)
  /\ (forall o, b' ∈ watchers w1 o <-> b' ∈ watchers w o)
  /\ delete_pending w1 b' = delete_pending w b'
  /\ (forall p q, bindingName p = bindingName q -> mp_name p = mp_name q).
Proof.
  intros H Hlt Hex.
  assert (Hnames : forall p q, bindingName p = bindingName q -> mp_name p = mp_name q).
  { intros p q. unfold bindingName. simpl. by intros [= E]. }
  rewrite bindTo_impl_eq in H.
  destruct (valid_slot func); [|done]. simpl in H.
  destruct (forallb hasNotifySignal (leaf_props e)); [|done]. simpl in H.
  destruct (receiver_gone w r); [done|].
  assert (Hgen : forall b W,
    call r func e (wired r func ty e b W) = Ok tt w1 -> b' <> b ->
    mappers W !! b' = mappers w !! b' -> functors W b' = functors w b' ->
    (forall o s, subscribers W o s = subscribers w o s) ->
    (forall o, watchers W o = watchers w o) -> posted W = posted w ->
    mappers w1 !! b' = mappers w !! b'
    /\ functors w1 b' = functors w b'
    /\ (forall o s, b' ∈ subscribers w1 o s <-> b' ∈ subscribers w o s)
    /\ (forall o, b' ∈ watchers w1 o <-> b' ∈ watchers w o)
    /\ delete_pending w1 b' = delete_pending w b').
  { intros b W Hcall Hne Hm Hf Hs Hw Hp.
    destruct (oblivious_wiring _ _ _ _ (oblivious_call r func e) Hcall)
      as (Em & Ec & Ep).
    destruct (wired_frame r func ty e b W b' Hne) as (Fm & Ff & Fs & Fw & Fp).
    split; [by rewrite Em, Fm|].
    split; [unfold functors at 1; rewrite Ec;
            fold (functors (wired r func ty e b W) b'); by rewrite Ff|].
    split; [intros o s; unfold subscribers at 1; rewrite Ec;
            fold (subscribers (wired r func ty e b W) o s); by rewrite Fs, Hs|].
    split; [intros o; unfold watchers at 1; rewrite Ec;
            fold (watchers (wired r func ty e b W) o); by rewrite Fw, Hw|].
    unfold delete_pending. by rewrite Ep, Fp, Hp. }
  destruct (existing_fan_in w r n) as [b|] eqn:Hb.
  - assert (Hne : b' <> b) by congruence.
    destruct (isObservable e).
    + destruct (leaves_alive w (leaf_props e)); [|done].
      destruct (Hgen b (drop_sent_by b w) H Hne) as (G1 & G2 & G3 & G4 & G5);
        [done | by apply functors_drop_sent_by_ne
         | intros; apply subscribers_drop_sent_by
         | intros; apply watchers_drop_sent_by | done |].
      done.
    + destruct (call r func e w) as [[] w'|f] eqn:Hcall; [|done].
      simpl in H. injection H as <-.
      destruct (oblivious_wiring _ _ _ _ (oblivious_call r func e) Hcall)
        as (Em & Ec & Ep).
      assert (Hconns : conns (post_delete b w') = conns w).
      { unfold post_delete. by destruct (delete_pending w' b). }
      assert (Hmaps : mappers (post_delete b w') = mappers w).
      { unfold post_delete. by destruct (delete_pending w' b). }
      split; [by rewrite Hmaps|].
      split; [unfold functors; by rewrite Hconns|].
      split; [intros o s; unfold subscribers; by rewrite Hconns|].
      split; [intros o; unfold watchers; by rewrite Hconns|].
      split; [|done].
      rewrite delete_pending_post_delete_ne by done.
      unfold delete_pending. by rewrite Ep.
  - destruct (leaves_alive w (leaf_props e)); [|done].
    assert (Hne : b' <> length (mappers w)) by lia.
    destruct (Hgen _ _ H Hne) as (G1 & G2 & G3 & G4 & G5);
      [by apply fresh_mapper_lookup_ne | done | done | done | done |].
    done.
Qed.

Lemma binding_a_slot_leaves_the_other_mappers_alone_witness :
  mappers two_slots_app !! 0%nat = mappers bound_app !! 0%nat
  /\ functors two_slots_app 0%nat = functors bound_app 0%nat
  /\ (forall o s, 0%nat ∈ subscribers two_slots_app o s <-> 0%nat ∈ subscribers bound_app o s)
  /\ (forall o, 0%nat ∈ watchers two_slots_app o <-> 0%nat ∈ watchers bound_app o)
  /\ delete_pending two_slots_app 0%nat = delete_pending bound_app 0%nat
  /\ (forall p q, bindingName p = bindingName q -> mp_name p = mp_name q).
Proof.
  apply (binding_a_slot_leaves_the_other_mappers_alone
           (Some 5%nat) (FProperty (gauge_level 5)) AutoConnection
           "nwidget_binding_on_level" diff12 bound_app two_slots_app 0%nat).
  - vm_compute. reflexivity.
  - vm_compute. lia.
  - vm_compute. discriminate.
Defined.

(** ** Which [bindTo] a call selects *)

(** X12. Whenever the public [bindTo(receiver, func, type)] is viable for
    a call, so is the private [bindTo], whose first three parameters are the
    same: none of the two is more specialized, the call is ambiguous, and
    the public template is never the one selected.  The call in the body of
    [bindTo(Func)] passes [nullptr] for the parameter [Class* receiver],
    from which [Class] cannot be deduced: no declaration matches it,
    whatever the callable.  A call with an accessor, with or without a
    connection type, selects [bindTo(MetaProperty)], and the calls in the
    bodies of that template and of [bindTo(receiver, func, type)] select the
    private one. *)
Theorem bindTo_with_a_receiver_is_never_selected (actuals : list ArgKind) :
  resolve actuals <> Selected bindTo_of_receiver
  /\ (viable bindTo_of_receiver actuals = true ->
      viable bindTo_private actuals = true /\ resolve actuals = Ambiguous)
  /\ (forall func, resolve [ANullptr; func; AConnectionType; AQString] = NoMatch)
  /\ resolve [AnAccessor] = Selected bindTo_of_accessor
  /\ resolve [AnAccessor; AConnectionType] = Selected bindTo_of_accessor
  /\ resolve [ACallable] = Selected bindTo_of_callable
  /\ (forall func, resolve [APointer; func; AConnectionType; AQString]
                   = Selected bindTo_private).
Proof.
  assert (Hamb : viable bindTo_of_receiver actuals = true ->
                 viable bindTo_private actuals = true /\ resolve actuals = Ambiguous).
  { intros Hv. destruct actuals as [|a [|b [|c [|d l]]]].
    - discriminate Hv.
    - destruct a; discriminate Hv.
    - destruct a, b; try discriminate Hv; split; reflexivity.
    - destruct a, b, c; try discriminate Hv; split; reflexivity.
    - destruct a, b, c; discriminate Hv. }
  split; [|split; [exact Hamb|]].
  - destruct (viable bindTo_of_receiver actuals) eqn:Hv.
    + destruct (Hamb eq_refl) as [_ ->]. discriminate.
    + unfold resolve. unfold bindTo_overloads. cbn [List.filter]. rewrite Hv.
      intros H.
      destruct (viable bindTo_of_accessor actuals),
               (viable bindTo_of_callable actuals),
               (viable bindTo_private actuals);
        cbn [List.filter forallb] in H;
        repeat match type of H with
               | context [if ?c then _ else _] => destruct c
               end; try discriminate; injection H as H; discriminate.
  - split; [intros []; reflexivity|].
    split; [reflexivity|]. split; [reflexivity|]. split; [reflexivity|].
    intros []; reflexivity.
Qed.

(** So the two public templates for a callable never run: a call of
    [bindTo(func)] fails in its body, a call of [bindTo(receiver, func,
    type)] at the call itself. *)
Lemma bindTo_with_a_callable_does_not_compile
    (receiver : option ObjId) (func : Func) (type : ConnectionType)
    (pretty : string) (e : BindingExpr) (w : World) :
  bindTo_func func pretty e w = Err IllTyped
  /\ bindTo_slot receiver func type pretty e w = Err IllTyped.
Proof. split; by destruct func. Qed.

(** ** What an evaluation and a binding need *)

(** X15. An evaluation that yields a value has called the getter of every
    leaf of the expression, also of the leaves in a branch that the value
    does not come from: every accessor in the expression has a getter, its
    object has not been destroyed and holds a value for the property.  One
    accessor without getter, or of a destroyed object, anywhere in the
    expression makes every evaluation fail. *)
Theorem evaluation_needs_every_leaf
    (e : BindingExpr) (w w' : World) (v : value) :
  eval e w = Ok v w' ->
  forall p, p ∈ leaf_props e -> gettable w p.
Proof.
  intros (vs & w1 & H1 & _)%bindM_Ok p Hp.
  eapply for_each_eval_gettable; [|exact H1|exact Hp].
  apply Forall_forall. intros a _. apply eval_arg_gettable.
Qed.

Lemma evaluation_needs_every_leaf_witness : gettable app (slider 2).
Proof.
  apply (evaluation_needs_every_leaf sum12 app
           (logged [EvGet 1%nat "value"; EvGet 2%nat "value"] app) (VInt 5)).
  - vm_compute. reflexivity.
  - apply list_elem_of_further, list_elem_of_here.
Defined.

